(** * Erasure-coded object storage engine (XL): a shallow embedding

    The development follows the Go sources of the engine:
    the object layer constructor and storage statistics ([xlObjects]),
    the erasure storage layer ([XL]: volumes, directory listing, rename
    and delete under quorum), the erasure utilities
    ([getDataBlocks], [getEncodedBlockLen]), the erasure read path
    ([erasureReadFile] and its helpers) and the ordered tree walker with
    its pool ([listDir], [treeWalk], [lookupTreeWalk]).

    Conventions of the embedding.
    - Go [int] and [int64] values are integers in [Z]; operations that can
      leave the 64-bit range are written with their wrap-around ([wrap64]).
      Lengths of slices are [Z.of_nat (length l)].
    - A Go [error] is an [option error]: [None] is [nil].
    - A possibly-nil slice of bytes is an [option (list byte)], a possibly-nil
      interface value is an [option] of the abstract type of its
      implementations.
    - Calls that leave the engine (disk drivers, the Reed-Solomon codec,
      the random source, the walker channel) are operations on an abstract
      world [W]; the embedding threads the world through the code and keeps
      a log of the calls it makes, in program order.
    - A run-time panic of Go (index out of range, nil dereference) is the
      outcome [Panicked]. *)

From Stdlib Require Import ZArith Lia Bool.
From Stdlib Require Import Strings.Byte Strings.Ascii.
From stdpp Require Import base tactics option list numbers strings gmap sorting.

Local Open Scope Z_scope.

(* ===================================================================== *)
(** * Part I: the embedding *)
(* ===================================================================== *)

(** ** Errors, integers, outcomes *)

(** The error values of the packages that the embedded code names.
    [errorf] stands for a value built by [fmt.Errorf] around a cause,
    [errorNew] for one built by [errors.New], [errExternal] for an error
    value produced outside the engine (disk driver, codec). *)
Inductive error : Type :=
| errXLMaxDisks
| errXLMinDisks
| errXLNumDisks
| errUnexpected
| errXLReadQuorum
| errReadQuorum
| errWriteQuorum
| errInvalidArgument
| errDiskNotFound
| errVolumeExists
| errVolumeNotFound
| errUnformattedDisk
| errSomeDiskUnformatted
| errSomeDiskOffline
| errorNew (msg : string)
| errorf (msg : string) (cause : error)
| errExternal (code : nat).

Global Instance error_eq_dec : EqDecision error.
Proof. solve_decision. Defined.

(** Go's [int64]: range and wrap-around. *)
Definition minInt64 : Z := - 2 ^ 63.
Definition maxInt64 : Z := 2 ^ 63 - 1.
Definition wrap64 (z : Z) : Z := (z + 2 ^ 63) mod 2 ^ 64 - 2 ^ 63.
Definition add64 (a b : Z) : Z := wrap64 (a + b).
Definition sub64 (a b : Z) : Z := wrap64 (a - b).
Definition mul64 (a b : Z) : Z := wrap64 (a * b).
(** Go's integer division truncates toward zero; [%] is its remainder. *)
Definition div64 (a b : Z) : Z := wrap64 (Z.quot a b).
Definition rem64 (a b : Z) : Z := Z.rem a b.

(** Length of a slice as a Go [int]. *)
Definition len {A} (l : list A) : Z := Z.of_nat (length l).

(** A computation that may panic. *)
Inductive outcome (A : Type) : Type :=
| Returned (a : A)
| Panicked (why : string).
Global Arguments Returned {A} a.
Global Arguments Panicked {A} why.

(** ** The world outside the engine

    [IO W E A] is a computation over a world [W] that logs events of type
    [E]: every call that leaves the engine appends its event. *)
Section IOMonad.
Context {W E : Type}.

Definition IO (A : Type) : Type := W * list E → A * (W * list E).

Definition io_ret {A} (a : A) : IO A := λ s, (a, s).

Definition io_bind {A B} (m : IO A) (k : A → IO B) : IO B :=
  λ s, let '(a, s') := m s in k a s'.

(** An external call [op], logged as [ev]. *)
Definition io_call {A} (ev : E) (op : W → A * W) : IO A :=
  λ '(w, log), let '(a, w') := op w in (a, (w', log ++ [ev])).

(** An external call that the log does not record. *)
Definition io_lift {A} (op : W → A * W) : IO A :=
  λ '(w, log), let '(a, w') := op w in (a, (w', log)).

(** The log written by a run. *)
Definition io_log {A} (r : A * (W * list E)) : list E := r.2.2.
Definition io_val {A} (r : A * (W * list E)) : A := r.1.
End IOMonad.
Global Arguments IO : clear implicits.

Global Instance io_mret {W E} : MRet (IO W E) := λ A, io_ret.
Global Instance io_mbind {W E} : MBind (IO W E) := λ A B k m, io_bind m k.

(** Computations over the world that may panic: the panic ends the run. *)
Definition IOP (W E A : Type) : Type := IO W E (outcome A).

Definition iop_ret {W E A} (a : A) : IOP W E A := io_ret (Returned a).
Definition iop_panic {W E A} (why : string) : IOP W E A := io_ret (Panicked why).
Definition iop_bind {W E A B} (m : IOP W E A) (k : A → IOP W E B) : IOP W E B :=
  io_bind m (λ r, match r with
                  | Returned a => k a
                  | Panicked why => io_ret (Panicked why)
                  end).
(** A computation that cannot panic, and a pure one that can. *)
Definition iop_io {W E A} (m : IO W E A) : IOP W E A :=
  io_bind m (λ a, io_ret (Returned a)).
Definition iop_pure {W E A} (r : outcome A) : IOP W E A := io_ret r.

Global Instance iop_mret {W E} : MRet (IOP W E) := λ A, iop_ret.
Global Instance iop_mbind {W E} : MBind (IOP W E) := λ A B k m, iop_bind m k.

(** ** The object layer: [xlObjects] *)

Module XLObjects.

(** Maximum and minimum erasure blocks. *)
Definition maxErasureBlocks : Z := 16.
Definition minErasureBlocks : Z := 6.

(** [checkSufficientDisks]: validate if input disks are sufficient for
    initializing XL. *)
Definition checkSufficientDisks (disks : list string) : option error :=
  let totalDisks := len disks in
  if totalDisks >? maxErasureBlocks then Some errXLMaxDisks
  else if totalDisks <? minErasureBlocks then Some errXLMinDisks
  else
    let isEven (number : Z) : bool := rem64 number 2 =? 0 in
    if negb (isEven totalDisks) then Some errXLNumDisks
    else None.

(** The struct [xlObjects]; the list pool and the object cache are
    opaque handles of other packages and carry no data here. *)
Record xlObjects (Disk : Type) : Type := mkXLObjects {
  physicalDisks : list string;
  storageDisks : list (option Disk);
  dataBlocks : Z;
  parityBlocks : Z;
  readQuorum : Z;
  writeQuorum : Z;
  objCacheEnabled : bool
}.
Global Arguments mkXLObjects {Disk}.
Global Arguments physicalDisks {Disk}.
Global Arguments storageDisks {Disk}.
Global Arguments dataBlocks {Disk}.
Global Arguments parityBlocks {Disk}.
Global Arguments readQuorum {Disk}.
Global Arguments writeQuorum {Disk}.
Global Arguments objCacheEnabled {Disk}.

(** Assignments to the quorum fields. *)
Definition set_readQuorum {Disk} (xl : xlObjects Disk) (q : Z) : xlObjects Disk :=
  {| physicalDisks := physicalDisks xl; storageDisks := storageDisks xl;
     dataBlocks := dataBlocks xl; parityBlocks := parityBlocks xl;
     readQuorum := q; writeQuorum := writeQuorum xl;
     objCacheEnabled := objCacheEnabled xl |}.
Definition set_writeQuorum {Disk} (xl : xlObjects Disk) (q : Z) : xlObjects Disk :=
  {| physicalDisks := physicalDisks xl; storageDisks := storageDisks xl;
     dataBlocks := dataBlocks xl; parityBlocks := parityBlocks xl;
     readQuorum := readQuorum xl; writeQuorum := q;
     objCacheEnabled := objCacheEnabled xl |}.

(** Calls of [newXLObjects] that reach the disks. *)
Inductive bootEvent : Type :=
| EvNewStorageAPI (disk : string)
| EvLoadAllFormats
| EvInitMetaVolume
| EvInitFormatXL
| EvHealFormatXL
| EvHouseKeeping
| EvLoadFormatXL.

(** The bootstrap helpers that [newXLObjects] calls; they live in other
    files of the package and are taken as an interface. *)
Class Bootstrap (W Disk Format : Type) : Type := {
  newStorageAPI : string → W → (option Disk * option error) * W;
  loadAllFormats :
    list (option Disk) → W → (list (option Format) * list (option error)) * W;
  genericFormatCheck : list (option Format) → list (option error) → option error;
  reduceFormatErrs : list (option error) → Z → option error;
  initMetaVolume : list (option Disk) → W → option error * W;
  initFormatXL : list (option Disk) → W → option error * W;
  healFormatXL : list (option Disk) → W → option error * W;
  xlHouseKeeping : list (option Disk) → W → option error * W;
  loadFormatXL : list (option Disk) → W → (list (option Disk) * option error) * W;
  globalMaxCacheSize : Z
}.

Section Constructor.
Context {W Disk Format : Type} `{!Bootstrap W Disk Format}.

(** The loop that bootstraps the disks: disk-not-found errors are
    ignored and leave a nil entry, any other error aborts. *)
Fixpoint bootstrapDisks (disks : list string)
  : IO W bootEvent (list (option Disk) * option error) :=
  match disks with
  | [] => mret ([], None)
  | disk :: rest =>
      '(d, err) ← io_call (EvNewStorageAPI disk) (newStorageAPI disk);
      if decide (err ≠ None ∧ err ≠ Some errDiskNotFound)
      then mret ([], err)
      else
        '(ds, err') ← bootstrapDisks rest;
        mret (d :: ds, err')
  end.

(** The [switch] on the reduced format errors. *)
Definition handleFormatErrs (sErrs : list (option error))
    (storageDisks' : list (option Disk)) : IO W bootEvent (option error) :=
  match reduceFormatErrs sErrs (len storageDisks') with
  | Some errUnformattedDisk =>
      err ← io_call EvInitMetaVolume (initMetaVolume storageDisks');
      match err with
      | Some e =>
          mret (Some (errorf "Unable to initialize '.minio' meta volume, %s" e))
      | None =>
          err ← io_call EvInitFormatXL (initFormatXL storageDisks');
          match err with
          | Some e => mret (Some (errorf "Unable to initialize format, %s" e))
          | None => mret None
          end
      end
  | Some errSomeDiskUnformatted =>
      err ← io_call EvHealFormatXL (healFormatXL storageDisks');
      match err with
      | Some e => mret (Some (errorf "Unable to heal backend %s" e))
      | None => mret None
      end
  | _ => mret None
  end.

(** [newXLObjects]: initialize a new xl object layer.  The result is the
    pair (object layer, error) of the Go function. *)
Definition newXLObjects (disks : list string)
  : IO W bootEvent (option (xlObjects Disk) * option error) :=
  match checkSufficientDisks disks with
  | Some err => mret (None, Some err)
  | None =>
      '(storageDisks', err) ← bootstrapDisks disks;
      match err with
      | Some e => mret (None, Some e)
      | None =>
      '(formatConfigs, sErrs) ← io_call EvLoadAllFormats (loadAllFormats storageDisks');
      match genericFormatCheck formatConfigs sErrs with
      | Some e => mret (None, Some e)
      | None =>
      err ← handleFormatErrs sErrs storageDisks';
      match err with
      | Some e => mret (None, Some e)
      | None =>
      err ← io_call EvHouseKeeping (xlHouseKeeping storageDisks');
      match err with
      | Some e => mret (None, Some e)
      | None =>
      '(newPosixDisks, err) ← io_call EvLoadFormatXL (loadFormatXL storageDisks');
      match err with
      | Some e =>
          mret (None, Some (errorf "Unable to recognize backend format, %s" e))
      | None =>
          let dataBlocks' := Z.quot (len newPosixDisks) 2 in
          let parityBlocks' := Z.quot (len newPosixDisks) 2 in
          let xl := {|
            physicalDisks := disks;
            storageDisks := newPosixDisks;
            dataBlocks := dataBlocks';
            parityBlocks := parityBlocks';
            readQuorum := 0;
            writeQuorum := 0;
            objCacheEnabled := globalMaxCacheSize >? 0 |} in
          let xl := set_readQuorum xl (Z.quot (len (storageDisks xl)) 2 + 1) in
          let xl := set_writeQuorum xl (Z.quot (len (storageDisks xl)) 2 + 1) in
          mret (Some xl, None)
      end end end end end
  end.
End Constructor.

(** [disk.Info] of package [disk]: the two fields that [StorageInfo]
    reads. *)
Record diskInfo : Type := mkDiskInfo { Total : Z; Free : Z }.

(** The result struct [StorageInfo]. *)
Record storageInfo : Type := mkStorageInfo { siTotal : Z; siFree : Z }.

(** [byDiskTotal.Less]: order by the [Total] field. *)
Definition byDiskTotal_Less (a b : diskInfo) : bool := Total a <? Total b.

(** What [StorageInfo] takes from other packages: [disk.GetInfo] and
    [sort.Sort], which orders by the given [Less] and is not stable. *)
Class DiskStats : Type := {
  GetInfo : string → diskInfo * option error;
  sort_Sort : (diskInfo → diskInfo → bool) → list diskInfo → list diskInfo
}.

Section StorageInfo.
Context `{!DiskStats} {Disk : Type}.

(** The loop of [StorageInfo]: the infos of the disks that answer, in
    the order of [physicalDisks]. *)
Fixpoint gatherDisksInfo (paths : list string) : list diskInfo :=
  match paths with
  | [] => []
  | diskPath :: rest =>
      let '(info, err) := GetInfo diskPath in
      match err with
      | Some _ => gatherDisksInfo rest
      | None => info :: gatherDisksInfo rest
      end
  end.

(** [StorageInfo]: returns underlying storage statistics. *)
Definition StorageInfo (xl : xlObjects Disk) : outcome storageInfo :=
  let disksInfo := gatherDisksInfo (physicalDisks xl) in
  let disksInfo := sort_Sort byDiskTotal_Less disksInfo in
  match disksInfo !! 0%nat with
  | None => Panicked "index out of range"
  | Some d0 =>
      Returned {|
        siTotal := mul64 (Total d0) (len (storageDisks xl));
        siFree := mul64 (Free d0) (len (storageDisks xl)) |}
  end.
End StorageInfo.

(** [sort.Sort] on short slices is an insertion sort; it serves as a
    concrete sorter for the examples. *)
Fixpoint insertSorted {A} (less : A → A → bool) (x : A) (l : list A) : list A :=
  match l with
  | [] => [x]
  | y :: l' => if less x y then x :: l else y :: insertSorted less x l'
  end.
Definition insertionSort {A} (less : A → A → bool) (l : list A) : list A :=
  foldr (insertSorted less) [] l.

(** The contract of [sort.Sort] for [byDiskTotal]: the result is a
    rearrangement of the input in which no element is [Less] than one
    before it. *)
Definition sort_contract `{DiskStats0 : !DiskStats} : Prop :=
  ∀ l, sort_Sort byDiskTotal_Less l ≡ₚ l ∧
       StronglySorted (λ a b, byDiskTotal_Less b a = false)
                      (sort_Sort byDiskTotal_Less l).

End XLObjects.

(** ** Go's [strings] package, as far as the engine uses it *)

Module Strings.

(** [s[i:]] and [s[:i]] for [0 <= i <= len(s)]. *)
Fixpoint dropStr (i : nat) (s : string) : string :=
  match i, s with
  | O, _ => s
  | S i', String _ s' => dropStr i' s'
  | S _, EmptyString => EmptyString
  end.
Fixpoint takeStr (i : nat) (s : string) : string :=
  match i, s with
  | O, _ => EmptyString
  | S i', String c s' => String c (takeStr i' s')
  | S _, EmptyString => EmptyString
  end.

(** [HasPrefix] tests whether the string [s] begins with [prefix]. *)
Definition HasPrefix (s prefix : string) : bool :=
  (String.length prefix <=? String.length s)%nat &&
  String.eqb (takeStr (String.length prefix) s) prefix.

(** [HasSuffix] tests whether the string [s] ends with [suffix]. *)
Definition HasSuffix (s suffix : string) : bool :=
  (String.length suffix <=? String.length s)%nat &&
  String.eqb (dropStr (String.length s - String.length suffix) s) suffix.

(** [TrimPrefix] returns [s] without the provided leading [prefix]. *)
Definition TrimPrefix (s prefix : string) : string :=
  if HasPrefix s prefix then dropStr (String.length prefix) s else s.

(** [TrimSuffix] returns [s] without the provided trailing [suffix]. *)
Definition TrimSuffix (s suffix : string) : string :=
  if HasSuffix s suffix
  then takeStr (String.length s - String.length suffix) s
  else s.

(** [Index]: the first instance of [sep] in [s], or [-1]. *)
Fixpoint indexFrom (pos : nat) (s sep : string) : option nat :=
  if HasPrefix s sep then Some pos
  else match s with
       | EmptyString => None
       | String _ s' => indexFrom (S pos) s' sep
       end.
Definition Index (s sep : string) : Z :=
  match indexFrom 0 s sep with Some i => Z.of_nat i | None => -1 end.

(** [LastIndex]: the last instance of [sep] in [s], or [-1]. *)
Fixpoint lastIndexFrom (pos : nat) (s sep : string) (last : Z) : Z :=
  let last' := if HasPrefix s sep then Z.of_nat pos else last in
  match s with
  | EmptyString => last'
  | String _ s' => lastIndexFrom (S pos) s' sep last'
  end.
Definition LastIndex (s sep : string) : Z := lastIndexFrom 0 s sep (-1).

(** [SplitN(s, sep, 2)] for a non-empty [sep]: the parts before and
    after the first [sep], or [s] alone. *)
Definition SplitN2 (s sep : string) : list string :=
  match indexFrom 0 s sep with
  | Some i => [takeStr i s; dropStr (i + String.length sep) s]
  | None => [s]
  end.

(** Go compares strings byte by byte: [a < b]. *)
Definition lt (a b : string) : Prop := String.compare a b = Lt.

(** An entry of a directory listing is a name, or a name followed by the
    slash that marks a directory: it is not empty, it is not the slash
    alone, and a slash is nowhere but at its end. *)
Fixpoint slashOnlyLast (s : string) : bool :=
  match s with
  | EmptyString => true
  | String c EmptyString => true
  | String c s' => negb (Ascii.eqb c "/"%char) && slashOnlyLast s'
  end.
Definition wfEntry (e : string) : bool :=
  negb (String.eqb e "") && negb (String.eqb e "/") && slashOnlyLast e.

Definition wf_entry (e : string) : Prop :=
  e ≠ "" ∧ e ≠ "/" ∧ ∀ a b, e = a +:+ "/" +:+ b → b = "".

(** A directory prefix is empty or ends with a slash. *)
Definition dirLike (d : string) : Prop := d = "" ∨ ∃ x, d = x +:+ "/".

End Strings.

(** ** The Reed-Solomon codec *)

(** The codec of package [reedsolomon]. *)
Class Codec (Encoder : Type) : Type := {
  reedsolomon_New : Z → Z → Encoder * option error;
  Reconstruct : Encoder → list (option (list byte)) →
                list (option (list byte)) * option error;
  Verify : Encoder → list (option (list byte)) → bool * option error
}.

(** ** The erasure storage layer: [XL] *)

Module XL.
Import Strings.

Definition slashSeparator : string := "/".

(** The struct [XL]. *)
Record XL (Encoder Disk : Type) : Type := mkXL {
  ReedSolomon : Encoder;
  DataBlocks : Z;
  ParityBlocks : Z;
  storageDisks : list (option Disk);
  readQuorum : Z;
  writeQuorum : Z
}.
Global Arguments mkXL {Encoder Disk}.
Global Arguments ReedSolomon {Encoder Disk}.
Global Arguments DataBlocks {Encoder Disk}.
Global Arguments ParityBlocks {Encoder Disk}.
Global Arguments storageDisks {Encoder Disk}.
Global Arguments readQuorum {Encoder Disk}.
Global Arguments writeQuorum {Encoder Disk}.

(** [newXL]: instantiate a new XL. *)
Definition newXL {Encoder Disk} `{!Codec Encoder} (disks : list (option Disk))
  : option (XL Encoder Disk) * option error :=
  let dataBlocks := Z.quot (len disks) 2 in
  let parityBlocks := Z.quot (len disks) 2 in
  let '(rs, err) := reedsolomon_New dataBlocks parityBlocks in
  match err with
  | Some e => (None, Some e)
  | None =>
      let readQuorum' := Z.quot (len disks) 2 + 1 in
      let writeQuorum' := Z.quot (len disks) 2 + 3 in
      let writeQuorum' :=
        if writeQuorum' >? len disks then len disks else writeQuorum' in
      (Some {| ReedSolomon := rs;
               DataBlocks := dataBlocks;
               ParityBlocks := parityBlocks;
               storageDisks := disks;
               readQuorum := readQuorum';
               writeQuorum := writeQuorum' |}, None)
  end.

(** The methods of the [StorageAPI] interface that the embedded code
    calls on a single disk, as operations on the world. *)
Class StorageAPI (W Disk : Type) : Type := {
  disk_ListDir : Disk → string → string → W → (list string * option error) * W;
  disk_StatFile : Disk → string → string → W → option error * W;
  disk_DeleteFile : Disk → string → string → W → option error * W;
  disk_RenameFile : Disk → string → string → string → string → W → option error * W
}.

(** Helpers of other files and packages: name validation, path joining,
    the decimal rendering of [fmt.Sprintf("file.%d", index)], and the
    random source [rand.Intn]. *)
Class Helpers (W : Type) : Type := {
  isValidVolname : string → bool;
  isValidPath : string → bool;
  path_Join : string → string → string;
  retainSlash : string → string;
  sprintf_file : nat → string;
  rand_Intn : Z → W → Z * W
}.

(** Calls that leave the layer. *)
Inductive xlEvent : Type :=
| EvDiskListDir (index : Z) (volume dirPath : string)
| EvDiskStatFile (volume path : string)
| EvDiskDeleteFile (index : nat) (volume path : string)
| EvDiskRenameFile (index : nat).

(** The index of the disk that a listing event names. *)
Definition listed_index (ev : xlEvent) : option Z :=
  match ev with
  | EvDiskListDir index _ _ => Some index
  | _ => None
  end.

(** Whether an event is a delete on the given volume. *)
Definition is_delete_on (volume : string) (ev : xlEvent) : Prop :=
  match ev with
  | EvDiskDeleteFile _ v _ => v = volume
  | _ => False
  end.

Section Methods.
Context {W Encoder Disk : Type} `{!StorageAPI W Disk} `{!Helpers W}.

Local Abbreviation M := (IO W xlEvent).

(** [isLeafDirectoryXL]: check if a given path is leaf directory, i.e.
    if it contains the file [xlMetaV1File]. *)
Definition xlMetaV1File : string := "file.json".
Definition isLeafDirectoryXL (disk : Disk) (volume leafPath : string) : M bool :=
  let p := path_Join leafPath xlMetaV1File in
  err ← io_call (EvDiskStatFile volume p) (disk_StatFile disk volume p);
  mret (bool_decide (err = None)).

(** The loop over the entries of a successful listing. *)
Fixpoint trimLeafEntries (disk : Disk) (volume dirPath : string)
    (entries : list string) : M (list string) :=
  match entries with
  | [] => mret []
  | entry :: rest =>
      isLeaf ← isLeafDirectoryXL disk volume (path_Join dirPath entry);
      let isDir := HasSuffix entry slashSeparator in
      let entry' :=
        if isDir && isLeaf then TrimSuffix entry slashSeparator else entry in
      rest' ← trimLeafEntries disk volume dirPath rest;
      mret (entry' :: rest')
  end.

(** The retry loop of [ListDir]: [attempts] is the number of
    iterations left, [len(xl.storageDisks) - listErrCount]; [err] is
    the error of the last failed attempt. *)
Fixpoint listDirLoop (xl : XL Encoder Disk) (volume dirPath : string)
    (attempts : nat) (err : option error)
  : M (outcome (list string * option error)) :=
  match attempts with
  | O => mret (Returned ([], err))
  | S attempts' =>
      let n := len (storageDisks xl) - 1 in
      if n <=? 0 then mret (Panicked "invalid argument to Intn")
      else
        randIndex ← io_lift (rand_Intn n);
        match (if randIndex <? 0 then None
               else storageDisks xl !! Z.to_nat randIndex) with
        | None => mret (Panicked "index out of range")
        | Some None => mret (Panicked "nil pointer dereference")
        | Some (Some disk) =>
            '(entries, err') ← io_call (EvDiskListDir randIndex volume dirPath)
                                  (disk_ListDir disk volume dirPath);
            match err' with
            | None =>
                entries' ← trimLeafEntries disk volume dirPath entries;
                mret (Returned (entries', None))
            | Some _ => listDirLoop xl volume dirPath attempts' err'
            end
        end
  end.

(** [ListDir]: return all the entries at the given directory path. *)
Definition ListDir (xl : XL Encoder Disk) (volume dirPath : string)
  : M (outcome (list string * option error)) :=
  if negb (isValidVolname volume)
  then mret (Returned ([], Some errInvalidArgument))
  else listDirLoop xl volume dirPath (length (storageDisks xl)) None.

(** [deleteXLFiles]: delete all XL backend files.  [index] and
    [errCount] are the loop variables. *)
Fixpoint deleteLoop (xl : XL Encoder Disk) (volume path : string)
    (disks : list (option Disk)) (index : nat) (errCount : Z)
  : M (outcome (option error)) :=
  match disks with
  | [] => mret (Returned None)
  | None :: _ => mret (Panicked "nil pointer dereference")
  | Some disk :: rest =>
      let erasureFilePart := path_Join path (sprintf_file index) in
      err ← io_call (EvDiskDeleteFile index volume erasureFilePart)
                    (disk_DeleteFile disk volume erasureFilePart);
      match err with
      | Some e =>
          let errCount := errCount + 1 in
          if errCount <=? len (storageDisks xl) - writeQuorum xl
          then deleteLoop xl volume path rest (S index) errCount
          else mret (Returned (Some e))
      | None =>
          let xlMetaV1FilePath := path_Join path "file.json" in
          err ← io_call (EvDiskDeleteFile index volume xlMetaV1FilePath)
                        (disk_DeleteFile disk volume xlMetaV1FilePath);
          match err with
          | Some e =>
              let errCount := errCount + 1 in
              if errCount <=? len (storageDisks xl) - writeQuorum xl
              then deleteLoop xl volume path rest (S index) errCount
              else mret (Returned (Some e))
          | None => deleteLoop xl volume path rest (S index) errCount
          end
      end
  end.
Definition deleteXLFiles (xl : XL Encoder Disk) (volume path : string)
  : M (outcome (option error)) :=
  deleteLoop xl volume path (storageDisks xl) 0 0.

(** The fan-out of [RenameFile], one disk after the other: each task
    writes its own slot of [errs].  The task stores the error of the
    disk and then stores [nil] over it, as the source does. *)
Fixpoint renameFanOut (srcVolume srcPath dstVolume dstPath : string)
    (disks : list (option Disk)) (index : nat) (errs : list (option error))
  : M (outcome (list (option error))) :=
  match disks with
  | [] => mret (Returned errs)
  | None :: _ => mret (Panicked "nil pointer dereference")
  | Some disk :: rest =>
      err ← io_call (EvDiskRenameFile index)
                    (disk_RenameFile disk srcVolume (retainSlash srcPath)
                                     dstVolume (retainSlash dstPath));
      let errs := match err with
                  | Some _ => <[index := err]> errs
                  | None => errs
                  end in
      let errs := <[index := None]> errs in
      renameFanOut srcVolume srcPath dstVolume dstPath rest (S index) errs
  end.

(** The number of non-nil errors of a slice. *)
Fixpoint countErrs (errs : list (option error)) : Z :=
  match errs with
  | [] => 0
  | None :: rest => countErrs rest
  | Some _ :: rest => countErrs rest + 1
  end.

(** The end of [RenameFile], from "Gather err count": the verdict on
    the gathered slice of errors. *)
Definition renameVerdict (xl : XL Encoder Disk) (errs : list (option error))
    (dstVolume dstPath : string) : M (outcome (option error)) :=
  let errCount := countErrs errs in
  if errCount >? len (storageDisks xl) - writeQuorum xl then
    if errCount <=? len (storageDisks xl) - readQuorum xl
    then mret (Returned None)
    else
      r ← deleteXLFiles xl dstVolume dstPath;
      match r with
      | Panicked why => mret (Panicked why)
      | Returned _ => mret (Returned (Some errWriteQuorum))
      end
  else mret (Returned None).

(** [RenameFile]: rename file. *)
Definition RenameFile (xl : XL Encoder Disk)
    (srcVolume srcPath dstVolume dstPath : string)
  : M (outcome (option error)) :=
  if negb (isValidVolname srcVolume) then mret (Returned (Some errInvalidArgument))
  else if negb (isValidPath srcPath) then mret (Returned (Some errInvalidArgument))
  else if negb (isValidVolname dstVolume) then mret (Returned (Some errInvalidArgument))
  else if negb (isValidPath dstPath) then mret (Returned (Some errInvalidArgument))
  else
    let errs := replicate (length (storageDisks xl)) None in
    r ← renameFanOut srcVolume srcPath dstVolume dstPath (storageDisks xl) 0 errs;
    match r with
    | Panicked why => mret (Panicked why)
    | Returned errs => renameVerdict xl errs dstVolume dstPath
    end.

(** [DeleteFile]: delete a file. *)
Definition DeleteFile (xl : XL Encoder Disk) (volume path : string)
  : M (outcome (option error)) :=
  if negb (isValidVolname volume) then mret (Returned (Some errInvalidArgument))
  else if negb (isValidPath path) then mret (Returned (Some errInvalidArgument))
  else deleteXLFiles xl volume path.
End Methods.

End XL.

(** ** The erasure storage layer: volumes *)

Module XLVolumes.
Import XL.

(** [VolInfo]: the fields of the volume information that the layer
    reads and writes. *)
Record VolInfo : Type := mkVolInfo {
  Name : string;
  Total : Z;
  Free : Z
}.

(** The zero value [VolInfo{}]. *)
Definition VolInfo_zero : VolInfo := {| Name := ""; Total := 0; Free := 0 |}.

(** The volume methods of the [StorageAPI] interface on a single disk. *)
Class VolumeAPI (W Disk : Type) : Type := {
  disk_MakeVol : Disk → string → W → option error * W;
  disk_DeleteVol : Disk → string → W → option error * W;
  disk_StatVol : Disk → string → W → (VolInfo * option error) * W;
  disk_ListVols : Disk → W → (list VolInfo * option error) * W
}.

(** Calls that leave the layer.  [EvGoHeal] is the start of the healing
    goroutine of [StatVol], with the indices of the disks on which it
    will make the volume. *)
Inductive volEvent : Type :=
| EvDiskMakeVol (index : nat) (volume : string)
| EvDiskDeleteVol (index : nat) (volume : string)
| EvDiskStatVol (index : nat) (volume : string)
| EvDiskListVols (index : nat)
| EvGoHeal (indices : list nat).

(** The indices of the entries of a slice that are not nil, counted
    from [index]. *)
Fixpoint liveFrom {A} (l : list (option A)) (index : nat) : list nat :=
  match l with
  | [] => []
  | None :: rest => liveFrom rest (S index)
  | Some _ :: rest => index :: liveFrom rest (S index)
  end.

(** The sum of a list of integers. *)
Definition sumZ (l : list Z) : Z := foldr Z.add 0 l.

Section VolumeMethods.
Context {W Encoder Disk : Type} `{!VolumeAPI W Disk} `{!Helpers W}.

Local Abbreviation M := (IO W volEvent).

(** The fan-out of [MakeVol], one disk after the other: each task writes
    its own slot of [dErrs]; a nil disk is left out. *)
Fixpoint makeVolFanOut (volume : string) (disks : list (option Disk))
    (index : nat) (dErrs : list (option error)) : M (list (option error)) :=
  match disks with
  | [] => mret dErrs
  | None :: rest => makeVolFanOut volume rest (S index) dErrs
  | Some disk :: rest =>
      err ← io_call (EvDiskMakeVol index volume) (disk_MakeVol disk volume);
      makeVolFanOut volume rest (S index) (<[index := err]> dErrs)
  end.

(** The loop of [MakeVol] through the errors: the counters
    [createVolErr] and [volumeExistsErrCnt]. *)
Fixpoint countMakeVolErrs (dErrs : list (option error))
    (createVolErr volumeExistsErrCnt : Z) : Z * Z :=
  match dErrs with
  | [] => (createVolErr, volumeExistsErrCnt)
  | None :: rest => countMakeVolErrs rest createVolErr volumeExistsErrCnt
  | Some err :: rest =>
      if decide (err = errVolumeExists)
      then countMakeVolErrs rest createVolErr (volumeExistsErrCnt + 1)
      else countMakeVolErrs rest (createVolErr + 1) volumeExistsErrCnt
  end.

(** [MakeVol]: make a volume. *)
Definition MakeVol (xl : XL Encoder Disk) (volume : string) : M (option error) :=
  if negb (isValidVolname volume) then mret (Some errInvalidArgument)
  else
    let dErrs := replicate (length (storageDisks xl)) None in
    dErrs ← makeVolFanOut volume (storageDisks xl) 0 dErrs;
    let '(createVolErr, volumeExistsErrCnt) := countMakeVolErrs dErrs 0 0 in
    if volumeExistsErrCnt =? len (storageDisks xl)
    then mret (Some errVolumeExists)
    else if createVolErr >? len (storageDisks xl) - writeQuorum xl
    then mret (Some errWriteQuorum)
    else mret None.

(** The fan-out of [DeleteVol]; the task calls the disk without a nil
    check. *)
Fixpoint deleteVolFanOut (volume : string) (disks : list (option Disk))
    (index : nat) (dErrs : list (option error))
  : M (outcome (list (option error))) :=
  match disks with
  | [] => mret (Returned dErrs)
  | None :: _ => mret (Panicked "nil pointer dereference")
  | Some disk :: rest =>
      err ← io_call (EvDiskDeleteVol index volume) (disk_DeleteVol disk volume);
      deleteVolFanOut volume rest (S index) (<[index := err]> dErrs)
  end.

(** The loop of [DeleteVol] through the errors: the error that it
    returns from within, or the counter [volumeNotFoundErrCnt] at its
    end. *)
Fixpoint deleteVolErrs (dErrs : list (option error)) (volumeNotFoundErrCnt : Z)
  : error + Z :=
  match dErrs with
  | [] => inr volumeNotFoundErrCnt
  | None :: rest => deleteVolErrs rest volumeNotFoundErrCnt
  | Some err :: rest =>
      if decide (err = errVolumeNotFound ∨ err = errDiskNotFound)
      then deleteVolErrs rest (volumeNotFoundErrCnt + 1)
      else inl err
  end.

(** [DeleteVol]: delete a volume. *)
Definition DeleteVol (xl : XL Encoder Disk) (volume : string)
  : M (outcome (option error)) :=
  if negb (isValidVolname volume) then mret (Returned (Some errInvalidArgument))
  else
    let dErrs := replicate (length (storageDisks xl)) None in
    r ← deleteVolFanOut volume (storageDisks xl) 0 dErrs;
    match r with
    | Panicked why => mret (Panicked why)
    | Returned dErrs =>
        match deleteVolErrs dErrs 0 with
        | inl err => mret (Returned (Some err))
        | inr volumeNotFoundErrCnt =>
            if volumeNotFoundErrCnt =? len (storageDisks xl)
            then mret (Returned (Some errVolumeNotFound))
            else mret (Returned None)
        end
    end.

(** The fan-out of [ListVols]: the listing of every disk, its error
    dropped. *)
Fixpoint listVolsFanOut (disks : list (option Disk)) (index : nat)
    (successVols : list (list VolInfo)) : M (outcome (list (list VolInfo))) :=
  match disks with
  | [] => mret (Returned successVols)
  | None :: _ => mret (Panicked "nil pointer dereference")
  | Some disk :: rest =>
      '(vlsInfo, _) ← io_call (EvDiskListVols index) (disk_ListVols disk);
      listVolsFanOut rest (S index) (<[index := vlsInfo]> successVols)
  end.

(** The inner loop of [ListVols]: [vlInfo] is assigned every element up
    to the first one that has a name. *)
Fixpoint firstNamed (vlsInfo : list VolInfo) (vlInfo : VolInfo) : VolInfo :=
  match vlsInfo with
  | [] => vlInfo
  | v :: rest => if String.eqb (Name v) "" then firstNamed rest v else v
  end.

(** The outer loop of [ListVols]: the loop variable [vlsInfo], which the
    function goes on to use, and the sums [total] and [free]. *)
Fixpoint sumVols (successVols : list (list VolInfo)) (vlsInfo : list VolInfo)
    (total free : Z) : list VolInfo * Z * Z :=
  match successVols with
  | [] => (vlsInfo, total, free)
  | vls :: rest =>
      if len vls <=? 1 then sumVols rest vls total free
      else
        let vlInfo := firstNamed vls VolInfo_zero in
        let free := add64 free (Free vlInfo) in
        let total := add64 total (Total vlInfo) in
        sumVols rest vls total free
  end.

(** [ListVols]: list volumes. *)
Definition ListVols (xl : XL Encoder Disk)
  : M (outcome (list VolInfo * option error)) :=
  let successVols := replicate (length (storageDisks xl)) [] in
  r ← listVolsFanOut (storageDisks xl) 0 successVols;
  match r with
  | Panicked why => mret (Panicked why)
  | Returned successVols =>
      let '(vlsInfo, total, free) := sumVols successVols [] 0 0 in
      let volsInfo :=
        (λ vlInfo, {| Name := Name vlInfo; Total := total; Free := free |})
          <$> vlsInfo in
      mret (Returned (volsInfo, None))
  end.

(** The fan-out of [getAllVolInfo]: a task writes the error of its disk
    or the volume information. *)
Fixpoint statVolFanOut (volume : string) (disks : list (option Disk))
    (index : nat) (volsInfo : list VolInfo) (errs : list (option error))
  : M (outcome (list VolInfo * list (option error))) :=
  match disks with
  | [] => mret (Returned (volsInfo, errs))
  | None :: _ => mret (Panicked "nil pointer dereference")
  | Some disk :: rest =>
      '(volInfo, err) ← io_call (EvDiskStatVol index volume)
                           (disk_StatVol disk volume);
      match err with
      | Some _ =>
          statVolFanOut volume rest (S index) volsInfo (<[index := err]> errs)
      | None =>
          statVolFanOut volume rest (S index) (<[index := volInfo]> volsInfo) errs
      end
  end.

(** [getAllVolInfo]: list bucket volume info from all disks. *)
Definition getAllVolInfo (xl : XL Encoder Disk) (volume : string)
  : M (outcome (list VolInfo * list (option error))) :=
  statVolFanOut volume (storageDisks xl) 0
                (replicate (length (storageDisks xl)) VolInfo_zero)
                (replicate (length (storageDisks xl)) None).

(** The first loop of [listAllVolInfo]: whether it returns
    [errVolumeNotFound] from within. *)
Fixpoint notFoundLoop (xl : XL Encoder Disk) (errs : list (option error))
    (notFoundCount : Z) : bool :=
  match errs with
  | [] => false
  | err :: rest =>
      if decide (err = Some errVolumeNotFound) then
        let notFoundCount := notFoundCount + 1 in
        if notFoundCount >? len (storageDisks xl) - readQuorum xl then true
        else notFoundLoop xl rest notFoundCount
      else notFoundLoop xl rest notFoundCount
  end.

(** The second loop of [listAllVolInfo]: the online disk count. *)
Fixpoint onlineCount (errs : list (option error)) (onlineDiskCount : Z) : Z :=
  match errs with
  | [] => onlineDiskCount
  | None :: rest => onlineCount rest (onlineDiskCount + 1)
  | Some _ :: rest => onlineCount rest onlineDiskCount
  end.

(** [listAllVolInfo]: the stat volume info of all disks, whether healing
    is necessary, and the error if any. *)
Definition listAllVolInfo (xl : XL Encoder Disk) (volume : string)
  : M (outcome (list VolInfo * bool * option error)) :=
  r ← getAllVolInfo xl volume;
  match r with
  | Panicked why => mret (Panicked why)
  | Returned (volsInfo, errs) =>
      if notFoundLoop xl errs 0
      then mret (Returned ([], false, Some errVolumeNotFound))
      else
        let onlineDiskCount := onlineCount errs 0 in
        if onlineDiskCount <? len (storageDisks xl) then
          if onlineDiskCount <? readQuorum xl
          then mret (Returned ([], false, Some errReadQuorum))
          else mret (Returned (volsInfo, true, None))
        else mret (Returned (volsInfo, false, None))
  end.

(** The disks on which the healing goroutine of [StatVol] makes the
    volume: those whose volume information has no name. *)
Fixpoint healTargets (volsInfo : list VolInfo) (index : nat) : list nat :=
  match volsInfo with
  | [] => []
  | volInfo :: rest =>
      if negb (String.eqb (Name volInfo) "") then healTargets rest (S index)
      else index :: healTargets rest (S index)
  end.

(** The loop of [StatVol] over the stat results: the loop variable
    [volInfo], which is the result of the function, and the sums. *)
Fixpoint sumUsage (volsInfo : list VolInfo) (volInfo : VolInfo)
    (total free : Z) : VolInfo * Z * Z :=
  match volsInfo with
  | [] => (volInfo, total, free)
  | v :: rest =>
      if String.eqb (Name v) "" then sumUsage rest v total free
      else
        let free := add64 free (Free v) in
        let total := add64 total (Total v) in
        sumUsage rest v total free
  end.

(** [StatVol]: get volume stat info.  The healing goroutine runs beside
    the rest of the function and after it; the function does not wait
    for it and reads nothing that it writes. *)
Definition StatVol (xl : XL Encoder Disk) (volume : string)
  : M (outcome (VolInfo * option error)) :=
  if negb (isValidVolname volume)
  then mret (Returned (VolInfo_zero, Some errInvalidArgument))
  else
    r ← listAllVolInfo xl volume;
    match r with
    | Panicked why => mret (Panicked why)
    | Returned (volsInfo, heal, err) =>
        match err with
        | Some e => mret (Returned (VolInfo_zero, Some e))
        | None =>
            _ ← (if heal : bool
                 then io_call (EvGoHeal (healTargets volsInfo 0)) (λ w, ((), w))
                 else mret ()) : M unit;
            let '(volInfo, total, free) := sumUsage volsInfo VolInfo_zero 0 0 in
            mret (Returned ({| Name := Name volInfo; Total := total; Free := free |},
                            None))
        end
    end.
End VolumeMethods.

End XLVolumes.

(** ** Erasure utilities *)

Module ErasureUtils.

(** [getDataBlocks]: fetches the data-block-only part of the input encoded
    blocks.  [enBlocks[:dataBlocks]] panics when [dataBlocks] is not within
    the slice.  [data[:curBlockSize]] is the first [curBlockSize] bytes of
    [data]; beyond [len(data)] Go panics or, within spare capacity, exposes
    bytes the code never wrote, and the embedding has the panic. *)
Definition getDataBlocks (enBlocks : list (option (list byte)))
    (dataBlocks curBlockSize : Z) : outcome (list byte) :=
  if (dataBlocks <? 0) || (len enBlocks <? dataBlocks)
  then Panicked "slice bounds out of range"
  else
    let data :=
      foldl (λ data block, data ++ default [] block) []
            (take (Z.to_nat dataBlocks) enBlocks) in
    if (curBlockSize <? 0) || (len data <? curBlockSize)
    then Panicked "slice bounds out of range"
    else Returned (take (Z.to_nat curBlockSize) data).

(** [checkBlockSize]: the first non-zero size, or 0 if all blocks are of
    size 0. *)
Fixpoint checkBlockSize (blocks : list (option (list byte))) : Z :=
  match blocks with
  | [] => 0
  | block :: rest =>
      if negb (len (default [] block) =? 0) then len (default [] block)
      else checkBlockSize rest
  end.

(** [getEncodedBlockLen]: calculate the block size based on input length
    and total number of data blocks, in [int64]. *)
Definition getEncodedBlockLen (inputLen dataBlocks : Z) : outcome Z :=
  if dataBlocks =? 0 then Panicked "integer divide by zero"
  else Returned (div64 (sub64 (add64 inputLen dataBlocks) 1) dataBlocks).

End ErasureUtils.

(** ** The erasure read path *)

Module ErasureRead.
Import ErasureUtils.

(** The structs [checkSumInfo] and [erasureInfo]. *)
Record checkSumInfo : Type := mkCheckSumInfo {
  Name : string;
  Algorithm : string;
  Hash : string
}.
Record erasureInfo : Type := mkErasureInfo {
  DataBlocks : Z;
  ParityBlocks : Z;
  BlockSize : Z;
  Distribution : list Z;
  Checksum : list checkSumInfo
}.

(** The zero value [checkSumInfo{}]. *)
Definition checkSumInfo_zero : checkSumInfo :=
  {| Name := ""; Algorithm := ""; Hash := "" |}.

(** The two passes of [isSuccessDecodeBlocks] and [getReadDisks] over a
    slice: count the non-nil entries from position [index] on, below and
    from [dataBlocks]. *)
Fixpoint countNonNil {A} (l : list (option A)) (index : nat) (dataBlocks : Z)
    (dataCount parityCount : Z) : Z * Z :=
  match l with
  | [] => (dataCount, parityCount)
  | None :: rest => countNonNil rest (S index) dataBlocks dataCount parityCount
  | Some _ :: rest =>
      if Z.of_nat index <? dataBlocks
      then countNonNil rest (S index) dataBlocks (dataCount + 1) parityCount
      else countNonNil rest (S index) dataBlocks dataCount (parityCount + 1)
  end.

(** The number of non-nil entries of a slice, and whether the entry at
    an index is there and not nil. *)
Definition nonNil {A} (l : list (option A)) : Z :=
  Z.of_nat (length (filter is_Some l)).
Definition present {A} (l : list (option A)) (i : nat) : Prop :=
  is_Some (mjoin (l !! i)).

(** The test of [isSuccessDecodeBlocks] on any slice of possibly-nil
    entries: all of the first [dataBlocks] are there, or at least
    [dataBlocks + 1] in total. *)
Definition decodable {A} (l : list (option A)) (dataBlocks : Z) : bool :=
  let '(dataCount, parityCount) := countNonNil l 0 dataBlocks 0 0 in
  (dataCount =? dataBlocks) || (dataCount + parityCount >=? dataBlocks + 1).

(** [isSuccessDecodeBlocks]: do we have all the blocks to be successfully
    decoded? *)
Definition isSuccessDecodeBlocks (enBlocks : list (option (list byte)))
    (dataBlocks : Z) : bool :=
  let '(successDataBlocksCount, successParityBlocksCount) :=
    countNonNil enBlocks 0 dataBlocks 0 0 in
  (successDataBlocksCount =? dataBlocks) ||
  (successDataBlocksCount + successParityBlocksCount >=? dataBlocks + 1).

(** [isSuccessDataBlocks]: do we have all the data blocks? *)
Definition isSuccessDataBlocks (enBlocks : list (option (list byte)))
    (dataBlocks : Z) : outcome bool :=
  if (dataBlocks <? 0) || (len enBlocks <? dataBlocks)
  then Panicked "slice bounds out of range"
  else
    let '(successDataBlocksCount, _) :=
      countNonNil (take (Z.to_nat dataBlocks) enBlocks) 0 dataBlocks 0 0 in
    Returned (successDataBlocksCount >=? dataBlocks).

(** Assignment [l[i] = x], with Go's bounds check. *)
Definition store {A} (l : list A) (i : Z) (x : A) : outcome (list A) :=
  if (i <? 0) || (len l <=? i) then Panicked "index out of range"
  else Returned (<[Z.to_nat i := x]> l).

(** [getOrderedDisks]: get ordered disks from the erasure distribution. *)
Fixpoint orderLoop {Disk} (distribution : list Z) (disks : list (option Disk))
    (blockCheckSums : list checkSumInfo)
    (orderedDisks : list (option Disk)) (orderedBlockCheckSums : list checkSumInfo)
  : outcome (list (option Disk) * list checkSumInfo) :=
  match disks with
  | [] => Returned (orderedDisks, orderedBlockCheckSums)
  | disk :: disks' =>
      match distribution, blockCheckSums with
      | blockIndex :: distribution', sum :: blockCheckSums' =>
          match store orderedDisks (blockIndex - 1) disk with
          | Panicked why => Panicked why
          | Returned orderedDisks =>
              match store orderedBlockCheckSums (blockIndex - 1) sum with
              | Panicked why => Panicked why
              | Returned orderedBlockCheckSums =>
                  orderLoop distribution' disks' blockCheckSums'
                            orderedDisks orderedBlockCheckSums
              end
          end
      | _, _ => Panicked "index out of range"
      end
  end.
Definition getOrderedDisks {Disk} (distribution : list Z)
    (disks : list (option Disk)) (blockCheckSums : list checkSumInfo)
  : outcome (list (option Disk) * list checkSumInfo) :=
  orderLoop distribution disks blockCheckSums
            (replicate (length disks) None)
            (replicate (length disks) checkSumInfo_zero).

(** The second loop of [getReadDisks], from position [i] over the rest
    [disks] of the ordered disks. *)
Fixpoint pickReadDisks {Disk} (disks : list (option Disk)) (i : nat)
    (dataBlocks dataDisks parityDisks : Z) (readDisks : list (option Disk))
  : list (option Disk) * nat * option error :=
  match disks with
  | [] => ([], 0%nat, Some errXLReadQuorum)
  | None :: rest =>
      pickReadDisks rest (S i) dataBlocks dataDisks parityDisks readDisks
  | Some d :: rest =>
      let '(dataDisks, parityDisks) :=
        if Z.of_nat i <? dataBlocks then (dataDisks + 1, parityDisks)
        else (dataDisks, parityDisks + 1) in
      let readDisks := <[i := Some d]> readDisks in
      if dataDisks =? dataBlocks then (readDisks, S i, None)
      else if dataDisks + parityDisks =? dataBlocks + 1 then (readDisks, S i, None)
      else pickReadDisks rest (S i) dataBlocks dataDisks parityDisks readDisks
  end.

(** [getReadDisks]: return the readable disks slice from which we can read
    in parallel.  Reading [orderedDisks[i]] for [i < index] panics when
    [index] is beyond the slice. *)
Definition getReadDisks {Disk} (orderedDisks : list (option Disk)) (index : nat)
    (dataBlocks : Z) : outcome (list (option Disk) * nat * option error) :=
  if (length orderedDisks <? index)%nat then Panicked "index out of range"
  else
    let readDisks := replicate (length orderedDisks) None in
    let '(dataDisks, parityDisks) :=
      countNonNil (take index orderedDisks) 0 dataBlocks 0 0 in
    if dataDisks =? dataBlocks then Returned ([], 0%nat, Some errUnexpected)
    else if dataDisks + parityDisks >=? dataBlocks + 1
    then Returned ([], 0%nat, Some errUnexpected)
    else Returned (pickReadDisks (drop index orderedDisks) index
                                 dataBlocks dataDisks parityDisks readDisks).

(** [PartObjectChecksum]: the checksum for the part name from the checksum
    slice. *)
Fixpoint findChecksum (sums : list checkSumInfo) (partName : string) : checkSumInfo :=
  match sums with
  | [] => checkSumInfo_zero
  | checksum :: rest =>
      if String.eqb (Name checksum) partName then checksum
      else findChecksum rest partName
  end.
Definition PartObjectChecksum (e : erasureInfo) (partName : string) : checkSumInfo :=
  findChecksum (Checksum e) partName.

(** What the read path takes from other files and packages. *)
Class ReadEnv (W Disk : Type) : Type := {
  hashSum : Disk → string → string → string → W → (list byte * option error) * W;
  hex_EncodeToString : list byte → string;
  copyN : Disk → string → string → Z → Z → W → (list byte * option error) * W;
  writeDataBlocks :
    list (option (list byte)) → Z → Z → Z → W → (Z * option error) * W;
  pickValidErasureInfo : list erasureInfo → erasureInfo;
  erasureInfo_IsValid : erasureInfo → bool;
  getBlockInfo : Z → Z → Z → Z * Z * Z
}.

(** Calls that leave the read path, with their arguments. *)
Inductive readEvent : Type :=
| EvHashSum (diskIndex : nat)
| EvCopyN (index : nat) (blockOffset curChunkSize : Z)
| EvReconstruct (shards : list (option (list byte)))
| EvVerify (shards : list (option (list byte)))
| EvWriteDataBlocks (enBlocks : list (option (list byte))) (outOffset outSize : Z).

(** The slices that one call of [erasureReadFile] shares between its
    blocks and its readers. *)
Record readState (Disk : Type) : Type := mkReadState {
  orderedDisks : list (option Disk);
  enBlocks : list (option (list byte));
  verified : list bool
}.
Global Arguments mkReadState {Disk}.
Global Arguments orderedDisks {Disk}.
Global Arguments enBlocks {Disk}.
Global Arguments verified {Disk}.

Definition set_orderedDisk {Disk} (st : readState Disk) (i : nat) (d : option Disk) :=
  {| orderedDisks := <[i := d]> (orderedDisks st);
     enBlocks := enBlocks st; verified := verified st |}.
Definition set_enBlock {Disk} (st : readState Disk) (i : nat) (b : option (list byte)) :=
  {| orderedDisks := orderedDisks st;
     enBlocks := <[i := b]> (enBlocks st); verified := verified st |}.
Definition set_verified {Disk} (st : readState Disk) (i : nat) (b : bool) :=
  {| orderedDisks := orderedDisks st;
     enBlocks := enBlocks st; verified := <[i := b]> (verified st) |}.
Definition set_enBlocks {Disk} (st : readState Disk) (bs : list (option (list byte))) :=
  {| orderedDisks := orderedDisks st; enBlocks := bs; verified := verified st |}.

(** What one run of [parallelRead] does to the slot [j] of the two
    slices: nothing, a block read, or the disk given up. *)
Definition slot_effect {Disk} (st st' : readState Disk) (j : nat)
    (attempted : Prop) : Prop :=
  (¬ attempted ∧ enBlocks st' !! j = enBlocks st !! j ∧
   orderedDisks st' !! j = orderedDisks st !! j) ∨
  (attempted ∧ present (enBlocks st') j ∧
   orderedDisks st' !! j = orderedDisks st !! j) ∨
  (attempted ∧ enBlocks st' !! j = enBlocks st !! j ∧
   orderedDisks st' !! j = Some None).

(** The state of the inner loop when the disks below [k] have been tried:
    below [k] a block is there exactly if its disk is still there, from
    [k] on no block has been read. *)
Definition read_inv {Disk} (st : readState Disk) (k N : nat) : Prop :=
  length (enBlocks st) = N ∧ length (orderedDisks st) = N ∧ (k ≤ N)%nat ∧
  (∀ j, (j < k)%nat → present (enBlocks st) j ↔ present (orderedDisks st) j) ∧
  (∀ j, (k ≤ j)%nat → ¬ present (enBlocks st) j).

(** How a block, or the loop that reads it, ends: it goes on with the
    state, or [erasureReadFile] returns the error. *)
Inductive blockExit (Disk : Type) : Type :=
| Continue (st : readState Disk)
| ReturnErr (err : error) (st : readState Disk)
| OutOfFuel.
Global Arguments Continue {Disk}.
Global Arguments ReturnErr {Disk}.
Global Arguments OutOfFuel {Disk}.

Section ReadPath.
Context {W Encoder Disk : Type} `{!Codec Encoder} `{!ReadEnv W Disk}.

Local Abbreviation M := (IO W readEvent).
Local Abbreviation MP := (IOP W readEvent).

(** [metaPartBlockChecksums]: get block checksums for a given part. *)
Fixpoint metaPartBlockChecksums (disks : list (option Disk))
    (eInfos : list erasureInfo) (partName : string)
  : outcome (list checkSumInfo) :=
  match disks with
  | [] => Returned []
  | _ :: disks' =>
      match eInfos with
      | [] => Panicked "index out of range"
      | eInfo :: eInfos' =>
          let sum := if erasureInfo_IsValid eInfo
                     then PartObjectChecksum eInfo partName
                     else checkSumInfo_zero in
          match metaPartBlockChecksums disks' eInfos' partName with
          | Panicked why => Panicked why
          | Returned sums => Returned (sum :: sums)
          end
      end
  end.

(** [isValidBlock]: calculates the checksum hash for the block and
    validates it. *)
Definition isValidBlock (diskIndex : nat) (disk : option Disk)
    (volume path : string) (blockCheckSum : checkSumInfo) : M bool :=
  match disk with
  | None => mret false
  | Some d =>
      '(hashBytes, err) ← io_call (EvHashSum diskIndex)
                             (hashSum d volume path (Algorithm blockCheckSum));
      match err with
      | Some _ => mret false
      | None => mret (String.eqb (hex_EncodeToString hashBytes) (Hash blockCheckSum))
      end
  end.

(** The closure [bitRotVerify] of [erasureReadFile]: the verdict for a
    disk is computed once and kept in [verified]. *)
Definition bitRotVerify (volume path : string)
    (orderedBlockCheckSums : list checkSumInfo)
    (diskIndex : nat) (st : readState Disk) : M (bool * readState Disk) :=
  if default false (verified st !! diskIndex) then mret (true, st)
  else
    isValid ← isValidBlock diskIndex (mjoin (orderedDisks st !! diskIndex)) volume path
                 (default checkSumInfo_zero (orderedBlockCheckSums !! diskIndex));
    mret (isValid, set_verified st diskIndex isValid).

(** [parallelRead]: reads chunks from the disks given in [readDisks].
    Every reader works on the slots of its own index, so the readers are
    run one after the other, in the order of the indices.  The buffer of
    a reader is what [copyN] wrote; its allocation is not part of the
    embedding. *)
Fixpoint parallelReadFrom (volume path : string)
    (orderedBlockCheckSums : list checkSumInfo)
    (readDisks : list (option Disk)) (index : nat)
    (blockOffset curChunkSize : Z) (st : readState Disk) : M (readState Disk) :=
  match readDisks with
  | [] => mret st
  | None :: rest =>
      parallelReadFrom volume path orderedBlockCheckSums rest (S index)
                       blockOffset curChunkSize st
  | Some disk :: rest =>
      '(ok, st) ← bitRotVerify volume path orderedBlockCheckSums index st;
      if negb ok then
        parallelReadFrom volume path orderedBlockCheckSums rest (S index)
                         blockOffset curChunkSize (set_orderedDisk st index None)
      else
        '(chunk, err) ← io_call (EvCopyN index blockOffset curChunkSize)
                           (copyN disk volume path blockOffset curChunkSize);
        match err with
        | Some _ =>
            parallelReadFrom volume path orderedBlockCheckSums rest (S index)
                             blockOffset curChunkSize (set_orderedDisk st index None)
        | None =>
            parallelReadFrom volume path orderedBlockCheckSums rest (S index)
                             blockOffset curChunkSize (set_enBlock st index (Some chunk))
        end
  end.
Definition parallelRead (volume path : string)
    (orderedBlockCheckSums : list checkSumInfo)
    (readDisks : list (option Disk))
    (blockOffset curChunkSize : Z) (st : readState Disk) : M (readState Disk) :=
  parallelReadFrom volume path orderedBlockCheckSums readDisks 0
                   blockOffset curChunkSize st.

(** [decodeData]: decode encoded blocks.  [Reconstruct] fills the nil
    entries of the slice it is given; the result is the slice afterwards
    and the error. *)
Definition decodeData (enBlocks : list (option (list byte)))
    (dataBlocks parityBlocks : Z)
  : M (list (option (list byte)) * option error) :=
  let '(rs, err) := reedsolomon_New dataBlocks parityBlocks in
  match err with
  | Some e => mret (enBlocks, Some e)
  | None =>
      '(enBlocks, err) ← io_call (EvReconstruct enBlocks)
                            (λ w, (Reconstruct rs enBlocks, w));
      match err with
      | Some e => mret (enBlocks, Some e)
      | None =>
          '(ok, err) ← io_call (EvVerify enBlocks) (λ w, (Verify rs enBlocks, w));
          match err with
          | Some e => mret (enBlocks, Some e)
          | None =>
              if negb ok then
                mret (enBlocks,
                      Some (errorNew
                        "Verification failed after reconstruction, data likely corrupted."))
              else mret (enBlocks, None)
          end
      end
  end.

(** The inner [for] loop of [erasureReadFile]: read from the next batch of
    disks until the blocks can be decoded.  Every turn moves [nextIndex]
    forward, [fuel] bounds the number of turns. *)
Fixpoint readLoop (fuel : nat) (volume path : string)
    (orderedBlockCheckSums : list checkSumInfo) (dataBlocks : Z)
    (blockOffset curChunkSize : Z) (nextIndex : nat) (st : readState Disk)
  : MP (blockExit Disk) :=
  match fuel with
  | O => mret OutOfFuel
  | S fuel' =>
      '(readDisks, nextIndex, err) ←
        iop_pure (getReadDisks (orderedDisks st) nextIndex dataBlocks);
      match err with
      | Some e => mret (ReturnErr e st)
      | None =>
          st ← iop_io (parallelRead volume path orderedBlockCheckSums readDisks
                                    blockOffset curChunkSize st);
          if isSuccessDecodeBlocks (enBlocks st) dataBlocks then mret (Continue st)
          else if (nextIndex =? length (orderedDisks st))%nat
          then mret (ReturnErr errXLReadQuorum st)
          else readLoop fuel' volume path orderedBlockCheckSums dataBlocks
                        blockOffset curChunkSize nextIndex st
      end
  end.

(** The end of a turn of the loop over the blocks, from "If we have all
    the data blocks no need to decode": decode if a data block is missing,
    then write.  The result is the number of bytes written for the block
    and the state, or the error that [erasureReadFile] returns. *)
Definition finishBlock (eInfo : erasureInfo) (startBlock bytesToSkip : Z)
    (length' : Z) (block bytesWritten blockSize : Z) (st : readState Disk)
  : MP (Z * blockExit Disk) :=
  allData ← iop_pure (isSuccessDataBlocks (enBlocks st) (DataBlocks eInfo));
  r ← (if negb allData then
         '(blocks, err) ← iop_io (decodeData (enBlocks st) (DataBlocks eInfo)
                                              (ParityBlocks eInfo));
         mret (set_enBlocks st blocks, err)
       else mret (st, None));
  let '(st, err) := r in
  match err with
  | Some e => mret (0, ReturnErr e st)
  | None =>
      let outOffset := if block =? startBlock then bytesToSkip else 0 in
      let outSize := blockSize in
      let outSize :=
        if sub64 length' bytesWritten <? blockSize
        then sub64 length' bytesWritten else outSize in
      '(n, err) ← iop_io (io_call (EvWriteDataBlocks (enBlocks st) outOffset outSize)
                            (writeDataBlocks (enBlocks st) (DataBlocks eInfo)
                                             outOffset outSize));
      match err with
      | Some e => mret (0, ReturnErr e st)
      | None => mret (n, Continue st)
      end
  end.

(** One turn of the loop over the blocks: read, decode if a data block is
    missing, write. *)
Definition readBlock (volume path : string)
    (orderedBlockCheckSums : list checkSumInfo) (eInfo : erasureInfo)
    (chunkSize startBlock endBlock bytesToSkip : Z)
    (length' totalLength : Z) (block bytesWritten : Z) (st : readState Disk)
  : MP (Z * blockExit Disk) :=
  let st := set_enBlocks st (replicate (length (orderedDisks st)) None) in
  '(curChunkSize, blockSize) ←
    (if block =? endBlock then
       if BlockSize eInfo =? 0 then iop_panic "integer divide by zero"
       else if negb (rem64 totalLength (BlockSize eInfo) =? 0) then
         curChunkSize ← iop_pure (getEncodedBlockLen
                                    (rem64 totalLength (BlockSize eInfo))
                                    (DataBlocks eInfo));
         mret (curChunkSize, rem64 totalLength (BlockSize eInfo))
       else mret (chunkSize, BlockSize eInfo)
     else mret (chunkSize, BlockSize eInfo));
  let blockOffset := mul64 block chunkSize in
  r ← readLoop (S (length (orderedDisks st))) volume path orderedBlockCheckSums
               (DataBlocks eInfo) blockOffset curChunkSize 0 st;
  match r with
  | OutOfFuel => mret (0, OutOfFuel)
  | ReturnErr e st => mret (0, ReturnErr e st)
  | Continue st =>
      finishBlock eInfo startBlock bytesToSkip length' block bytesWritten
                  blockSize st
  end.

(** The loop over the blocks. *)
Fixpoint blocksLoop (fuel : nat) (volume path : string)
    (orderedBlockCheckSums : list checkSumInfo) (eInfo : erasureInfo)
    (chunkSize startBlock endBlock bytesToSkip : Z)
    (length' totalLength : Z) (block bytesWritten : Z) (st : readState Disk)
  : MP (option (Z * option error)) :=
  if negb (bytesWritten <? length') then mret (Some (bytesWritten, None))
  else
    match fuel with
    | O => mret None
    | S fuel' =>
        '(n, r) ← readBlock volume path orderedBlockCheckSums eInfo chunkSize
                            startBlock endBlock bytesToSkip length' totalLength
                            block bytesWritten st;
        match r with
        | OutOfFuel => mret None
        | ReturnErr e _ => mret (Some (bytesWritten, Some e))
        | Continue st =>
            blocksLoop fuel' volume path orderedBlockCheckSums eInfo chunkSize
                       startBlock endBlock bytesToSkip length' totalLength
                       (add64 block 1) (add64 bytesWritten n) st
        end
    end.

(** [erasureReadFile]: read bytes from erasure coded files and write them
    to the given writer.  [fuel] bounds the number of blocks; the result
    is [None] when it runs out. *)
Definition erasureReadFile (fuel : nat) (disks : list (option Disk))
    (volume path partName : string) (eInfos : list erasureInfo)
    (offset length' totalLength : Z) : MP (option (Z * option error)) :=
  let eInfo := pickValidErasureInfo eInfos in
  blockCheckSums ← iop_pure (metaPartBlockChecksums disks eInfos partName);
  '(orderedDisks', orderedBlockCheckSums) ←
    iop_pure (getOrderedDisks (Distribution eInfo) disks blockCheckSums);
  let st := {| orderedDisks := orderedDisks';
               enBlocks := [];
               verified := replicate (length orderedDisks') false |} in
  chunkSize ← iop_pure (getEncodedBlockLen (BlockSize eInfo) (DataBlocks eInfo));
  let '(startBlock, endBlock, bytesToSkip) :=
    getBlockInfo offset totalLength (BlockSize eInfo) in
  blocksLoop fuel volume path orderedBlockCheckSums eInfo chunkSize
             startBlock endBlock bytesToSkip length' totalLength
             startBlock 0 st.
End ReadPath.

End ErasureRead.

(** ** The tree walker and its pool *)

Module TreeWalk.
Import Strings.

Definition slashSeparator : string := "/".

(** [listParams]: list object params used for the list object map. *)
Record listParams : Type := mkListParams {
  bucket : string;
  recursive : bool;
  marker : string;
  prefix : string
}.

Global Instance listParams_eq_dec : EqDecision listParams.
Proof. solve_decision. Defined.
Global Instance listParams_countable : Countable listParams.
Proof.
  apply (inj_countable'
           (λ p, (bucket p, recursive p, marker p, prefix p))
           (λ t, let '(b, r, m, x) := t in mkListParams b r m x)).
  by intros [].
Defined.

(** [treeWalkResult] carries results of tree walking. *)
Record treeWalkResult : Type := mkResult {
  entry : string;
  err : option error;
  end' : bool
}.

(** [treeWalker]: the channel of a walk and whether the walk timed out.
    Walkers are shared by reference: [loc] is the address of one. *)
Definition loc : Type := nat.
Record treeWalker : Type := mkWalker {
  ch : nat;
  timedOut : bool
}.

(** The map [listObjectMap] of the object layer, guarded by its mutex:
    the operations on it run one at a time. *)
Abbreviation listObjectMap := (gmap listParams (list loc)).

(** [saveTreeWalk]: save the walker reference in the map. *)
Definition saveTreeWalk (m : listObjectMap) (params : listParams) (walker : loc)
  : listObjectMap :=
  let walkers := default [] (m !! params) in
  let walkers := walkers ++ [walker] in
  <[params := walkers]> m.

(** The [range] loop of [lookupTreeWalk]: the first walker that has not
    timed out, and the walkers after it. *)
Fixpoint firstLive (heap : loc → treeWalker) (walkChs : list loc)
  : option (loc * list loc) :=
  match walkChs with
  | [] => None
  | walkCh :: rest =>
      if negb (timedOut (heap walkCh)) then Some (walkCh, rest)
      else firstLive heap rest
  end.

(** [lookupTreeWalk]: look the walker reference up in the map.  The
    result is the walker, or [None] for [nil], and the map afterwards. *)
Definition lookupTreeWalk (heap : loc → treeWalker) (m : listObjectMap)
    (params : listParams) : option loc * listObjectMap :=
  match m !! params with
  | Some walkChs =>
      match firstLive heap walkChs with
      | Some (walkCh, newWalkChs) =>
          if len newWalkChs >? 0
          then (Some walkCh, <[params := newWalkChs]> m)
          else (Some walkCh, delete params m)
      | None => (None, delete params m)
      end
  | None => (None, m)
  end.

(** [sort.Strings]: increasing order, which for strings determines the
    result. *)
Definition sort_Strings (l : list string) : list string :=
  merge_sort String.le l.

(** [sort.Search]: binary search for the smallest index in [0, n) at
    which [f] holds, [n] if there is none.  Every turn shrinks the
    interval, so [n] turns are enough. *)
Fixpoint searchLoop (fuel : nat) (f : nat → bool) (i j : nat) : nat :=
  match fuel with
  | O => i
  | S fuel' =>
      if (i <? j)%nat then
        let h := ((i + j) / 2)%nat in
        if negb (f h) then searchLoop fuel' f (h + 1) j
        else searchLoop fuel' f i h
      else i
  end.
Definition sort_Search (n : nat) (f : nat → bool) : nat := searchLoop n f 0 n.

(** What the walker takes from other files: the disks to list from, the
    listing of one disk, path joining, and the channel on which a send
    either is received or times out. *)
Class WalkEnv (W Disk : Type) : Type := {
  getLoadBalancedQuorumDisks : W → list (option Disk) * W;
  disk_ListDir : Disk → string → string → W → (list string * option error) * W;
  pathJoin : string → string → string;
  chan_send : treeWalkResult → W → bool * W
}.

(** Calls that leave the walker. *)
Inductive walkEvent : Type :=
| EvListDir (bucket prefixDir : string)
| EvIsLeaf (bucket path : string)
| EvSend (r : treeWalkResult).

(** The variables of one walk that [send] and [treeWalk] share: the
    counter [count], the results received on the channel so far, and the
    flag [timedOut] of the walker. *)
Record walkState : Type := mkWalkState {
  count : Z;
  published : list treeWalkResult;
  walkTimedOut : bool
}.

Definition add_count (ws : walkState) (d : Z) : walkState :=
  {| count := count ws + d; published := published ws;
     walkTimedOut := walkTimedOut ws |}.

(** How far a walk got: it returned [true] or [false], or the bound on
    the depth of the tree was reached. *)
Inductive walkExit : Type :=
| Walked (ok : bool)
| TooDeep.

(** The entries that a walk published: the results without error. *)
Definition pubEntries (results : list treeWalkResult) : list string :=
  entry <$> filter (λ r, err r = None) results.

(** What the walker expects of the listing of a directory on a disk, as
    a file system provides it: well-formed entries, no name twice (be it
    as a file or as a directory). *)
Definition listing_ok (entries : list string) : Prop :=
  Forall (λ e, wfEntry e = true) entries ∧
  NoDup ((λ e, TrimSuffix e slashSeparator) <$> entries).

(** What [listDir] makes of an entry: the empty string if it is filtered
    out, the entry without its slash if it is a leaf directory, or the
    entry. *)
Definition processed (e e' : string) : Prop :=
  e' = "" ∨ e' = e ∨ ∃ x, e = x +:+ slashSeparator ∧ e' = x.

Section Walker.
Context {W Disk : Type} `{!WalkEnv W Disk}.

Local Abbreviation M := (IO W walkEvent).

Variable isLeaf : string → string → W → bool * W.

(** The loop of [listDir] over the entries of a listing. *)
Fixpoint filterEntries (bucket prefixDir : string) (filter : string → bool)
    (entries : list string) : M (list string) :=
  match entries with
  | [] => mret []
  | entry :: rest =>
      if filter entry then
        rest' ← filterEntries bucket prefixDir filter rest;
        mret ("" :: rest')
      else
        entry' ←
          (if HasSuffix entry slashSeparator then
             leaf ← io_call (EvIsLeaf bucket (pathJoin prefixDir entry))
                            (isLeaf bucket (pathJoin prefixDir entry));
             mret (if leaf : bool then TrimSuffix entry slashSeparator else entry)
           else mret entry) : M string;
        rest' ← filterEntries bucket prefixDir filter rest;
        mret (entry' :: rest')
  end.

(** The loop that skips the empty strings at the front. *)
Fixpoint skipEmpty (entries : list string) : list string :=
  match entries with
  | entry :: rest => if String.eqb entry "" then skipEmpty rest else entries
  | [] => []
  end.

(** The loop of [listDir] over the disks: the first disk that is not nil
    decides. *)
Fixpoint listDirFrom (disks : list (option Disk)) (bucket prefixDir : string)
    (filter : string → bool) : M (list string * option error) :=
  match disks with
  | [] => mret ([], None)
  | None :: rest => listDirFrom rest bucket prefixDir filter
  | Some disk :: _ =>
      '(entries, err) ← io_call (EvListDir bucket prefixDir)
                           (disk_ListDir disk bucket prefixDir);
      match err with
      | Some e => mret ([], Some e)
      | None =>
          entries ← filterEntries bucket prefixDir filter entries;
          let entries := sort_Strings entries in
          mret (skipEmpty entries, None)
      end
  end.

(** [listDir]. *)
Definition listDir (bucket prefixDir : string) (filter : string → bool)
  : M (list string * option error) :=
  disks ← io_lift getLoadBalancedQuorumDisks;
  listDirFrom disks bucket prefixDir filter.

(** The closure [send] of [startTreeWalk]. *)
Definition send (walkResult : treeWalkResult) (ws : walkState)
  : M (bool * walkState) :=
  let walkResult :=
    if count ws =? 0
    then {| entry := entry walkResult; err := err walkResult; end' := true |}
    else walkResult in
  received ← io_call (EvSend walkResult) (chan_send walkResult);
  if received : bool then
    mret (true, {| count := count ws;
                   published := published ws ++ [walkResult];
                   walkTimedOut := walkTimedOut ws |})
  else
    mret (false, {| count := count ws;
                    published := published ws;
                    walkTimedOut := true |}).

(** The marker split of [treeWalk]: if marker is "four/five.txt" then
    markerDir is "four/" and markerBase is "five.txt". *)
Definition splitMarker (marker : string) : string * string :=
  if negb (String.eqb marker "") then
    let markerSplit := SplitN2 marker slashSeparator in
    let markerDir := default "" (markerSplit !! 0%nat) in
    if (length markerSplit =? 2)%nat
    then (markerDir +:+ slashSeparator, default "" (markerSplit !! 1%nat))
    else (markerDir, "")
  else ("", "").

(** The loop of [treeWalk] over the entries from the marker on; [i] is
    the index of [entry], [walkDir] is the recursive call of [treeWalk]
    with the directory and the marker to go on with. *)
Fixpoint walkEntries (walkDir : string → string → walkState → M (walkExit * walkState))
    (prefixDir markerDir markerBase : string) (recursive : bool)
    (entries : list string) (i : nat) (ws : walkState)
  : M (walkExit * walkState) :=
  match entries with
  | [] => mret (Walked true, ws)
  | entry :: rest =>
      if (i =? 0)%nat && String.eqb markerDir entry &&
         (negb recursive || (recursive && negb (HasSuffix entry slashSeparator)))
      then
        walkEntries walkDir prefixDir markerDir markerBase recursive
                    rest (S i) (add_count ws (-1))
      else if recursive && HasSuffix entry slashSeparator then
        let markerArg := if String.eqb entry markerDir then markerBase else "" in
        let ws := add_count ws (-1) in
        '(r, ws) ← walkDir (pathJoin prefixDir entry) markerArg ws;
        match r with
        | Walked true =>
            walkEntries walkDir prefixDir markerDir markerBase recursive
                        rest (S i) ws
        | Walked false => mret (Walked false, ws)
        | TooDeep => mret (TooDeep, ws)
        end
      else
        let ws := add_count ws (-1) in
        '(ok, ws) ← send {| entry := pathJoin prefixDir entry;
                            err := None; end' := false |} ws;
        if ok : bool then
          walkEntries walkDir prefixDir markerDir markerBase recursive
                      rest (S i) ws
        else mret (Walked false, ws)
  end.

(** [treeWalk] walks the directory tree recursively, pushing the entries
    into the channel as and when it encounters files.  [depth] bounds the
    nesting of the recursive calls; a walk that needs more ends with
    [TooDeep] and what it published until then. *)
Fixpoint treeWalk (depth : nat) (bucket prefixDir entryPrefixMatch marker : string)
    (recursive : bool) (ws : walkState) : M (walkExit * walkState) :=
  match depth with
  | O => mret (TooDeep, ws)
  | S depth' =>
      let '(markerDir, markerBase) := splitMarker marker in
      '(entries, err) ← listDir bucket prefixDir
                                (λ entry, negb (HasPrefix entry entryPrefixMatch));
      match err with
      | Some e =>
          '(_, ws) ← send {| entry := ""; err := Some e; end' := false |} ws;
          mret (Walked false, ws)
      | None =>
          if (length entries =? 0)%nat then mret (Walked true, ws)
          else
            let idx := sort_Search (length entries)
                         (λ i, String.leb markerDir (default "" (entries !! i))) in
            let entries := drop idx entries in
            let ws := add_count ws (len entries) in
            walkEntries (λ dir markerArg ws,
                           treeWalk depth' bucket dir "" markerArg recursive ws)
                        prefixDir markerDir markerBase recursive entries 0 ws
      end
  end.

(** [startTreeWalk], with the walk run to its end: the split of the
    prefix, the marker relative to the directory of the prefix, and the
    state of the walk when [treeWalk] returns. *)
Definition startTreeWalk (depth : nat) (bucket prefix marker : string)
    (recursive : bool) : M (walkExit * walkState) :=
  let lastIndex := LastIndex prefix slashSeparator in
  let '(entryPrefixMatch, prefixDir) :=
    if negb (lastIndex =? -1)
    then (dropStr (Z.to_nat (lastIndex + 1)) prefix,
          takeStr (Z.to_nat (lastIndex + 1)) prefix)
    else (prefix, "") in
  let marker := TrimPrefix marker prefixDir in
  treeWalk depth bucket prefixDir entryPrefixMatch marker recursive
           {| count := 0; published := []; walkTimedOut := false |}.
End Walker.

(** The listings of the disks are listings of a file system. *)
Definition listings_ok {W Disk : Type} `{!WalkEnv W Disk} : Prop :=
  ∀ (disk : Disk) (bucket prefixDir : string) (w w' : W) (entries : list string),
    disk_ListDir disk bucket prefixDir w = ((entries, None), w') →
    listing_ok entries.

(** On a directory prefix, [pathJoin] appends the entry. *)
Definition pathJoin_ok {W Disk : Type} `{!WalkEnv W Disk} : Prop :=
  ∀ d e, dirLike d → pathJoin d e = d +:+ e.

(** What a walk of the directory [prefixDir] from [marker] adds to the
    results published: entries in strictly increasing order, each of them
    under [prefixDir] and, relative to it, above the marker. *)
Definition walk_spec (prefixDir marker : string) (ws ws' : walkState) : Prop :=
  ∃ new, published ws' = published ws ++ new ∧
         StronglySorted lt (pubEntries new) ∧
         Forall (λ p, ∃ t, p = prefixDir +:+ t ∧ lt marker t) (pubEntries new).

(** The books of a walk, between the state [ws] in which it starts
    and the state [ws'] in which it ends with [exit]: the results it
    adds; the counter, which a walk that returns [true] leaves as it
    found it; the flag [timedOut], which is never taken back and which
    only a walk that returns [false] can have set; and the mark [end],
    which no result carries if the counter was positive at the start,
    and which only the last result can carry otherwise. *)
Definition walk_books (ws ws' : walkState) (exit : walkExit) : Prop :=
  ∃ new, published ws' = published ws ++ new ∧
         (exit = Walked true → count ws' = count ws) ∧
         (exit ≠ Walked false → walkTimedOut ws' = walkTimedOut ws) ∧
         (walkTimedOut ws = true → walkTimedOut ws' = true) ∧
         (0 < count ws → Forall (λ r, end' r = false) new) ∧
         Forall (λ r, end' r = false) (removelast new).

End TreeWalk.

(** ** Small concrete environments

    Stand-ins for the disks, the codec and the helpers, in the manner of
    the test doubles of the Go packages; the examples run the embedding
    on them. *)

Module Demo.

(** A bootstrap in which every disk is present and formatted. *)
Global Instance demoBootstrap : XLObjects.Bootstrap unit nat unit := {|
  XLObjects.newStorageAPI disk w := ((Some (String.length disk), None), w);
  XLObjects.loadAllFormats ds w :=
    ((replicate (length ds) (Some ()), replicate (length ds) None), w);
  XLObjects.genericFormatCheck _ _ := None;
  XLObjects.reduceFormatErrs _ _ := None;
  XLObjects.initMetaVolume _ w := (None, w);
  XLObjects.initFormatXL _ w := (None, w);
  XLObjects.healFormatXL _ w := (None, w);
  XLObjects.xlHouseKeeping _ w := (None, w);
  XLObjects.loadFormatXL ds w := ((ds, None), w);
  XLObjects.globalMaxCacheSize := 8 * 1024 * 1024 * 1024
|}.

(** A codec that accepts every shard count, fills missing shards with
    empty ones and verifies. *)
Global Instance demoCodec : Codec unit := {|
  reedsolomon_New _ _ := ((), None);
  Reconstruct _ shards := ((λ b, Some (default [] b)) <$> shards, None);
  Verify _ _ := (true, None)
|}.

(** A codec whose verification fails. *)
Definition corruptCodec : Codec unit := {|
  reedsolomon_New _ _ := ((), None);
  Reconstruct _ shards := ((λ b, Some (default [] b)) <$> shards, None);
  Verify _ _ := (false, None)
|}.

Definition sixDisks : list string := ["d1"; "d2"; "d3"; "d4"; "d5"; "d6"].

(** Disk statistics: "d1" does not answer, the other disks report their
    sizes; the sorter is the insertion sort. *)
Global Instance demoStats : XLObjects.DiskStats := {|
  XLObjects.GetInfo diskPath :=
    if String.eqb diskPath "d1" then (XLObjects.mkDiskInfo 0 0, Some errDiskNotFound)
    else if String.eqb diskPath "d3" then (XLObjects.mkDiskInfo 50 20, None)
    else (XLObjects.mkDiskInfo 100 40, None);
  XLObjects.sort_Sort := XLObjects.insertionSort
|}.

(** The object layer that [newXLObjects] builds over the six disks. *)
Definition demoObjects : XLObjects.xlObjects nat :=
  XLObjects.mkXLObjects sixDisks [Some 2; Some 2; Some 2; Some 2; Some 2; Some 2]%nat
                        3 3 4 4 true.

(** Six disks, named by their index.  The world is a counter that the
    random source reads and advances.  Disk 0 refuses to rename and to
    list; the other disks do what they are asked. *)
Global Instance demoStorage : XL.StorageAPI Z nat := {|
  XL.disk_ListDir d _ _ w :=
    if (d =? 0)%nat then (([], Some errDiskNotFound), w)
    else ((["photos/"; "readme.txt"], None), w);
  XL.disk_StatFile _ _ _ w := (Some (errExternal 2), w);
  XL.disk_DeleteFile _ _ _ w := (None, w);
  XL.disk_RenameFile d _ _ _ _ w :=
    if (d =? 0)%nat then (Some (errExternal 5), w) else (None, w)
|}.

Global Instance demoHelpers : XL.Helpers Z := {|
  XL.isValidVolname _ := true;
  XL.isValidPath _ := true;
  XL.path_Join a b := a +:+ "/" +:+ b;
  XL.retainSlash p := p +:+ "/";
  XL.sprintf_file index := "file." +:+ String (Ascii.ascii_of_nat (48 + index)) "";
  XL.rand_Intn n w := (w `mod` n, w + 1)
|}.

(** A read environment over the same disks: every file hashes to the
    empty digest, which is the recorded one; disks 0 and 2 fail to
    deliver their chunk, the others deliver one byte. *)
Global Instance demoReadEnv : ErasureRead.ReadEnv unit nat := {|
  ErasureRead.hashSum _ _ _ _ w := (([], None), w);
  ErasureRead.hex_EncodeToString _ := "";
  ErasureRead.copyN d _ _ _ _ w :=
    if (d =? 0)%nat || (d =? 2)%nat then (([], Some (errExternal 5)), w)
    else (([x2a], None), w);
  ErasureRead.writeDataBlocks _ _ _ outSize w := ((outSize, None), w);
  ErasureRead.pickValidErasureInfo eInfos :=
    default (ErasureRead.mkErasureInfo 0 0 0 [] []) (eInfos !! 0%nat);
  ErasureRead.erasureInfo_IsValid _ := true;
  ErasureRead.getBlockInfo _ _ _ := (0, 0, 0)
|}.

Definition demoErasureInfo : ErasureRead.erasureInfo :=
  ErasureRead.mkErasureInfo 3 3 10 [1; 2; 3; 4; 5; 6] [].

Definition sixStorageDisks : list (option nat) :=
  [Some 0; Some 1; Some 2; Some 3; Some 4; Some 5]%nat.

(** The state of a read over the six disks before the first block, and
    the blocks after the reads in which disks 0 and 2 failed. *)
Definition demoReadState : ErasureRead.readState nat :=
  ErasureRead.mkReadState sixStorageDisks (replicate 6 None) (replicate 6 false).
Definition demoBlocks : list (option (list byte)) :=
  [None; Some [x2a]; None; Some [x2a]; Some [x2a]; Some [x2a]].
Definition demoAfterRead : ErasureRead.readState nat :=
  ErasureRead.mkReadState
    [None; Some 1; None; Some 3; Some 4; Some 5]%nat demoBlocks
    [true; true; true; true; true; true].

(** A bucket with the objects "a.txt", "docs" (a leaf directory),
    "photos/2016/jan.jpg", "photos/cat.jpg" and "z.txt"; the first of the
    load-balanced disks is down; every send is received. *)
Global Instance demoWalkEnv : TreeWalk.WalkEnv unit unit := {|
  TreeWalk.getLoadBalancedQuorumDisks w := ([None; Some ()], w);
  TreeWalk.disk_ListDir _ _ prefixDir w :=
    if String.eqb prefixDir "" then
      ((["photos/"; "z.txt"; "docs/"; "a.txt"], None), w)
    else if String.eqb prefixDir "photos/" then
      ((["cat.jpg"; "2016/"], None), w)
    else if String.eqb prefixDir "photos/2016/" then
      ((["jan.jpg"], None), w)
    else (([], Some errVolumeNotFound), w);
  TreeWalk.pathJoin d e := d +:+ e;
  TreeWalk.chan_send _ w := (true, w)
|}.
Definition demoIsLeaf (bucket path : string) (w : unit) : bool * unit :=
  (String.eqb path "docs/", w).

(** The same bucket when none of the load-balanced disks is there. *)
Definition deadWalkEnv : TreeWalk.WalkEnv unit unit := {|
  TreeWalk.getLoadBalancedQuorumDisks w := ([None; None], w);
  TreeWalk.disk_ListDir _ _ _ w := (([], Some errDiskNotFound), w);
  TreeWalk.pathJoin d e := d +:+ e;
  TreeWalk.chan_send _ w := (true, w)
|}.

(** The layer that [newXL] builds over the six disks. *)
Definition demoXL : XL.XL unit nat :=
  {| XL.ReedSolomon := (); XL.DataBlocks := 3; XL.ParityBlocks := 3;
     XL.storageDisks := sixStorageDisks;
     XL.readQuorum := 4; XL.writeQuorum := 6 |}.

(** The volumes of the six disks: disk 0 has no volume and refuses to
    make one, disk 5 is not reachable, the others hold the volumes
    "bucket" and "photos". *)
Global Instance demoVolumes : XLVolumes.VolumeAPI Z nat := {|
  XLVolumes.disk_MakeVol d _ w :=
    if (d =? 0)%nat then (Some (errExternal 7), w) else (Some errVolumeExists, w);
  XLVolumes.disk_DeleteVol d _ w :=
    if (d =? 0)%nat then (Some errVolumeNotFound, w)
    else if (d =? 5)%nat then (Some errDiskNotFound, w)
    else (None, w);
  XLVolumes.disk_StatVol d volume w :=
    if (d =? 0)%nat then ((XLVolumes.VolInfo_zero, Some errVolumeNotFound), w)
    else if (d =? 5)%nat then ((XLVolumes.VolInfo_zero, Some errDiskNotFound), w)
    else ((XLVolumes.mkVolInfo volume 100 40, None), w);
  XLVolumes.disk_ListVols d w :=
    if (d =? 0)%nat then (([], None), w)
    else if (d =? 5)%nat then (([], Some errDiskNotFound), w)
    else (([XLVolumes.mkVolInfo "bucket" 100 40;
            XLVolumes.mkVolInfo "photos" 100 40], None), w)
|}.

(** Helpers that refuse the empty name and the empty path. *)
Definition strictHelpers : XL.Helpers Z := {|
  XL.isValidVolname v := negb (String.eqb v "");
  XL.isValidPath p := negb (String.eqb p "");
  XL.path_Join a b := a +:+ "/" +:+ b;
  XL.retainSlash p := p +:+ "/";
  XL.sprintf_file index := "file." +:+ String (Ascii.ascii_of_nat (48 + index)) "";
  XL.rand_Intn n w := (w `mod` n, w + 1)
|}.

(** The layer over the first five of the disks and a disk that is nil. *)
Definition demoXLNil : XL.XL unit nat :=
  {| XL.ReedSolomon := (); XL.DataBlocks := 3; XL.ParityBlocks := 3;
     XL.storageDisks := [Some 0; Some 1; Some 2; Some 3; Some 4; None]%nat;
     XL.readQuorum := 4; XL.writeQuorum := 6 |}.

End Demo.

(* ===================================================================== *)
(** * Part II: properties *)
(* ===================================================================== *)

(** Unfolding of the monad of world computations. *)
Ltac io_unfold :=
  unfold mbind, mret, io_mbind, io_mret, iop_mbind, iop_mret,
         iop_bind, iop_ret, iop_panic, iop_io, iop_pure,
         io_bind, io_ret, io_call, io_lift in *.

(** ** Facts about the arithmetic of the embedding *)

Lemma wrap64_id z : minInt64 ≤ z ≤ maxInt64 → wrap64 z = z.
Proof.
  unfold wrap64, minInt64, maxInt64. intros Hz.
  rewrite Z.mod_small; lia.
Qed.

Lemma wrap64_sub_l a b : wrap64 (wrap64 a - b) = wrap64 (a - b).
Proof.
  unfold wrap64. f_equal.
  replace ((a + 2 ^ 63) `mod` 2 ^ 64 - 2 ^ 63 - b + 2 ^ 63)
    with ((a + 2 ^ 63) `mod` 2 ^ 64 - b) by lia.
  rewrite Zminus_mod_idemp_l. f_equal. lia.
Qed.

Lemma len_nonneg {A} (l : list A) : 0 ≤ len l.
Proof. unfold len. lia. Qed.

Lemma len_app {A} (l k : list A) : len (l ++ k) = len l + len k.
Proof. unfold len. rewrite length_app. lia. Qed.

Lemma len_replicate {A} (n : nat) (x : A) : len (replicate n x) = Z.of_nat n.
Proof. unfold len. by rewrite length_replicate. Qed.

(** ** The object layer *)

Section XLObjectsFacts.
Import XLObjects.
Context {W Disk Format : Type} `{!Bootstrap W Disk Format}.

Lemma checkSufficientDisks_cases disks :
  checkSufficientDisks disks =
    if decide (16 < len disks) then Some errXLMaxDisks
    else if decide (len disks < 6) then Some errXLMinDisks
    else if Z.odd (len disks) then Some errXLNumDisks
    else None.
Proof.
  unfold checkSufficientDisks, maxErasureBlocks, minErasureBlocks, rem64.
  pose proof (len_nonneg disks) as Hn.
  destruct (Z.gtb_spec (len disks) 16); [by rewrite decide_True by lia|].
  rewrite decide_False by lia.
  destruct (Z.ltb_spec (len disks) 6); [by rewrite decide_True by lia|].
  rewrite decide_False by lia.
  rewrite Z.rem_mod_nonneg by lia.
  rewrite Zmod_odd. by destruct (Z.odd (len disks)).
Qed.

(** C7.  [checkSufficientDisks] returns [nil] exactly for an even number
    of disks between 6 and 16; more than 16 disks give [errXLMaxDisks],
    fewer than 6 give [errXLMinDisks], and an odd count within the range
    gives [errXLNumDisks] (the three values are distinct).  In
    [newXLObjects] the check comes first: when it fails the constructor
    returns that error, the world is untouched and no call to the disks
    is logged. *)
Theorem checkSufficientDisks_spec (disks : list string) :
  let n := len disks in
  (checkSufficientDisks disks = None ↔ Z.Even n ∧ 6 ≤ n ≤ 16) ∧
  (16 < n → checkSufficientDisks disks = Some errXLMaxDisks) ∧
  (n < 6 → checkSufficientDisks disks = Some errXLMinDisks) ∧
  (6 ≤ n ≤ 16 → Z.Odd n → checkSufficientDisks disks = Some errXLNumDisks) ∧
  (errXLMaxDisks ≠ errXLMinDisks ∧ errXLMaxDisks ≠ errXLNumDisks ∧
   errXLMinDisks ≠ errXLNumDisks) ∧
  (∀ e (w : W) log,
     checkSufficientDisks disks = Some e →
     newXLObjects disks (w, log) = ((None, Some e), (w, log))).
Proof.
  intros n. subst n. rewrite checkSufficientDisks_cases.
  rewrite <- Z.even_spec, <- Z.odd_spec, <- Z.negb_odd.
  repeat split; try done.
  - repeat case_decide; try done.
    by destruct (Z.odd (len disks)).
  - repeat case_decide; try done; lia.
  - repeat case_decide; try done; lia.
  - intros [He ?]. rewrite !decide_False by lia.
    by destruct (Z.odd (len disks)).
  - intros. by rewrite decide_True by lia.
  - intros. rewrite decide_False by lia. by rewrite decide_True by lia.
  - intros ? Ho. rewrite !decide_False by lia. by rewrite Ho.
  - intros e w log He. unfold newXLObjects.
    rewrite checkSufficientDisks_cases, He. done.
Qed.
End XLObjectsFacts.

Section StorageInfoFacts.
Import XLObjects.
Context `{!DiskStats} {Disk : Type}.

Lemma elem_of_gatherDisksInfo (paths : list string) (d : diskInfo) :
  d ∈ gatherDisksInfo paths ↔ ∃ p, p ∈ paths ∧ GetInfo p = (d, None).
Proof.
  induction paths as [|q paths IH]; simpl.
  - split; [by intros ?%elem_of_nil | by intros (? & ?%elem_of_nil & _)].
  - destruct (GetInfo q) as [info [e|]] eqn:Hq.
    + rewrite IH. split.
      * intros (p & Hp & Hg). exists p. split; [by right | done].
      * intros (p & [->|Hp]%elem_of_cons & Hg); [congruence | eauto].
    + rewrite elem_of_cons, IH. split.
      * intros [->|(p & Hp & Hg)]; [exists q | exists p]; split;
          first [by left | by right | done].
      * intros (p & [->|Hp]%elem_of_cons & Hg); [left; congruence | eauto].
Qed.

Lemma sorted_head_least (l : list diskInfo) (d0 : diskInfo) :
  StronglySorted (λ a b, byDiskTotal_Less b a = false) l →
  l !! 0%nat = Some d0 →
  ∀ d, d ∈ l → Total d0 ≤ Total d.
Proof.
  intros Hs Hl d Hd. destruct l as [|x l]; [done|].
  simpl in Hl. injection Hl as ->.
  apply StronglySorted_inv in Hs as [_ Hall].
  apply elem_of_cons in Hd as [->|Hd]; [lia|].
  rewrite Forall_forall in Hall. specialize (Hall d Hd).
  unfold byDiskTotal_Less in Hall. lia.
Qed.

(** C10.  [StorageInfo] returns only if [disk.GetInfo] succeeds for at
    least one physical disk.  Then the result is [Total] and [Free] of a
    reporting disk of least [Total], each multiplied (in [int64]) by the
    number of storage disks.  If [GetInfo] fails on every disk the slice
    of infos is empty and [disksInfo[0]] panics with an index out of
    range. *)
Theorem StorageInfo_spec (xl : xlObjects Disk) :
  sort_contract →
  let reporting := gatherDisksInfo (physicalDisks xl) in
  let N := len (storageDisks xl) in
  (∀ d, d ∈ reporting ↔ ∃ p, p ∈ physicalDisks xl ∧ GetInfo p = (d, None)) ∧
  ((∀ p, p ∈ physicalDisks xl → (GetInfo p).2 ≠ None) →
     reporting = [] ∧ StorageInfo xl = Panicked "index out of range") ∧
  ((∃ p, p ∈ physicalDisks xl ∧ (GetInfo p).2 = None) →
     ∃ d, d ∈ reporting ∧ (∀ d', d' ∈ reporting → Total d ≤ Total d') ∧
          StorageInfo xl =
            Returned {| siTotal := mul64 (Total d) N;
                        siFree := mul64 (Free d) N |}).
Proof.
  intros Hsort reporting N.
  destruct (Hsort reporting) as [Hperm Hsorted].
  split; [apply elem_of_gatherDisksInfo|]. split.
  - intros Hfail.
    assert (reporting = []) as Hnil.
    { destruct reporting as [|d l] eqn:Hr; [done|]. exfalso.
      assert (d ∈ reporting) as Hd by (rewrite Hr; left).
      apply elem_of_gatherDisksInfo in Hd as (p & Hp & Hg).
      apply (Hfail p Hp). by rewrite Hg. }
    split; [done|]. unfold StorageInfo. fold reporting.
    rewrite Hnil in Hperm |- *. apply Permutation_nil_r in Hperm.
    by rewrite Hperm.
  - intros (p & Hp & Hok).
    destruct (GetInfo p) as [d e] eqn:Hg. simpl in Hok. subst e.
    assert (d ∈ reporting) as Hd.
    { apply elem_of_gatherDisksInfo. eauto. }
    unfold StorageInfo. fold reporting.
    destruct (sort_Sort byDiskTotal_Less reporting !! 0%nat) as [d0|] eqn:H0.
    + exists d0. split; [|split; [|done]].
      * rewrite <- Hperm. by eapply list_elem_of_lookup_2.
      * intros d' Hd'. eapply sorted_head_least; [done..|].
        by rewrite Hperm.
    + exfalso. rewrite <- Hperm in Hd.
      destruct (sort_Sort byDiskTotal_Less reporting); [|done].
      by apply elem_of_nil in Hd.
Qed.
End StorageInfoFacts.

Lemma insertSorted_Permutation {A} (less : A → A → bool) (x : A) (l : list A) :
  XLObjects.insertSorted less x l ≡ₚ x :: l.
Proof.
  induction l as [|y l IH]; simpl; [done|].
  destruct (less x y); [done|]. rewrite IH. apply Permutation_swap.
Qed.

Lemma insertSorted_sorted (x : XLObjects.diskInfo) (l : list XLObjects.diskInfo) :
  StronglySorted (λ a b, XLObjects.byDiskTotal_Less b a = false) l →
  StronglySorted (λ a b, XLObjects.byDiskTotal_Less b a = false)
                 (XLObjects.insertSorted XLObjects.byDiskTotal_Less x l).
Proof.
  unfold XLObjects.byDiskTotal_Less.
  induction l as [|y l IH]; intros Hs; simpl.
  - by repeat constructor.
  - apply StronglySorted_inv in Hs as [Hs Hall].
    destruct (Z.ltb_spec (XLObjects.Total x) (XLObjects.Total y)) as [Hlt|Hge].
    + constructor; [by constructor|].
      constructor; [lia|].
      eapply Forall_impl; [done|]. simpl. intros z Hz. lia.
    + constructor; [by apply IH|].
      rewrite insertSorted_Permutation. constructor; [lia|done].
Qed.

Lemma insertionSort_contract : XLObjects.sort_contract (DiskStats0 := Demo.demoStats).
Proof.
  intros l. simpl. unfold XLObjects.insertionSort. split.
  - induction l as [|x l IH]; simpl; [done|].
    by rewrite insertSorted_Permutation, IH.
  - induction l as [|x l IH]; simpl; [constructor|].
    by apply insertSorted_sorted.
Qed.

Lemma StorageInfo_spec_witness :
  XLObjects.sort_contract (DiskStats0 := Demo.demoStats) ∧
  ∃ d, d ∈ XLObjects.gatherDisksInfo (XLObjects.physicalDisks Demo.demoObjects) ∧
       XLObjects.StorageInfo Demo.demoObjects =
         Returned {| XLObjects.siTotal := mul64 (XLObjects.Total d) 6;
                     XLObjects.siFree := mul64 (XLObjects.Free d) 6 |}.
Proof.
  split; [exact insertionSort_contract|].
  destruct (StorageInfo_spec Demo.demoObjects insertionSort_contract)
    as (_ & _ & Hsome).
  destruct Hsome as (d & Hd & _ & Hret).
  - exists "d2". split; [|done]. apply list_elem_of_In. simpl. tauto.
  - by exists d.
Defined.

Example StorageInfo_demo_run :
  XLObjects.StorageInfo Demo.demoObjects =
  Returned {| XLObjects.siTotal := 300; XLObjects.siFree := 120 |}.
Proof. reflexivity. Qed.

(** ** Quorums of the two constructors *)

Section QuorumFacts.
Context {W Disk Format Encoder : Type}.
Context `{!XLObjects.Bootstrap W Disk Format} `{!Codec Encoder}.

Lemma newXL_inv (disks : list (option Disk)) (xl : XL.XL Encoder Disk) :
  XL.newXL disks = (Some xl, None) →
  XL.storageDisks xl = disks ∧
  XL.DataBlocks xl = Z.quot (len disks) 2 ∧
  XL.ParityBlocks xl = Z.quot (len disks) 2 ∧
  XL.readQuorum xl = Z.quot (len disks) 2 + 1 ∧
  XL.writeQuorum xl =
    (if Z.quot (len disks) 2 + 3 >? len disks then len disks
     else Z.quot (len disks) 2 + 3).
Proof.
  unfold XL.newXL.
  destruct (reedsolomon_New _ _) as [rs [e|]]; [done|].
  intros [= <-]. done.
Qed.

Lemma newXLObjects_inv (disks : list string) (s s' : W * list XLObjects.bootEvent)
    (xl : XLObjects.xlObjects Disk) (e : option error) :
  XLObjects.newXLObjects disks s = ((Some xl, e), s') →
  XLObjects.readQuorum xl = Z.quot (len (XLObjects.storageDisks xl)) 2 + 1 ∧
  XLObjects.writeQuorum xl = Z.quot (len (XLObjects.storageDisks xl)) 2 + 1 ∧
  XLObjects.dataBlocks xl = Z.quot (len (XLObjects.storageDisks xl)) 2 ∧
  XLObjects.parityBlocks xl = Z.quot (len (XLObjects.storageDisks xl)) 2.
Proof.
  unfold XLObjects.newXLObjects.
  destruct (XLObjects.checkSufficientDisks disks); [done|].
  unfold mbind, io_mbind, io_bind, mret, io_mret, io_ret.
  repeat (first
    [ progress simplify_eq/=
    | match goal with
      | |- context [let '(_, _) := ?m in _] => destruct m as [[??] ?] eqn:?
      | |- context [let '(_, _) := ?m in _] => destruct m as [? ?] eqn:?
      | |- context [match ?x with Some _ => _ | None => _ end] => destruct x eqn:?
      | |- context [match ?x with (_, _) => _ end] => destruct x eqn:?
      end ]); try done.
  intros ?; simplify_eq/=. done.
Qed.

(** C4 (as amended).  Over [N] storage disks, [N] even and between 6 and
    16, the object layer built by [newXLObjects] has read quorum and write
    quorum [N/2 + 1]; the storage layer built by [newXL] has read quorum
    [N/2 + 1] and write quorum [N/2 + 3], capped at [N]. *)
Theorem constructors_quorums (N : Z) :
  Z.Even N → 6 ≤ N ≤ 16 →
  (∀ disks s s' (xl : XLObjects.xlObjects Disk),
     XLObjects.newXLObjects disks s = ((Some xl, None), s') →
     len (XLObjects.storageDisks xl) = N →
     XLObjects.readQuorum xl = N `div` 2 + 1 ∧
     XLObjects.writeQuorum xl = N `div` 2 + 1) ∧
  (∀ (disks : list (option Disk)) (xl : XL.XL Encoder Disk),
     len disks = N →
     XL.newXL disks = (Some xl, None) →
     len (XL.storageDisks xl) = N ∧
     XL.readQuorum xl = N `div` 2 + 1 ∧
     XL.writeQuorum xl = Z.min (N `div` 2 + 3) N).
Proof.
  intros _ HN. split.
  - intros disks s s' xl Hnew Hlen.
    apply newXLObjects_inv in Hnew as (-> & -> & _).
    rewrite Hlen, Z.quot_div_nonneg by lia. done.
  - intros disks xl Hlen Hnew.
    apply newXL_inv in Hnew as (-> & _ & _ & -> & ->).
    rewrite Hlen, Z.quot_div_nonneg by lia.
    split; [done|]. split; [done|].
    destruct (Z.gtb_spec (N `div` 2 + 3) N); lia.
Qed.
End QuorumFacts.

(** C4, as first stated, does not hold for [newXL]: over six disks its
    write quorum is 6, not [6/2 + 1 = 4]. *)
Lemma newXL_writeQuorum_counterexample :
  ¬ (∀ (disks : list (option nat)) (xl : XL.XL unit nat),
       Z.Even (len disks) → 6 ≤ len disks ≤ 16 →
       XL.newXL disks = (Some xl, None) →
       XL.readQuorum xl = len disks `div` 2 + 1 ∧
       XL.writeQuorum xl = len disks `div` 2 + 1).
Proof.
  intros Hclaim.
  destruct (Hclaim (replicate 6 (Some 0%nat))
              {| XL.ReedSolomon := (); XL.DataBlocks := 3; XL.ParityBlocks := 3;
                 XL.storageDisks := replicate 6 (Some 0%nat);
                 XL.readQuorum := 4; XL.writeQuorum := 6 |})
    as [_ Hwq]; [by exists 3 | done | done | done].
Qed.

Lemma constructors_quorums_witness :
  Z.Even 6 ∧ 6 ≤ 6 ≤ 16 ∧
  (∃ xl s', XLObjects.newXLObjects Demo.sixDisks ((), []) = ((Some xl, None), s') ∧
            len (XLObjects.storageDisks xl) = 6 ∧
            XLObjects.readQuorum xl = 4 ∧ XLObjects.writeQuorum xl = 4) ∧
  (∃ xl : XL.XL unit nat,
     XL.newXL (replicate 6 (Some 0%nat)) = (Some xl, None) ∧
     XL.readQuorum xl = 4 ∧ XL.writeQuorum xl = 6).
Proof.
  assert (Z.Even 6) as He by (by exists 3).
  assert (6 ≤ 6 ≤ 16) as Hr by lia.
  pose proof (constructors_quorums (W := unit) (Disk := nat) (Format := unit)
                (Encoder := unit) 6 He Hr) as [Hobj Hxl].
  split; [done|]. split; [done|]. split.
  - eexists _, _. split; [reflexivity|]. split; [reflexivity|].
    eapply (Hobj Demo.sixDisks ((), [])); reflexivity.
  - eexists. split; [reflexivity|].
    eapply (Hxl (replicate 6 (Some 0%nat))); reflexivity.
Defined.

(** ** Erasure utilities *)

Section ErasureUtilsFacts.
Import ErasureUtils.

Lemma foldl_append_blocks (l : list (option (list byte))) (acc : list byte) :
  foldl (λ data block, data ++ default [] block) acc l =
  acc ++ mjoin (default [] <$> l).
Proof.
  revert acc. induction l as [|b l IH]; intros acc; simpl.
  - by rewrite app_nil_r.
  - rewrite IH. by rewrite <- app_assoc.
Qed.

Lemma getEncodedBlockLen_ceil (L D : Z) :
  1 ≤ D → 0 ≤ L → L + D - 1 ≤ maxInt64 →
  ∃ r, getEncodedBlockLen L D = Returned r ∧
       r = (L + D - 1) `div` D ∧ (r - 1) * D < L ≤ r * D.
Proof.
  intros HD HL Hfit. unfold getEncodedBlockLen, div64, sub64, add64.
  assert ((D =? 0) = false) as -> by lia.
  unfold maxInt64 in Hfit.
  assert (2 ^ 63 = 9223372036854775808) as H63 by reflexivity.
  rewrite wrap64_sub_l.
  rewrite (wrap64_id (L + D - 1)) by (unfold minInt64, maxInt64; lia).
  rewrite Z.quot_div_nonneg by lia.
  pose proof (Z.div_mod (L + D - 1) D ltac:(lia)) as Hdm.
  pose proof (Z.mod_pos_bound (L + D - 1) D ltac:(lia)) as Hm.
  assert (0 ≤ (L + D - 1) `div` D) as Hq0 by (apply Z.div_pos; lia).
  assert ((L + D - 1) `div` D ≤ L + D - 1) as Hq1.
  { apply Z.div_le_upper_bound; nia. }
  rewrite wrap64_id by (unfold minInt64, maxInt64; lia).
  eexists. split; [done|]. split; [done|]. nia.
Qed.

(** C5.  For a block of [L ≤ B] bytes and [D ≥ 1] data shards (with
    [B + D - 1] within [int64]), [getEncodedBlockLen L D] is the ceiling of
    [L / D]: the least [r] with [L ≤ r * D].  For a shard vector of which
    the first [D] entries concatenate to at least [L] bytes,
    [getDataBlocks] returns the first [L] bytes of that concatenation; if
    the concatenation is a block of [L] bytes followed by padding, the
    result is the block. *)
Theorem block_length_and_padding (L D B : Z) :
  1 ≤ D → 0 ≤ L ≤ B → B + D - 1 ≤ maxInt64 →
  (∃ r, getEncodedBlockLen L D = Returned r ∧
        (r - 1) * D < L ≤ r * D) ∧
  (∀ enBlocks : list (option (list byte)),
     D ≤ len enBlocks →
     let data := mjoin (default [] <$> take (Z.to_nat D) enBlocks) in
     L ≤ len data →
     getDataBlocks enBlocks D L = Returned (take (Z.to_nat L) data) ∧
     (∀ block padding,
        data = block ++ padding → len block = L →
        getDataBlocks enBlocks D L = Returned block)).
Proof.
  intros HD HL HB. split.
  - destruct (getEncodedBlockLen_ceil L D) as (r & Hr & _ & Hceil); [lia..|].
    by exists r.
  - intros enBlocks Hlen data Hdata.
    assert (getDataBlocks enBlocks D L = Returned (take (Z.to_nat L) data)) as Hget.
    { unfold getDataBlocks.
      assert ((D <? 0) || (len enBlocks <? D) = false) as ->.
      { apply orb_false_iff. split; lia. }
      rewrite foldl_append_blocks. simpl. fold data.
      assert ((L <? 0) || (len data <? L) = false) as ->.
      { apply orb_false_iff. split; lia. }
      done. }
    split; [done|].
    intros block padding Hsplit HLb. rewrite Hget, Hsplit. f_equal.
    rewrite take_app_le by (unfold len in HLb; lia).
    apply take_ge. unfold len in HLb. lia.
Qed.
End ErasureUtilsFacts.

Lemma block_length_and_padding_witness :
  1 ≤ 3 ∧ 0 ≤ 10 ≤ 10485760 ∧ 10485760 + 3 - 1 ≤ maxInt64 ∧
  ErasureUtils.getEncodedBlockLen 10 3 = Returned 4 ∧
  ErasureUtils.getDataBlocks
    [Some [x01; x02; x03; x04]; Some [x05; x06; x07; x08];
     Some [x09; x0a; x00; x00]; None; None; None] 3 10 =
  Returned [x01; x02; x03; x04; x05; x06; x07; x08; x09; x0a].
Proof.
  assert (1 ≤ 3) as HD by lia.
  assert (0 ≤ 10 ≤ 10485760) as HL by lia.
  assert (10485760 + 3 - 1 ≤ maxInt64) as HB by (unfold maxInt64; lia).
  pose proof (block_length_and_padding 10 3 10485760 HD HL HB) as [_ Hdata].
  split; [done|]. split; [done|]. split; [done|]. split; [reflexivity|].
  refine (proj2 (Hdata _ _ _) _ [x00; x00] _ _); try done.
Defined.

(** ** The erasure storage layer *)

Section ListDirFacts.
Import XL.
Context {W Encoder Disk : Type} `{!StorageAPI W Disk} `{!Helpers W}.

Lemma trimLeafEntries_log (disk : Disk) (volume dirPath : string)
    (entries : list string) (s : W * list xlEvent) :
  ∃ new, io_log (trimLeafEntries disk volume dirPath entries s) = s.2 ++ new ∧
         Forall (λ ev, listed_index ev = None) new.
Proof.
  revert s. induction entries as [|entry rest IH]; intros [w log].
  - exists []. by rewrite app_nil_r.
  - simpl. unfold isLeafDirectoryXL. io_unfold.
    destruct (disk_StatFile _ _ _ w) as [e w'].
    destruct (IH (w', log ++ [EvDiskStatFile volume
                                (path_Join (path_Join dirPath entry) xlMetaV1File)]))
      as (new & Hlog & Hnew).
    destruct (trimLeafEntries _ _ _ rest _) as [rest' s'].
    unfold io_log in *. simpl in *. rewrite Hlog.
    eexists (_ :: new). rewrite <- app_assoc. split; [done|].
    by constructor.
Qed.

Lemma listDirLoop_log (xl : XL Encoder Disk) (volume dirPath : string)
    (attempts : nat) (err : option error) (s : W * list xlEvent) :
  (∀ n w, 0 < n → 0 ≤ (rand_Intn n w).1 < n) →
  ∃ new, io_log (listDirLoop xl volume dirPath attempts err s) = s.2 ++ new ∧
         Forall (λ ev, ∀ i, listed_index ev = Some i →
                            0 ≤ i ≤ len (storageDisks xl) - 2) new.
Proof.
  intros Hrand. revert err s.
  induction attempts as [|attempts IH]; intros err [w log]; simpl.
  - exists []. by rewrite app_nil_r.
  - destruct (Z.leb_spec (len (storageDisks xl) - 1) 0) as [Hn|Hn].
    { exists []. by rewrite app_nil_r. }
    io_unfold.
    pose proof (Hrand (len (storageDisks xl) - 1) w Hn) as Hr.
    destruct (rand_Intn _ w) as [randIndex w1]. simpl in Hr.
    assert ((randIndex <? 0) = false) as -> by lia.
    destruct (storageDisks xl !! Z.to_nat randIndex) as [[disk|]|];
      try (exists []; by rewrite app_nil_r).
    destruct (disk_ListDir disk volume dirPath w1) as [[entries [e|]] w2].
    + destruct (IH (Some e) (w2, log ++ [EvDiskListDir randIndex volume dirPath]))
        as (new & Hlog & Hnew).
      rewrite Hlog. simpl. exists (EvDiskListDir randIndex volume dirPath :: new).
      rewrite <- app_assoc. split; [done|].
      constructor; [|done]. intros i [= <-]. lia.
    + destruct (trimLeafEntries_log disk volume dirPath entries
                  (w2, log ++ [EvDiskListDir randIndex volume dirPath]))
        as (new & Hlog & Hnew).
      destruct (trimLeafEntries _ _ _ _ _) as [entries' s'].
      unfold io_log in *. simpl in *. rewrite Hlog.
      exists (EvDiskListDir randIndex volume dirPath :: new).
      rewrite <- app_assoc. split; [done|].
      constructor.
      * intros i [= <-]. lia.
      * eapply Forall_impl; [done|]. intros ev -> i. done.
Qed.

(** C9.  Whatever the random source draws (within the contract of
    [rand.Intn]), every disk that [ListDir] lists from has an index
    between [0] and [N - 2]: the disk at index [N - 1] is never chosen. *)
Theorem ListDir_never_last_disk (xl : XL Encoder Disk) (volume dirPath : string)
    (w : W) (log : list xlEvent) :
  (∀ n w, 0 < n → 0 ≤ (rand_Intn n w).1 < n) →
  ∃ new, io_log (ListDir xl volume dirPath (w, log)) = log ++ new ∧
         ∀ i v d, EvDiskListDir i v d ∈ new →
                  0 ≤ i ≤ len (storageDisks xl) - 2 ∧
                  i ≠ len (storageDisks xl) - 1.
Proof.
  intros Hrand. unfold ListDir.
  destruct (negb (isValidVolname volume)).
  { exists []. split; [by rewrite app_nil_r|]. by intros ??? ?%elem_of_nil. }
  destruct (listDirLoop_log xl volume dirPath (length (storageDisks xl)) None
              (w, log) Hrand) as (new & Hlog & Hnew).
  exists new. split; [done|].
  intros i v d Hin. rewrite Forall_forall in Hnew.
  specialize (Hnew _ Hin i eq_refl). lia.
Qed.
End ListDirFacts.

Lemma ListDir_never_last_disk_witness :
  (∀ n w, 0 < n → 0 ≤ (XL.rand_Intn n w).1 < n) ∧
  ∃ new, io_log (XL.ListDir Demo.demoXL "bucket" "dir" (5, [])) = [] ++ new ∧
         ∀ i v d, XL.EvDiskListDir i v d ∈ new →
                  0 ≤ i ≤ len (XL.storageDisks Demo.demoXL) - 2 ∧
                  i ≠ len (XL.storageDisks Demo.demoXL) - 1.
Proof.
  assert (∀ n w, 0 < n → 0 ≤ (XL.rand_Intn n w).1 < n) as Hrand.
  { intros n w Hn. simpl. by apply Z.mod_pos_bound. }
  split; [done|].
  exact (ListDir_never_last_disk Demo.demoXL "bucket" "dir" 5 [] Hrand).
Defined.

Example ListDir_demo_run :
  XL.ListDir Demo.demoXL "bucket" "dir" (5, []) =
  (Returned (["photos/"; "readme.txt"], None),
   (7, [XL.EvDiskListDir 0 "bucket" "dir";
        XL.EvDiskListDir 1 "bucket" "dir";
        XL.EvDiskStatFile "bucket" "dir/photos//file.json";
        XL.EvDiskStatFile "bucket" "dir/readme.txt/file.json"])).
Proof. reflexivity. Qed.

(** ** Rename under quorum *)

Section RenameFacts.
Import XL.
Context {W Encoder Disk : Type} `{!StorageAPI W Disk} `{!Helpers W}.

Lemma deleteLoop_log (xl : XL Encoder Disk) (volume path : string)
    (disks : list (option Disk)) (index : nat) (errCount : Z)
    (s : W * list xlEvent) :
  ∃ new, io_log (deleteLoop xl volume path disks index errCount s) = s.2 ++ new ∧
         Forall (is_delete_on volume) new.
Proof.
  revert index errCount s.
  induction disks as [|[disk|] rest IH]; intros index errCount [w log]; simpl;
    try (exists []; by rewrite app_nil_r).
  io_unfold.
  destruct (disk_DeleteFile disk volume _ w) as [[e|] w1].
  - destruct (errCount + 1 <=? _).
    + destruct (IH (S index) (errCount + 1) (w1, log ++ [EvDiskDeleteFile index volume
                  (path_Join path (sprintf_file index))])) as (new & Hlog & Hnew).
      rewrite Hlog. simpl. eexists (_ :: new). rewrite <- app_assoc.
      split; [done|]. by constructor.
    + eexists [_]. split; [done|]. by constructor.
  - destruct (disk_DeleteFile disk volume _ w1) as [[e|] w2].
    + destruct (errCount + 1 <=? _).
      * destruct (IH (S index) (errCount + 1)
                    (w2, (log ++ [EvDiskDeleteFile index volume
                                    (path_Join path (sprintf_file index))]) ++
                         [EvDiskDeleteFile index volume (path_Join path "file.json")]))
          as (new & Hlog & Hnew).
        rewrite Hlog. simpl. eexists (_ :: _ :: new). rewrite <- !app_assoc.
        split; [done|]. by repeat constructor.
      * eexists [_; _]. rewrite <- app_assoc. split; [done|].
        by repeat constructor.
    + destruct (IH (S index) errCount
                  (w2, (log ++ [EvDiskDeleteFile index volume
                                  (path_Join path (sprintf_file index))]) ++
                       [EvDiskDeleteFile index volume (path_Join path "file.json")]))
        as (new & Hlog & Hnew).
      rewrite Hlog. simpl. eexists (_ :: _ :: new). rewrite <- !app_assoc.
      split; [done|]. by repeat constructor.
Qed.

Lemma deleteLoop_no_panic (xl : XL Encoder Disk) (volume path : string)
    (disks : list (option Disk)) (index : nat) (errCount : Z)
    (s : W * list xlEvent) :
  Forall is_Some disks →
  ∃ r, io_val (deleteLoop xl volume path disks index errCount s) = Returned r.
Proof.
  intros Hall. revert index errCount s.
  induction Hall as [|d rest [disk ->] _ IH]; intros index errCount [w log]; simpl.
  - by eexists.
  - io_unfold.
    destruct (disk_DeleteFile disk volume _ w) as [[e|] w1].
    + destruct (errCount + 1 <=? _); [apply IH | by eexists].
    + destruct (disk_DeleteFile disk volume _ w1) as [[e|] w2].
      * destruct (errCount + 1 <=? _); [apply IH | by eexists].
      * apply IH.
Qed.

(** C3 (as amended).  [RenameFile] with valid names is the fan-out over
    the disks followed by the verdict on the gathered slice of errors.
    With [errCount] the number of non-nil entries of that slice: if
    [errCount] is within [N - writeQuorum], or above it but within
    [N - readQuorum], the verdict is [nil] and nothing is cleaned up; if
    [errCount] is above both, [deleteXLFiles] runs on the destination, its
    own errors are ignored, every call it makes is a delete on the
    destination volume, and the verdict is [errWriteQuorum]. *)
Theorem RenameFile_verdict (xl : XL Encoder Disk) (errs : list (option error))
    (dstVolume dstPath : string) (s : W * list xlEvent) :
  Forall is_Some (storageDisks xl) →
  let N := len (storageDisks xl) in
  let errCount := countErrs errs in
  (∀ srcVolume srcPath s0,
     isValidVolname srcVolume = true → isValidPath srcPath = true →
     isValidVolname dstVolume = true → isValidPath dstPath = true →
     RenameFile xl srcVolume srcPath dstVolume dstPath s0 =
       match renameFanOut srcVolume srcPath dstVolume dstPath (storageDisks xl) 0
                          (replicate (length (storageDisks xl)) None) s0 with
       | (Returned errs', s1) => renameVerdict xl errs' dstVolume dstPath s1
       | (Panicked why, s1) => (Panicked why, s1)
       end) ∧
  (errCount ≤ N - writeQuorum xl ∨ errCount ≤ N - readQuorum xl →
     renameVerdict xl errs dstVolume dstPath s = (Returned None, s)) ∧
  (errCount > N - writeQuorum xl ∧ errCount > N - readQuorum xl →
     ∃ r s' new,
       deleteXLFiles xl dstVolume dstPath s = (Returned r, s') ∧
       s'.2 = s.2 ++ new ∧ Forall (is_delete_on dstVolume) new ∧
       renameVerdict xl errs dstVolume dstPath s =
         (Returned (Some errWriteQuorum), s')).
Proof.
  intros Hdisks N errCount. split; [|split].
  - intros srcVolume srcPath s0 Hv1 Hp1 Hv2 Hp2. unfold RenameFile.
    rewrite Hv1, Hp1, Hv2, Hp2. simpl. io_unfold.
    by destruct (renameFanOut _ _ _ _ _ _ _ s0) as [[errs'|why] s1].
  - intros Hwithin. unfold renameVerdict. fold errCount N.
    destruct (Z.gtb_spec errCount (N - writeQuorum xl)); [|done].
    destruct (Z.leb_spec errCount (N - readQuorum xl)); [done|lia].
  - intros [Hw Hr]. unfold renameVerdict. fold errCount N.
    destruct (Z.gtb_spec errCount (N - writeQuorum xl)); [|lia].
    destruct (Z.leb_spec errCount (N - readQuorum xl)); [lia|].
    io_unfold. unfold deleteXLFiles.
    destruct (deleteLoop_no_panic xl dstVolume dstPath (storageDisks xl) 0 0 s Hdisks)
      as [r Hr'].
    destruct (deleteLoop_log xl dstVolume dstPath (storageDisks xl) 0 0 s)
      as (new & Hlog & Hnew).
    destruct (deleteLoop _ _ _ _ _ _ s) as [r' s'].
    unfold io_val, io_log in *. simpl in *. subst r'.
    by exists r, s', new.
Qed.
End RenameFacts.

Lemma RenameFile_verdict_witness :
  Forall is_Some (XL.storageDisks Demo.demoXL) ∧
  XL.renameVerdict Demo.demoXL [Some (errExternal 5); None; None; None; None; None]
                   "bucket" "object" (0, []) = (Returned None, (0, [])) ∧
  ∃ s', XL.renameVerdict Demo.demoXL
          [Some (errExternal 5); Some (errExternal 5); Some (errExternal 5);
           None; None; None] "bucket" "object" (0, []) =
        (Returned (Some errWriteQuorum), s').
Proof.
  assert (Forall is_Some (XL.storageDisks Demo.demoXL)) as Hd.
  { repeat constructor; by eexists. }
  split; [done|]. split.
  - apply (RenameFile_verdict Demo.demoXL
             [Some (errExternal 5); None; None; None; None; None]
             "bucket" "object" (0, []) Hd).
    right. by vm_compute.
  - destruct (RenameFile_verdict Demo.demoXL
                [Some (errExternal 5); Some (errExternal 5); Some (errExternal 5);
                 None; None; None] "bucket" "object" (0, []) Hd)
      as (_ & _ & Hquorum).
    destruct Hquorum as (r & s' & new & _ & _ & _ & Hv); [by vm_compute|].
    by exists s'.
Defined.

(** C3, as first stated, does not hold.  On six disks with write quorum 6
    and read quorum 4, the rename fails on disk 0: one failure, more than
    [N - writeQuorum = 0].  [RenameFile] returns [nil] and makes no delete
    call; the verdict on the slice that holds the one error is [nil] as
    well, by the read-quorum condition. *)
Lemma RenameFile_counterexample :
  let xl := Demo.demoXL in
  let N := len (XL.storageDisks xl) in
  (∀ w, (XL.disk_RenameFile 0%nat "tmp" "obj/" "bucket" "obj/" w).1
        = Some (errExternal 5)) ∧
  1 > N - XL.writeQuorum xl ∧
  XL.RenameFile xl "tmp" "obj" "bucket" "obj" (0, []) =
    (Returned None,
     (0, [XL.EvDiskRenameFile 0; XL.EvDiskRenameFile 1; XL.EvDiskRenameFile 2;
          XL.EvDiskRenameFile 3; XL.EvDiskRenameFile 4; XL.EvDiskRenameFile 5])) ∧
  XL.renameVerdict xl [Some (errExternal 5); None; None; None; None; None]
                   "bucket" "obj" (0, []) = (Returned None, (0, [])).
Proof. repeat split. Qed.

(** ** The walker pool *)

Section PoolFacts.
Import TreeWalk.
Implicit Types (heap : loc → treeWalker) (m : gmap listParams (list loc)).

Lemma firstLive_Some heap (walkChs : list loc) (walkCh : loc) (rest : list loc) :
  firstLive heap walkChs = Some (walkCh, rest) →
  timedOut (heap walkCh) = false ∧
  ∃ skipped, walkChs = skipped ++ walkCh :: rest ∧
             Forall (λ w, timedOut (heap w) = true) skipped.
Proof.
  induction walkChs as [|w ws IH]; simpl; [done|].
  destruct (timedOut (heap w)) eqn:Hw; simpl.
  - intros (Hlive & skipped & -> & Hsk)%IH. split; [done|].
    exists (w :: skipped). split; [done|]. by constructor.
  - intros [= -> ->]. split; [done|]. by exists [].
Qed.

Lemma firstLive_None heap (walkChs : list loc) :
  firstLive heap walkChs = None ↔ Forall (λ w, timedOut (heap w) = true) walkChs.
Proof.
  induction walkChs as [|w ws IH]; simpl; [by split; [constructor|]|].
  destruct (timedOut (heap w)) eqn:Hw; simpl.
  - rewrite IH. split; [by constructor|]. by intros [_ ?]%Forall_cons.
  - split; [done|]. intros [? _]%Forall_cons. congruence.
Qed.

(** C8.  For every state of the pool, [lookupTreeWalk] never returns a
    walker whose [timedOut] flag is set.  The walkers before the returned
    one have timed out and are dropped with it: the key keeps the walkers
    after it, or is deleted if there are none, so a walker that is stored
    once in the pool is no longer in it after it is handed out.  If every
    walker stored for the key has timed out, the result is [nil] and the
    key is deleted.  Other keys are not touched. *)
Theorem lookupTreeWalk_spec heap m (params : listParams) :
  let '(r, m') := lookupTreeWalk heap m params in
  (∀ k, k ≠ params → m' !! k = m !! k) ∧
  (∀ w, r = Some w →
     timedOut (heap w) = false ∧
     ∃ skipped rest,
       m !! params = Some (skipped ++ w :: rest) ∧
       Forall (λ w', timedOut (heap w') = true) skipped ∧
       m' !! params = (if decide (rest = []) then None else Some rest) ∧
       ((∀ k ws, m !! k = Some ws → k ≠ params → w ∉ ws) →
        NoDup (skipped ++ w :: rest) →
        ∀ k ws, m' !! k = Some ws → w ∉ ws)) ∧
  (∀ ws, m !! params = Some ws →
     Forall (λ w, timedOut (heap w) = true) ws →
     r = None ∧ m' = delete params m) ∧
  (m !! params = None → r = None ∧ m' = m).
Proof.
  unfold lookupTreeWalk.
  destruct (m !! params) as [walkChs|] eqn:Hm.
  - destruct (firstLive heap walkChs) as [[walkCh newWalkChs]|] eqn:Hfl.
    + apply firstLive_Some in Hfl as (Hlive & skipped & -> & Hsk).
      assert (∃ m', (if len newWalkChs >? 0
                     then (Some walkCh, <[params:=newWalkChs]> m)
                     else (Some walkCh, delete params m)) = (Some walkCh, m') ∧
                    m' !! params = (if decide (newWalkChs = []) then None
                                    else Some newWalkChs) ∧
                    ∀ k, k ≠ params → m' !! k = m !! k) as (m' & -> & Hp & Hother).
      { destruct newWalkChs as [|x xs].
        - simpl. eexists. split; [done|]. split; [apply lookup_delete_eq|].
          intros k Hk. by apply lookup_delete_ne.
        - assert ((len (x :: xs) >? 0) = true) as ->.
          { apply Z.gtb_lt. unfold len. simpl length. lia. }
          eexists. split; [done|]. split; [apply lookup_insert_eq|].
          intros k Hk. by apply lookup_insert_ne. }
      split; [done|]. split; [|split; [|done]].
      * intros w [= <-]. split; [done|]. exists skipped, newWalkChs.
        split; [done|]. split; [done|]. split; [done|].
        intros Hkeys Hnodup k ws Hk.
        destruct (decide (k = params)) as [->|Hne].
        -- rewrite Hp in Hk. case_decide; [done|]. injection Hk as <-.
           apply NoDup_app in Hnodup as (_ & _ & Hnd).
           by apply NoDup_cons in Hnd as [? _].
        -- rewrite Hother in Hk by done. by eapply Hkeys.
      * intros ws [= <-] Hall. apply Forall_app in Hall as [_ Hall].
        apply Forall_cons in Hall as [? _]. congruence.
    + split; [intros k Hk; by apply lookup_delete_ne|].
      split; [done|]. split; [done|done].
  - split; [done|]. split; [done|]. split; [done|done].
Qed.
End PoolFacts.

Example lookupTreeWalk_demo :
  let params := TreeWalk.mkListParams "bucket" true "a/050" "a/" in
  let heap (w : TreeWalk.loc) :=
    TreeWalk.mkWalker w (bool_decide (w = 7%nat)) in
  let m : gmap TreeWalk.listParams (list TreeWalk.loc) :=
    {[ params := [7; 8; 9]%nat ]} in
  TreeWalk.lookupTreeWalk heap m params
  = (Some 8%nat, {[ params := [9%nat] ]}).
Proof.
  intros params heap m. unfold TreeWalk.lookupTreeWalk, m.
  rewrite lookup_singleton_eq. simpl.
  by rewrite insert_singleton_eq.
Qed.

(** ** The erasure read path *)

Section CountFacts.
Import ErasureRead.
Context {A : Type}.
Implicit Types (l : list (option A)) (D d p : Z) (i : nat).

Lemma nonNil_nil : nonNil (@nil (option A)) = 0.
Proof. done. Qed.

Lemma nonNil_cons_Some (a : A) l : nonNil (Some a :: l) = 1 + nonNil l.
Proof.
  unfold nonNil. rewrite filter_cons_True by (by eexists). simpl length. lia.
Qed.

Lemma nonNil_cons_None l : nonNil (None :: l) = nonNil l.
Proof.
  unfold nonNil. rewrite filter_cons_False; [done|]. by intros [??].
Qed.

Lemma nonNil_app l k : nonNil (l ++ k) = nonNil l + nonNil k.
Proof. unfold nonNil. rewrite filter_app, length_app. lia. Qed.

Lemma nonNil_bounds l : 0 ≤ nonNil l ≤ len l.
Proof.
  induction l as [|[a|] l IH].
  - done.
  - rewrite nonNil_cons_Some. unfold len in *. simpl length. lia.
  - rewrite nonNil_cons_None. unfold len in *. simpl length. lia.
Qed.

Lemma nonNil_full l : nonNil l = len l ↔ Forall is_Some l.
Proof.
  induction l as [|[a|] l IH].
  - split; [constructor | done].
  - rewrite nonNil_cons_Some. unfold len in *. simpl length.
    rewrite Forall_cons. rewrite <- IH. split.
    + intros. split; [by eexists | lia].
    + intros [_ ?]. lia.
  - rewrite nonNil_cons_None. pose proof (nonNil_bounds l) as Hb.
    unfold len in *. simpl length. split; [lia|].
    intros [[? [=]] _]%Forall_cons.
Qed.

(** The two counters of the loops, in closed form. *)
Lemma countNonNil_spec l i D d p :
  countNonNil l i D d p =
  (d + nonNil (take (Z.to_nat D - i) l), p + nonNil (drop (Z.to_nat D - i) l)).
Proof.
  revert i d p. induction l as [|[a|] l IH]; intros i d p; simpl.
  - rewrite take_nil, drop_nil, nonNil_nil. f_equal; lia.
  - destruct (Z.ltb_spec (Z.of_nat i) D) as [Hlt|Hge].
    + rewrite IH. replace (Z.to_nat D - i)%nat with (S (Z.to_nat D - S i)) by lia.
      simpl. rewrite nonNil_cons_Some. f_equal; lia.
    + rewrite IH. replace (Z.to_nat D - i)%nat with 0%nat by lia.
      replace (Z.to_nat D - S i)%nat with 0%nat by lia.
      simpl. rewrite nonNil_cons_Some, take_0, nonNil_nil, drop_0. f_equal; lia.
  - rewrite IH. destruct (Z.to_nat D - i)%nat as [|k] eqn:Hk.
    + replace (Z.to_nat D - S i)%nat with 0%nat by lia.
      simpl. rewrite take_0, drop_0, nonNil_cons_None. done.
    + replace (Z.to_nat D - S i)%nat with k by lia.
      simpl. rewrite nonNil_cons_None. done.
Qed.

Lemma countNonNil_app l k i D d p :
  countNonNil (l ++ k) i D d p =
  countNonNil k (i + length l) D (countNonNil l i D d p).1 (countNonNil l i D d p).2.
Proof.
  revert i d p. induction l as [|[a|] l IH]; intros i d p; simpl.
  - by rewrite Nat.add_0_r.
  - destruct (Z.of_nat i <? D); rewrite IH; f_equal; lia.
  - rewrite IH. f_equal; lia.
Qed.

Lemma decodable_spec l D :
  0 ≤ D ≤ len l →
  decodable l D = true ↔
  Forall is_Some (take (Z.to_nat D) l) ∨ D + 1 ≤ nonNil l.
Proof.
  intros HD. unfold decodable. rewrite countNonNil_spec. simpl.
  rewrite Nat.sub_0_r.
  assert (nonNil (take (Z.to_nat D) l) + nonNil (drop (Z.to_nat D) l) = nonNil l)
    as Hsum by (by rewrite <- nonNil_app, take_drop).
  assert (len (take (Z.to_nat D) l) = D) as Hlen.
  { unfold len in *. rewrite length_take. lia. }
  rewrite <- nonNil_full, Hlen, orb_true_iff. lia.
Qed.
End CountFacts.

Section SupportFacts.
Import ErasureRead.

Lemma countNonNil_absent {A} (l : list (option A)) i D d p :
  (∀ j, ¬ present l j) → countNonNil l i D d p = (d, p).
Proof.
  revert i. induction l as [|[a|] l IH]; intros i Habs; simpl.
  - done.
  - destruct (Habs 0%nat). by eexists.
  - apply IH. intros j. apply (Habs (S j)).
Qed.

(** The counters see only which entries are nil. *)
Lemma countNonNil_ext {A B} (l1 : list (option A)) (l2 : list (option B))
    i D d p :
  (∀ j, present l1 j ↔ present l2 j) →
  countNonNil l1 i D d p = countNonNil l2 i D d p.
Proof.
  revert l2 i d p. induction l1 as [|a l1 IH]; intros l2 i d p Hsame.
  - symmetry. apply countNonNil_absent. intros j Hj.
    apply Hsame in Hj. by destruct Hj.
  - destruct l2 as [|b l2].
    + apply countNonNil_absent. intros j Hj.
      apply Hsame in Hj. by destruct Hj.
    + pose proof (Hsame 0%nat) as H0. unfold present in H0. simpl in H0.
      assert (∀ j, present l1 j ↔ present l2 j) as Hrest.
      { intros j. apply (Hsame (S j)). }
      destruct a as [a|], b as [b|]; simpl.
      * destruct (Z.of_nat i <? D); by apply IH.
      * destruct (proj1 H0) as [? [=]]. by eexists.
      * destruct (proj2 H0) as [? [=]]. by eexists.
      * by apply IH.
Qed.

Lemma decodable_ext {A B} (l1 : list (option A)) (l2 : list (option B)) D :
  (∀ j, present l1 j ↔ present l2 j) → decodable l1 D = decodable l2 D.
Proof.
  intros Hsame. unfold decodable.
  by rewrite (countNonNil_ext l1 l2 0 D 0 0 Hsame).
Qed.

Lemma present_take {A} (l : list (option A)) (k j : nat) :
  present (take k l) j ↔ (j < k)%nat ∧ present l j.
Proof.
  unfold present. destruct (decide (j < k)%nat) as [Hlt|Hge].
  - rewrite lookup_take_lt by done. tauto.
  - rewrite lookup_take_ge by lia. split; [by intros [? [=]] | lia].
Qed.

Lemma present_replicate_None {A} (n j : nat) :
  ¬ present (replicate n (@None A)) j.
Proof.
  unfold present. intros [x Hx].
  destruct (replicate n None !! j) as [o|] eqn:Hl; [|done].
  apply lookup_replicate in Hl as [-> _]. done.
Qed.

(** The second loop of [getReadDisks]. *)
Lemma pickReadDisks_spec {Disk} (rest : list (option Disk)) (i : nat)
    (D d p : Z) (rd : list (option Disk)) :
  d ≠ D → d + p < D + 1 →
  match pickReadDisks rest i D d p rd with
  | (rd', next, None) =>
      (i < next ≤ i + length rest)%nat ∧
      length rd' = length rd ∧
      (∀ j, (j < i ∨ next ≤ j)%nat → rd' !! j = rd !! j) ∧
      (∀ j, (i ≤ j < next)%nat → (j < length rd)%nat →
            rd' !! j = if decide (present rest (j - i)) then rest !! (j - i)%nat
                       else rd !! j)
  | (_, _, Some e) =>
      e = errXLReadQuorum ∧
      (countNonNil rest i D d p).1 ≠ D ∧
      (countNonNil rest i D d p).1 + (countNonNil rest i D d p).2 < D + 1
  end.
Proof.
  revert i d p rd. induction rest as [|[disk|] rest IH]; intros i d p rd Hd Hdp.
  - simpl. done.
  - simpl.
    assert (∀ d' p',
      (if Z.of_nat i <? D then (d + 1, p) else (d, p + 1)) = (d', p') →
      d' + p' = d + p + 1 ∧ countNonNil rest (S i) D d' p' =
        (if Z.of_nat i <? D then countNonNil rest (S i) D (d + 1) p
         else countNonNil rest (S i) D d (p + 1))) as Hstep.
    { intros d' p'. destruct (Z.of_nat i <? D); intros [= <- <-]; split; done || lia. }
    destruct (if Z.of_nat i <? D then (d + 1, p) else (d, p + 1)) as [d' p'] eqn:Hc.
    destruct (Hstep d' p' eq_refl) as [Hsum Hcount]. rewrite <- Hcount.
    assert (∀ next, next = S i →
      (i < next ≤ i + S (length rest))%nat ∧
      length (<[i:=Some disk]> rd) = length rd ∧
      (∀ j, (j < i ∨ next ≤ j)%nat → <[i:=Some disk]> rd !! j = rd !! j) ∧
      (∀ j, (i ≤ j < next)%nat → (j < length rd)%nat →
            <[i:=Some disk]> rd !! j =
              if decide (present (Some disk :: rest) (j - i))
              then (Some disk :: rest) !! (j - i)%nat else rd !! j)) as Hstop.
    { intros next ->. split; [lia|]. split; [apply length_insert|]. split.
      - intros j Hj. apply list_lookup_insert_ne. lia.
      - intros j Hj Hlen. assert (j = i) as -> by lia.
        rewrite Nat.sub_diag. rewrite decide_True by (by eexists).
        by apply list_lookup_insert_eq. }
    destruct (Z.eqb_spec d' D) as [HdD|HdD]; [by apply Hstop|].
    destruct (Z.eqb_spec (d' + p') (D + 1)) as [Hp1|Hp1]; [by apply Hstop|].
    specialize (IH (S i) d' p' (<[i:=Some disk]> rd) HdD ltac:(lia)).
    destruct (pickReadDisks rest (S i) D d' p' (<[i:=Some disk]> rd))
      as [[rd' next] [e|]]; [done|].
    destruct IH as (Hnext & Hlen & Hout & Hin).
    rewrite length_insert in Hlen, Hin.
    split; [lia|]. split; [done|]. split.
    + intros j Hj. rewrite Hout by lia. apply list_lookup_insert_ne. lia.
    + intros j Hj Hjl. destruct (decide (j = i)) as [->|Hne].
      * rewrite Hout by lia. rewrite Nat.sub_diag.
        rewrite decide_True by (by eexists). by apply list_lookup_insert_eq.
      * rewrite Hin by lia.
        replace (j - i)%nat with (S (j - S i)) by lia. simpl.
        unfold present. simpl.
        destruct (decide (is_Some (mjoin (rest !! (j - S i)%nat)))); [done|].
        apply list_lookup_insert_ne. lia.
  - simpl. specialize (IH (S i) d p rd Hd Hdp).
    destruct (pickReadDisks rest (S i) D d p rd) as [[rd' next] [e|]]; [done|].
    destruct IH as (Hnext & Hlen & Hout & Hin).
    split; [lia|]. split; [done|]. split.
    + intros j Hj. destruct (decide (j = i)) as [->|Hne].
      * apply Hout. lia.
      * apply Hout. lia.
    + intros j Hj Hjl. destruct (decide (j = i)) as [->|Hne].
      * rewrite Hout by lia. rewrite Nat.sub_diag.
        rewrite decide_False; [done|]. by intros [? [=]].
      * rewrite Hin by lia.
        replace (j - i)%nat with (S (j - S i)) by lia. done.
Qed.
End SupportFacts.

Section ReadLoopFacts.
Import ErasureRead.
Context {W Encoder Disk : Type} `{!Codec Encoder} `{!ReadEnv W Disk}.
Implicit Types (st : readState Disk) (s : W * list readEvent).

Lemma bitRotVerify_frame volume path sums (diskIndex : nat) st s :
  enBlocks (bitRotVerify volume path sums diskIndex st s).1.2 = enBlocks st ∧
  orderedDisks (bitRotVerify volume path sums diskIndex st s).1.2 = orderedDisks st.
Proof.
  unfold bitRotVerify. destruct (default false (verified st !! diskIndex)); [done|].
  io_unfold. by destruct (isValidBlock _ _ _ _ _ s) as [isValid s1].
Qed.

Lemma slot_effect_iff st st' (j : nat) (P Q : Prop) :
  (P ↔ Q) → slot_effect st st' j P → slot_effect st st' j Q.
Proof. unfold slot_effect. tauto. Qed.

Lemma slot_effect_frame st0 st st' (j : nat) (P : Prop) :
  enBlocks st !! j = enBlocks st0 !! j →
  orderedDisks st !! j = orderedDisks st0 !! j →
  slot_effect st st' j P → slot_effect st0 st' j P.
Proof. unfold slot_effect. intros -> ->. tauto. Qed.

Lemma slot_effect_idle st st' (j : nat) (P : Prop) :
  ¬ P → slot_effect st st' j P →
  enBlocks st' !! j = enBlocks st !! j ∧
  orderedDisks st' !! j = orderedDisks st !! j.
Proof. unfold slot_effect. tauto. Qed.

Lemma attempted_shift {A} (x : option A) (rd : list (option A)) (index j : nat) :
  j ≠ index →
  ((S index ≤ j)%nat ∧ present rd (j - S index)) ↔
  ((index ≤ j)%nat ∧ present (x :: rd) (j - index)).
Proof.
  intros Hne. destruct (decide (j < index)%nat) as [Hlt|Hge]; [lia|].
  replace (j - index)%nat with (S (j - S index)) by lia.
  unfold present. simpl. split; intros [? Hp]; (split; [lia|done]).
Qed.

Lemma parallelReadFrom_spec volume path sums (rd : list (option Disk))
    (index : nat) (off size : Z) st s :
  (index + length rd ≤ length (enBlocks st))%nat →
  (index + length rd ≤ length (orderedDisks st))%nat →
  let st' := (parallelReadFrom volume path sums rd index off size st s).1 in
  length (enBlocks st') = length (enBlocks st) ∧
  length (orderedDisks st') = length (orderedDisks st) ∧
  ∀ j, slot_effect st st' j ((index ≤ j)%nat ∧ present rd (j - index)).
Proof.
  revert index st s. induction rd as [|[disk|] rd IH]; intros index st s Hb Hd.
  - simpl. split; [done|]. split; [done|]. intros j. left.
    split; [|done]. intros [_ [? Hp]]. by rewrite lookup_nil in Hp.
  - simpl. io_unfold.
    pose proof (bitRotVerify_frame volume path sums index st s) as [Hfb Hfd].
    destruct (bitRotVerify volume path sums index st s) as [[ok st1] s1].
    simpl in Hfb, Hfd. simpl length in Hb, Hd.
    assert (∀ st2 s2,
      length (enBlocks st2) = length (enBlocks st) →
      length (orderedDisks st2) = length (orderedDisks st) →
      (∀ j, j ≠ index → enBlocks st2 !! j = enBlocks st !! j ∧
                        orderedDisks st2 !! j = orderedDisks st !! j) →
      ((present (enBlocks st2) index ∧
        orderedDisks st2 !! index = orderedDisks st !! index) ∨
       (enBlocks st2 !! index = enBlocks st !! index ∧
        orderedDisks st2 !! index = Some None)) →
      let st' := (parallelReadFrom volume path sums rd (S index) off size st2 s2).1 in
      length (enBlocks st') = length (enBlocks st) ∧
      length (orderedDisks st') = length (orderedDisks st) ∧
      ∀ j, slot_effect st st' j
             ((index ≤ j)%nat ∧ present (Some disk :: rd) (j - index))) as Hgo.
    { intros st2 s2 Hl1 Hl2 Hother Hat.
      destruct (IH (S index) st2 s2) as (Hl1' & Hl2' & Heff); [lia..|].
      split; [congruence|]. split; [congruence|].
      intros j. destruct (decide (j = index)) as [->|Hne].
      - pose proof (Heff index) as He.
        apply slot_effect_idle in He as [Hb' Hd']; [|intros [? _]; lia].
        rewrite Nat.sub_diag.
        assert ((index ≤ index)%nat ∧ present (Some disk :: rd) 0) as Hp0.
        { split; [lia|]. by eexists. }
        destruct Hat as [[Hp Ho]|[Hn Ho]].
        + right; left. split; [done|]. unfold present in *.
          rewrite Hb'. split; [done|]. congruence.
        + right; right. split; [done|]. split; congruence.
      - destruct (Hother j Hne) as [Hob Hod].
        eapply slot_effect_iff; [by apply attempted_shift|].
        eapply slot_effect_frame; [done..|]. apply Heff. }
    destruct s1 as [w1 log1]. destruct ok; simpl.
    + destruct (copyN disk volume path off size w1) as [[chunk [e|]] w2].
      * apply Hgo; simpl.
        -- congruence.
        -- rewrite length_insert. congruence.
        -- intros j Hne. rewrite list_lookup_insert_ne by done. split; congruence.
        -- right. split; [congruence|].
           rewrite list_lookup_insert_eq; [done|]. rewrite Hfd. lia.
      * apply Hgo; simpl.
        -- rewrite length_insert. congruence.
        -- congruence.
        -- intros j Hne. rewrite list_lookup_insert_ne by done. split; congruence.
        -- left. split; [|congruence]. unfold present.
           rewrite list_lookup_insert_eq; [by eexists|]. rewrite Hfb. lia.
    + apply Hgo; simpl.
      * congruence.
      * rewrite length_insert. congruence.
      * intros j Hne. rewrite list_lookup_insert_ne by done. split; congruence.
      * right. split; [congruence|].
        rewrite list_lookup_insert_eq; [done|]. rewrite Hfd. lia.
  - simpl. simpl length in Hb, Hd.
    destruct (IH (S index) st s) as (Hl1 & Hl2 & Heff); [lia..|].
    split; [done|]. split; [done|].
    intros j. destruct (decide (j = index)) as [->|Hne].
    + rewrite Nat.sub_diag.
      pose proof (Heff index) as He.
      apply slot_effect_idle in He as [Hb' Hd']; [|intros [? _]; lia].
      left. split; [|done]. by intros [_ [? [=]]].
    + eapply slot_effect_iff; [by apply attempted_shift|]. apply Heff.
Qed.
Lemma present_ge {A} (l : list (option A)) (j : nat) :
  (length l ≤ j)%nat → ¬ present l j.
Proof.
  intros Hj [x Hx]. unfold present in *.
  by rewrite lookup_ge_None_2 in Hx.
Qed.

Lemma not_decodable_counts {A} (l : list (option A)) (D : Z) :
  decodable l D = false →
  (countNonNil l 0 D 0 0).1 ≠ D ∧
  (countNonNil l 0 D 0 0).1 + (countNonNil l 0 D 0 0).2 < D + 1.
Proof.
  unfold decodable. destruct (countNonNil l 0 D 0 0) as [d p]. simpl.
  intros [H1 H2]%orb_false_iff. lia.
Qed.

Lemma counts_not_decodable {A} (l : list (option A)) (D : Z) :
  (countNonNil l 0 D 0 0).1 ≠ D →
  (countNonNil l 0 D 0 0).1 + (countNonNil l 0 D 0 0).2 < D + 1 →
  decodable l D = false.
Proof.
  unfold decodable. destruct (countNonNil l 0 D 0 0) as [d p]. simpl.
  intros H1 H2. apply orb_false_iff. lia.
Qed.

Lemma read_inv_counts st (k N : nat) (D : Z) :
  read_inv st k N →
  countNonNil (take k (orderedDisks st)) 0 D 0 0 =
  countNonNil (enBlocks st) 0 D 0 0.
Proof.
  intros (_ & _ & _ & Hlow & Hhigh). apply countNonNil_ext. intros j.
  rewrite present_take. destruct (decide (j < k)%nat) as [Hlt|Hge].
  - rewrite Hlow by done. tauto.
  - split; [lia|]. intros Hp. destruct (Hhigh j); [lia|done].
Qed.

(** The inner loop of [erasureReadFile], from any state in which the
    disks below [k] have been tried without success. *)
Lemma readLoop_spec volume path sums (D : Z) (off size : Z) (N : nat) :
  ∀ (fuel k : nat) st s,
    read_inv st k N →
    isSuccessDecodeBlocks (enBlocks st) D = false →
    (N < fuel + k)%nat →
    match (readLoop fuel volume path sums D off size k st s).1 with
    | Returned (Continue st') =>
        isSuccessDecodeBlocks (enBlocks st') D = true ∧
        length (enBlocks st') = N ∧ length (orderedDisks st') = N
    | Returned (ReturnErr e st') =>
        e = errXLReadQuorum ∧
        isSuccessDecodeBlocks (enBlocks st') D = false ∧
        decodable (orderedDisks st') D = false ∧
        length (enBlocks st') = N ∧ length (orderedDisks st') = N
    | _ => False
    end.
Proof.
  induction fuel as [|fuel IH]; intros k st s Hinv Hfail Hfuel.
  { destruct Hinv as (_ & _ & ? & _). lia. }
  pose proof Hinv as (Hlb & Hld & HkN & Hlow & Hhigh).
  simpl. io_unfold.
  assert (getReadDisks (orderedDisks st) k D =
          Returned (pickReadDisks (drop k (orderedDisks st)) k D
                      (countNonNil (enBlocks st) 0 D 0 0).1
                      (countNonNil (enBlocks st) 0 D 0 0).2
                      (replicate (length (orderedDisks st)) None))) as ->.
  { unfold getReadDisks.
    assert ((length (orderedDisks st) <? k)%nat = false) as ->
      by (apply Nat.ltb_ge; lia).
    rewrite (read_inv_counts st k N D Hinv).
    destruct (not_decodable_counts _ _ Hfail) as [Hd Hdp].
    destruct (countNonNil (enBlocks st) 0 D 0 0) as [d p]. simpl in *.
    assert ((d =? D) = false) as -> by lia.
    assert ((d + p >=? D + 1) = false) as -> by lia.
    done. }
  destruct (not_decodable_counts _ _ Hfail) as [Hd Hdp].
  pose proof (pickReadDisks_spec (drop k (orderedDisks st)) k D _ _
                (replicate (length (orderedDisks st)) None) Hd Hdp) as Hpick.
  destruct (pickReadDisks _ _ _ _ _ _) as [[rd next] [e|]].
  - (* No batch left: the read quorum is lost. *)
    destruct Hpick as (-> & Hc1 & Hc2). simpl.
    split; [done|]. split; [done|]. split; [|done].
    apply counts_not_decodable.
    + rewrite <- (take_drop k (orderedDisks st)) at 1.
      rewrite countNonNil_app, length_take, (read_inv_counts st k N D Hinv).
      replace (0 + k `min` length (orderedDisks st))%nat with k by lia. done.
    + rewrite <- (take_drop k (orderedDisks st)) at 1 2.
      rewrite countNonNil_app, length_take, (read_inv_counts st k N D Hinv).
      replace (0 + k `min` length (orderedDisks st))%nat with k by lia. done.
  - destruct Hpick as (Hnext & Hlrd & Hout & Hin).
    rewrite length_drop in Hnext. rewrite length_replicate in Hlrd, Hin.
    unfold parallelRead.
    pose proof (parallelReadFrom_spec volume path sums rd 0 off size st s
                  ltac:(lia) ltac:(lia)) as (Hlb1 & Hld1 & Heff).
    destruct (parallelReadFrom volume path sums rd 0 off size st s) as [st1 s1].
    simpl in Hlb1, Hld1, Heff.
    assert (∀ j, present rd j ↔ (k ≤ j < next)%nat ∧ present (orderedDisks st) j)
      as Hrd.
    { intros j. destruct (decide (k ≤ j < next)%nat) as [Hr|Hr].
      - unfold present at 1. rewrite Hin by lia.
        assert (drop k (orderedDisks st) !! (j - k)%nat = orderedDisks st !! j)
          as Hdrop.
        { rewrite lookup_drop. f_equal. lia. }
        unfold present. rewrite Hdrop.
        case_decide as Hp.
        + tauto.
        + rewrite lookup_replicate_2 by lia. simpl.
          split; [by intros [? [=]] | tauto].
      - unfold present at 1. rewrite Hout by lia.
        split; [|tauto]. intros Hp. by apply present_replicate_None in Hp. }
    assert (read_inv st1 next N) as Hinv1.
    { split; [congruence|]. split; [congruence|]. split; [lia|]. split.
      - intros j Hj. specialize (Heff j). rewrite Nat.sub_0_r in Heff.
        destruct Heff as [(Hna & Hb & Ho)|[([_ Ha] & Hp & Ho)|([_ Ha] & Hb & Ho)]].
        + unfold present. rewrite Hb, Ho. fold (present (enBlocks st) j).
          fold (present (orderedDisks st) j).
          destruct (decide (j < k)%nat) as [Hlt|Hge]; [by apply Hlow|].
          split.
          * intros Hp. destruct (Hhigh j); [lia|done].
          * intros Hp. destruct Hna. split; [lia|]. apply Hrd. split; [lia|done].
        + apply Hrd in Ha as [_ Ha]. unfold present at 2. rewrite Ho. tauto.
        + apply Hrd in Ha as [Hr _]. unfold present. rewrite Hb, Ho. simpl.
          split; [|by intros [? [=]]].
          intros Hp. destruct (Hhigh j); [lia|done].
      - intros j Hj. specialize (Heff j). rewrite Nat.sub_0_r in Heff.
        destruct Heff as [(Hna & Hb & Ho)|[([_ Ha] & _)|([_ Ha] & _)]].
        + unfold present. rewrite Hb. apply Hhigh. lia.
        + apply Hrd in Ha. lia.
        + apply Hrd in Ha. lia. }
    destruct (isSuccessDecodeBlocks (enBlocks st1) D) eqn:Hok; simpl.
    { split; [done|]. split; congruence. }
    destruct (Nat.eqb_spec next (length (orderedDisks st1))) as [Hend|Hmore]; simpl.
    + split; [done|]. split; [done|]. split; [|split; congruence].
      rewrite <- Hok. symmetry. apply (decodable_ext (enBlocks st1)).
      intros j. destruct Hinv1 as (Hl1 & Hl2 & _ & Hlow1 & _).
      destruct (decide (j < next)%nat) as [Hlt|Hge]; [by apply Hlow1|].
      split; intros Hp; exfalso; revert Hp; apply present_ge; lia.
    + apply IH; [done|done|lia].
Qed.
Lemma fresh_blocks_inv st (N : nat) (D : Z) :
  1 ≤ D → length (orderedDisks st) = N → enBlocks st = replicate N None →
  read_inv st 0 N ∧ isSuccessDecodeBlocks (enBlocks st) D = false.
Proof.
  intros HD Hlen Hfresh. split.
  - split; [by rewrite Hfresh, length_replicate|]. split; [done|].
    split; [lia|]. split; [intros j Hj; lia|].
    intros j _. rewrite Hfresh. apply present_replicate_None.
  - unfold isSuccessDecodeBlocks. rewrite Hfresh.
    rewrite countNonNil_absent by (intros j; apply present_replicate_None).
    apply orb_false_iff. lia.
Qed.

(** C1.  For a vector of [N] encoded blocks and [1 ≤ D ≤ N] data blocks
    (in particular [D = N/2]), [isSuccessDecodeBlocks] holds exactly if
    all of the first [D] entries are non-nil or at least [D + 1] entries
    are non-nil.  The read loop of a block, started on fresh blocks,
    always ends: either with blocks for which the test holds, or, once the
    disks that are left cannot provide all [D] data blocks nor [D + 1]
    blocks in total, with the read-quorum error [errXLReadQuorum], the
    test failing on the blocks read. *)
Theorem read_quorum_spec (N : nat) (D : Z) (volume path : string)
    (sums : list checkSumInfo) (off size : Z) st s :
  1 ≤ D ≤ Z.of_nat N →
  length (orderedDisks st) = N →
  enBlocks st = replicate N None →
  (∀ blocks : list (option (list byte)),
     length blocks = N →
     isSuccessDecodeBlocks blocks D = true ↔
     Forall is_Some (take (Z.to_nat D) blocks) ∨ D + 1 ≤ nonNil blocks) ∧
  match (readLoop (S N) volume path sums D off size 0 st s).1 with
  | Returned (Continue st') =>
      isSuccessDecodeBlocks (enBlocks st') D = true
  | Returned (ReturnErr e st') =>
      e = errXLReadQuorum ∧
      isSuccessDecodeBlocks (enBlocks st') D = false ∧
      ¬ (Forall is_Some (take (Z.to_nat D) (orderedDisks st')) ∨
         D + 1 ≤ nonNil (orderedDisks st'))
  | _ => False
  end.
Proof.
  intros HD Hlen Hfresh. split.
  - intros blocks Hb. apply (decodable_spec blocks D). unfold len. lia.
  - destruct (fresh_blocks_inv st N D ltac:(lia) Hlen Hfresh) as [Hinv Hfail].
    pose proof (readLoop_spec volume path sums D off size N (S N) 0 st s
                  Hinv Hfail ltac:(lia)) as Hloop.
    destruct (readLoop _ _ _ _ _ _ _ _ _ _) as [[[st'|e st'|]|why] s']; simpl in *;
      try done.
    + by destruct Hloop.
    + destruct Hloop as (-> & Hf & Hdisks & _ & Hld).
      split; [done|]. split; [done|].
      rewrite <- (decodable_spec (orderedDisks st') D) by (unfold len; lia).
      by rewrite Hdisks.
Qed.

Lemma isSuccessDataBlocks_spec (blocks : list (option (list byte))) (D : Z) :
  0 ≤ D ≤ len blocks →
  isSuccessDataBlocks blocks D =
  Returned (bool_decide (Forall is_Some (take (Z.to_nat D) blocks))).
Proof.
  intros HD. unfold isSuccessDataBlocks.
  assert ((D <? 0) || (len blocks <? D) = false) as ->.
  { apply orb_false_iff. lia. }
  rewrite countNonNil_spec. cbv beta iota zeta.
  rewrite Nat.sub_0_r, take_take, Nat.min_id. f_equal.
  assert (len (take (Z.to_nat D) blocks) = D) as Hlen.
  { unfold len in *. rewrite length_take. lia. }
  pose proof (nonNil_bounds (take (Z.to_nat D) blocks)) as Hb.
  pose proof (nonNil_full (take (Z.to_nat D) blocks)) as Hfull.
  rewrite Hlen in Hb, Hfull.
  destruct (bool_decide_reflect (Forall is_Some (take (Z.to_nat D) blocks)))
    as [Hall|Hnot].
  - apply Hfull in Hall. lia.
  - assert (nonNil (take (Z.to_nat D) blocks) ≠ D) by tauto. lia.
Qed.

(** C2.  After the reads of a block, [decodeData] runs exactly if one of
    the first [D] entries is nil.  It then calls [Reconstruct] on the
    vector of the blocks read and, if that succeeds, [Verify] on the whole
    vector that [Reconstruct] left; if [Verify] reports a mismatch the
    block ends with an error for [erasureReadFile] to return, and nothing
    is written to the sink. *)
Theorem decode_when_data_missing (eInfo : erasureInfo) (rs : Encoder)
    (startBlock bytesToSkip length' block bytesWritten blockSize : Z)
    st (w : W) (log : list readEvent) :
  0 ≤ DataBlocks eInfo ≤ len (enBlocks st) →
  reedsolomon_New (DataBlocks eInfo) (ParityBlocks eInfo) = (rs, None) →
  let D := DataBlocks eInfo in
  let run := finishBlock eInfo startBlock bytesToSkip length' block
                         bytesWritten blockSize st (w, log) in
  let outOffset := if block =? startBlock then bytesToSkip else 0 in
  let outSize := if sub64 length' bytesWritten <? blockSize
                 then sub64 length' bytesWritten else blockSize in
  (Forall is_Some (take (Z.to_nat D) (enBlocks st)) →
     io_log run = log ++ [EvWriteDataBlocks (enBlocks st) outOffset outSize]) ∧
  (¬ Forall is_Some (take (Z.to_nat D) (enBlocks st)) →
     ∃ rest, io_log run = log ++ EvReconstruct (enBlocks st) :: rest ∧
       ∀ shards, Reconstruct rs (enBlocks st) = (shards, None) →
         ∃ rest', rest = EvVerify shards :: rest' ∧
           (Verify rs shards = (true, None) →
              rest' = [EvWriteDataBlocks shards outOffset outSize]) ∧
           (Verify rs shards = (false, None) →
              rest' = [] ∧
              io_val run =
                Returned (0, ReturnErr
                  (errorNew
                     "Verification failed after reconstruction, data likely corrupted.")
                  (set_enBlocks st shards)))).
Proof.
  intros HD Hnew D run outOffset outSize. subst D run. unfold finishBlock.
  rewrite isSuccessDataBlocks_spec by done. io_unfold. split.
  - intros Hall. rewrite bool_decide_eq_true_2 by done. simpl.
    fold outOffset. fold outSize.
    by destruct (writeDataBlocks _ _ _ _ w) as [[n [e|]] w'].
  - intros Hnot. rewrite bool_decide_eq_false_2 by done. simpl.
    unfold decodeData. rewrite Hnew. io_unfold.
    destruct (Reconstruct rs (enBlocks st)) as [shards [e|]] eqn:Hrec; simpl.
    { eexists. split; [done|]. by intros shards' [=]. }
    destruct (Verify rs shards) as [ok [e|]] eqn:Hver; simpl.
    { eexists. split; [rewrite <- app_assoc; done|].
      intros shards' [= <-]. eexists. split; [done|].
      rewrite Hver. split; by intros [=]. }
    destruct ok; simpl.
    + fold outOffset. fold outSize.
      destruct (writeDataBlocks _ _ _ _ w) as [[n [e|]] w'];
        (eexists; split; [rewrite <- !app_assoc; done|];
         intros shards' [= <-]; eexists; split; [done|];
         rewrite Hver; split; [done | by intros [=]]).
    + eexists. split; [rewrite <- app_assoc; done|].
      intros shards' [= <-]. eexists. split; [done|].
      rewrite Hver. split; [by intros [=] | done].
Qed.

End ReadLoopFacts.

Lemma read_quorum_spec_witness :
  1 ≤ 3 ≤ Z.of_nat 6 ∧
  length (ErasureRead.orderedDisks Demo.demoReadState) = 6%nat ∧
  ErasureRead.enBlocks Demo.demoReadState = replicate 6 None ∧
  ∃ st', (ErasureRead.readLoop 7 "bucket" "object" [] 3 0 1 0
            Demo.demoReadState ((), [])).1 = Returned (ErasureRead.Continue st') ∧
         ErasureRead.isSuccessDecodeBlocks (ErasureRead.enBlocks st') 3 = true.
Proof.
  assert (1 ≤ 3 ≤ Z.of_nat 6) as H1 by (simpl; lia).
  split; [done|]. split; [done|]. split; [done|].
  pose proof (read_quorum_spec 6 3 "bucket" "object" [] 0 1 Demo.demoReadState
                ((), []) H1 eq_refl eq_refl) as [_ Hloop].
  destruct (ErasureRead.readLoop 7 "bucket" "object" [] 3 0 1 0
              Demo.demoReadState ((), [])) as [[[st'|e st'|]|why] s'] eqn:Hrun;
    simpl in Hloop; try done.
  all: try (exfalso; vm_compute in Hrun; discriminate).
  by exists st'.
Defined.

Example readLoop_demo_run :
  ErasureRead.readLoop 7 "bucket" "object" [] 3 0 1 0 Demo.demoReadState ((), []) =
  (Returned (ErasureRead.Continue Demo.demoAfterRead),
   ((), [ErasureRead.EvHashSum 0; ErasureRead.EvCopyN 0 0 1;
         ErasureRead.EvHashSum 1; ErasureRead.EvCopyN 1 0 1;
         ErasureRead.EvHashSum 2; ErasureRead.EvCopyN 2 0 1;
         ErasureRead.EvHashSum 3; ErasureRead.EvCopyN 3 0 1;
         ErasureRead.EvHashSum 4; ErasureRead.EvCopyN 4 0 1;
         ErasureRead.EvHashSum 5; ErasureRead.EvCopyN 5 0 1])).
Proof. reflexivity. Qed.

(** With disk 5 absent as well, the second batch cannot be formed and the
    read quorum is lost. *)
Example readLoop_demo_quorum_lost :
  (ErasureRead.readLoop 7 "bucket" "object" [] 3 0 1 0
     (ErasureRead.mkReadState [Some 0; Some 1; Some 2; Some 3; Some 4; None]%nat
                              (replicate 6 None) (replicate 6 false))
     ((), [])).1 =
  Returned (ErasureRead.ReturnErr errXLReadQuorum
    (ErasureRead.mkReadState [None; Some 1; None; Some 3; Some 4; None]%nat
       [None; Some [x2a]; None; None; None; None]
       [true; true; true; false; false; false])).
Proof. reflexivity. Qed.

Lemma decode_when_data_missing_witness :
  0 ≤ ErasureRead.DataBlocks Demo.demoErasureInfo
    ≤ len (ErasureRead.enBlocks Demo.demoAfterRead) ∧
  reedsolomon_New (ErasureRead.DataBlocks Demo.demoErasureInfo)
                  (ErasureRead.ParityBlocks Demo.demoErasureInfo) = ((), None) ∧
  ∃ rest,
    io_log (ErasureRead.finishBlock Demo.demoErasureInfo 0 0 10 0 0 10
              Demo.demoAfterRead ((), [])) =
    [] ++ ErasureRead.EvReconstruct Demo.demoBlocks :: rest.
Proof.
  assert (0 ≤ ErasureRead.DataBlocks Demo.demoErasureInfo
            ≤ len (ErasureRead.enBlocks Demo.demoAfterRead)) as HD
    by (by vm_compute).
  assert (reedsolomon_New (ErasureRead.DataBlocks Demo.demoErasureInfo)
            (ErasureRead.ParityBlocks Demo.demoErasureInfo) = ((), None)) as Hnew
    by done.
  split; [done|]. split; [done|].
  destruct (decode_when_data_missing Demo.demoErasureInfo () 0 0 10 0 0 10
              Demo.demoAfterRead () [] HD Hnew) as [_ Hmissing].
  destruct Hmissing as (rest & Hlog & _).
  - intros Hall. apply Forall_cons in Hall as [[? [=]] _].
  - by exists rest.
Defined.

Example finishBlock_demo_corrupted :
  ErasureRead.finishBlock (Codec0 := Demo.corruptCodec) Demo.demoErasureInfo 0 0 10 0 0 10
    Demo.demoAfterRead ((), []) =
  (Returned (0, ErasureRead.ReturnErr
     (errorNew "Verification failed after reconstruction, data likely corrupted.")
     (ErasureRead.set_enBlocks Demo.demoAfterRead
        [Some []; Some [x2a]; Some []; Some [x2a]; Some [x2a]; Some [x2a]])),
   ((), [ErasureRead.EvReconstruct Demo.demoBlocks;
         ErasureRead.EvVerify
           [Some []; Some [x2a]; Some []; Some [x2a]; Some [x2a]; Some [x2a]]])).
Proof. reflexivity. Qed.

(** ** Strings *)

Section StringFacts.
Import Strings.
Implicit Types (a b c p s t : string).

Lemma str_app_cons (x : Ascii.ascii) a b : String x a +:+ b = String x (a +:+ b).
Proof. done. Qed.

Lemma str_app_nil_l a : "" +:+ a = a.
Proof. done. Qed.

Lemma str_app_nil_r a : a +:+ "" = a.
Proof. induction a as [|x a IH]; [done|]. by rewrite str_app_cons, IH. Qed.

Lemma str_app_assoc a b c : (a +:+ b) +:+ c = a +:+ (b +:+ c).
Proof. induction a as [|x a IH]; [done|]. by rewrite !str_app_cons, IH. Qed.

Lemma str_app_length a b :
  String.length (a +:+ b) = (String.length a + String.length b)%nat.
Proof. induction a as [|x a IH]; [done|]. rewrite str_app_cons. simpl. by rewrite IH. Qed.

Lemma str_app_eq_nil a b : a +:+ b = "" → a = "" ∧ b = "".
Proof. destruct a; [done|]. by rewrite str_app_cons. Qed.

Lemma ascii_compare_refl (x : Ascii.ascii) : Ascii.compare x x = Eq.
Proof. unfold Ascii.compare. apply N.compare_refl. Qed.

Lemma compare_refl a : String.compare a a = Eq.
Proof.
  induction a as [|x a IH]; [done|]. simpl. by rewrite ascii_compare_refl.
Qed.

Lemma lt_irrefl a : ¬ lt a a.
Proof. unfold lt. by rewrite compare_refl. Qed.

Lemma lt_le_ne a b : lt a b ↔ String.le a b ∧ a ≠ b.
Proof.
  unfold lt, String.le, String.leb. split.
  - intros Hlt. rewrite Hlt. split; [done|]. intros ->. by rewrite compare_refl in Hlt.
  - intros [Hle Hne]. destruct (String.compare a b) eqn:Hc; [|done|done].
    by apply String.compare_eq_iff in Hc.
Qed.

Lemma le_lt_eq a b : String.le a b ↔ lt a b ∨ a = b.
Proof.
  rewrite lt_le_ne. split.
  - intros Hle. destruct (decide (a = b)); tauto.
  - intros [[? _]| ->]; done.
Qed.

Lemma lt_trans a b c : lt a b → lt b c → lt a c.
Proof.
  rewrite !lt_le_ne. intros [Hab Hne1] [Hbc Hne2]. split; [by etrans|].
  intros ->. apply Hne1. by apply (anti_symm String.le).
Qed.

Lemma le_lt_trans a b c : String.le a b → lt b c → lt a c.
Proof. rewrite le_lt_eq. intros [Hab| ->]; [apply lt_trans, Hab | done]. Qed.

Lemma lt_le_trans a b c : lt a b → String.le b c → lt a c.
Proof. rewrite (le_lt_eq b c). intros Hab [Hbc| <-]; [by eapply lt_trans | done]. Qed.

Lemma leb_le a b : String.leb a b = true ↔ String.le a b.
Proof. unfold String.le. by destruct (String.leb a b). Qed.

Lemma not_le_lt a b : ¬ String.le a b → lt b a.
Proof.
  intros Hn. destruct (total String.le a b) as [H|H]; [done|].
  apply lt_le_ne. split; [done|]. intros ->. by apply Hn.
Qed.

Lemma nil_lt a : a ≠ "" → lt "" a.
Proof. by destruct a. Qed.

Lemma lt_nil a : ¬ lt a "".
Proof. by destruct a. Qed.

(** A common prefix does not change the order. *)
Lemma compare_app_l p a b : String.compare (p +:+ a) (p +:+ b) = String.compare a b.
Proof.
  induction p as [|x p IH]; [done|].
  rewrite !str_app_cons. simpl. by rewrite ascii_compare_refl.
Qed.

Lemma lt_app_l p a b : lt (p +:+ a) (p +:+ b) ↔ lt a b.
Proof. unfold lt. by rewrite compare_app_l. Qed.

(** Extending the larger string keeps the order. *)
Lemma lt_app_r a b t : lt a b → lt a (b +:+ t).
Proof.
  unfold lt. revert b. induction a as [|x a IH]; intros [|y b]; try done.
  rewrite str_app_cons. simpl.
  destruct (Ascii.compare x y); [apply IH | done | done].
Qed.

Lemma le_app a t : String.le a (a +:+ t).
Proof.
  apply le_lt_eq. destruct t as [|x t]; [right; by rewrite str_app_nil_r|].
  left. rewrite <- (str_app_nil_r a) at 1. apply lt_app_l. done.
Qed.

(** If the smaller string is not a prefix of the larger, both can be
    extended. *)
Lemma lt_app_both a b s t :
  lt a b → (∀ u, b ≠ a +:+ u) → lt (a +:+ s) (b +:+ t).
Proof.
  unfold lt. revert b. induction a as [|x a IH]; intros [|y b] Hlt Hpre; try done.
  - by destruct (Hpre (String y b)).
  - rewrite !str_app_cons. simpl in *.
    destruct (Ascii.compare x y) eqn:Hxy; [|done|done].
    apply Ascii.compare_eq_iff in Hxy as ->.
    apply IH; [done|]. intros u ->. by apply (Hpre u).
Qed.
Lemma take_drop_str (k : nat) s : takeStr k s +:+ dropStr k s = s.
Proof.
  revert s. induction k as [|k IH]; intros [|x s]; try done.
  simpl. by rewrite str_app_cons, IH.
Qed.

Lemma takeStr_app a b : takeStr (String.length a) (a +:+ b) = a.
Proof. induction a as [|x a IH]; [done|]. rewrite str_app_cons. simpl. by rewrite IH. Qed.

Lemma dropStr_app a b : dropStr (String.length a) (a +:+ b) = b.
Proof. induction a as [|x a IH]; [done|]. rewrite str_app_cons. simpl. by rewrite IH. Qed.

Lemma takeStr_length (k : nat) s :
  (k ≤ String.length s)%nat → String.length (takeStr k s) = k.
Proof.
  revert s. induction k as [|k IH]; intros [|x s] Hk; simpl in *; try done; try lia.
  rewrite IH; lia.
Qed.

Lemma dropStr_add (k n : nat) s : dropStr (k + n) s = dropStr n (dropStr k s).
Proof.
  revert s. induction k as [|k IH]; intros s; [done|].
  destruct s as [|x s]; simpl; [by destruct n | apply IH].
Qed.

Lemma eqb_true a b : String.eqb a b = true ↔ a = b.
Proof. apply String.eqb_eq. Qed.

Lemma HasPrefix_spec s p : HasPrefix s p = true ↔ ∃ t, s = p +:+ t.
Proof.
  unfold HasPrefix. rewrite andb_true_iff, Nat.leb_le, eqb_true. split.
  - intros [_ Heq]. exists (dropStr (String.length p) s).
    pose proof (take_drop_str (String.length p) s) as Htd.
    by rewrite Heq in Htd.
  - intros [t ->]. rewrite str_app_length, takeStr_app. split; [lia|done].
Qed.

Lemma HasSuffix_spec s suf : HasSuffix s suf = true ↔ ∃ x, s = x +:+ suf.
Proof.
  unfold HasSuffix. rewrite andb_true_iff, Nat.leb_le, eqb_true. split.
  - intros [_ Heq]. exists (takeStr (String.length s - String.length suf) s).
    pose proof (take_drop_str (String.length s - String.length suf) s) as Htd.
    by rewrite Heq in Htd.
  - intros [x ->]. rewrite str_app_length. split; [lia|].
    replace (String.length x + String.length suf - String.length suf)%nat
      with (String.length x) by lia.
    apply dropStr_app.
Qed.

Lemma TrimSuffix_app x suf : TrimSuffix (x +:+ suf) suf = x.
Proof.
  unfold TrimSuffix.
  assert (HasSuffix (x +:+ suf) suf = true) as -> by (apply HasSuffix_spec; eauto).
  rewrite str_app_length.
  replace (String.length x + String.length suf - String.length suf)%nat
    with (String.length x) by lia.
  apply takeStr_app.
Qed.

Lemma TrimSuffix_none s suf : HasSuffix s suf = false → TrimSuffix s suf = s.
Proof. unfold TrimSuffix. by intros ->. Qed.

Lemma TrimPrefix_app p t : TrimPrefix (p +:+ t) p = t.
Proof.
  unfold TrimPrefix.
  assert (HasPrefix (p +:+ t) p = true) as -> by (apply HasPrefix_spec; eauto).
  apply dropStr_app.
Qed.

Lemma indexFrom_spec (pos : nat) s sep (i : nat) :
  indexFrom pos s sep = Some i →
  ∃ k, i = (pos + k)%nat ∧
       s = takeStr k s +:+ sep +:+ dropStr (k + String.length sep) s.
Proof.
  revert pos. induction s as [|x s IH]; intros pos; simpl.
  - destruct (HasPrefix "" sep) eqn:Hp; [|done].
    intros [= <-]. exists 0%nat. split; [lia|].
    apply HasPrefix_spec in Hp as [t Ht]. symmetry in Ht.
    apply str_app_eq_nil in Ht as [-> ->]. done.
  - destruct (HasPrefix (String x s) sep) eqn:Hp.
    + intros [= <-]. exists 0%nat. split; [lia|].
      apply HasPrefix_spec in Hp as [t Ht]. rewrite Ht at 1.
      simpl takeStr. rewrite str_app_nil_l. f_equal.
      rewrite Ht. simpl. by rewrite dropStr_app.
    + intros (k & -> & Hs)%IH. exists (S k). split; [lia|].
      simpl. rewrite str_app_cons. by f_equal.
Qed.

Lemma indexFrom_None (pos : nat) s sep :
  indexFrom pos s sep = None → ∀ a b, s ≠ a +:+ sep +:+ b.
Proof.
  revert pos. induction s as [|x s IH]; intros pos; simpl.
  - destruct (HasPrefix "" sep) eqn:Hp; [done|]. intros _ a b Hab.
    symmetry in Hab. apply str_app_eq_nil in Hab as [-> Hab].
    apply str_app_eq_nil in Hab as [-> ->]. done.
  - destruct (HasPrefix (String x s) sep) eqn:Hp; [done|].
    intros Hnone a b Hab. destruct a as [|y a].
    + rewrite str_app_nil_l in Hab.
      assert (HasPrefix (String x s) sep = true) by (apply HasPrefix_spec; eauto).
      congruence.
    + rewrite str_app_cons in Hab. injection Hab as -> Hs.
      by apply (IH _ Hnone a b).
Qed.

(** The marker is its directory component followed by its base; the base
    is not empty only after a slash. *)
Lemma splitMarker_spec (marker markerDir markerBase : string) :
  TreeWalk.splitMarker marker = (markerDir, markerBase) →
  marker = markerDir +:+ markerBase ∧
  (markerBase = "" ∨ ∃ x, markerDir = x +:+ "/").
Proof.
  unfold TreeWalk.splitMarker, SplitN2, TreeWalk.slashSeparator.
  destruct (String.eqb marker "") eqn:He; simpl.
  { apply eqb_true in He as ->. intros [= <- <-]. by split; [|left]. }
  destruct (indexFrom 0 marker "/") as [i|] eqn:Hi; simpl.
  - intros [= <- <-]. apply indexFrom_spec in Hi as (k & -> & Hs).
    simpl in *. split; [by rewrite str_app_assoc|]. right. eauto.
  - intros [= <- <-]. rewrite str_app_nil_r. by split; [|left].
Qed.

Lemma wfEntry_spec e : wfEntry e = true → wf_entry e.
Proof.
  unfold wfEntry, wf_entry. rewrite !andb_true_iff, !negb_true_iff.
  intros [[Hne Hns] Hsl].
  split; [by intros ->|]. split; [by intros ->|].
  clear Hne Hns. revert Hsl. induction e as [|x e IH]; intros Hsl a b Hab.
  - symmetry in Hab. apply str_app_eq_nil in Hab as [_ Hab].
    by apply str_app_eq_nil in Hab as [? _].
  - destruct e as [|y e].
    + destruct a as [|z a].
      * rewrite str_app_nil_l, str_app_cons in Hab. by injection Hab.
      * rewrite str_app_cons in Hab. injection Hab as _ Hab. symmetry in Hab.
        apply str_app_eq_nil in Hab as [_ Hab].
        by apply str_app_eq_nil in Hab as [? _].
    + simpl in Hsl. apply andb_true_iff in Hsl as [Hx Hsl].
      destruct a as [|z a].
      * rewrite str_app_nil_l, str_app_cons in Hab. injection Hab as -> _. done.
      * rewrite str_app_cons in Hab. injection Hab as _ Hab. by apply (IH Hsl a b).
Qed.

(** Trimming the slash of a well-formed entry leaves a well-formed
    entry, with no slash at all. *)
Lemma wf_entry_trim x : wf_entry (x +:+ "/") → wf_entry x ∧ HasSuffix x "/" = false.
Proof.
  intros (Hne & Hns & Hsl).
  assert (∀ a b, x ≠ a +:+ "/" +:+ b) as Hno.
  { intros a b ->. specialize (Hsl a (b +:+ "/")).
    rewrite !str_app_assoc in Hsl. specialize (Hsl eq_refl).
    by apply str_app_eq_nil in Hsl as [_ ?]. }
  split.
  - split; [by intros ->|]. split; [|intros a b Hab; by destruct (Hno a b)].
    intros ->. by apply (Hno "" "").
  - destruct (HasSuffix x "/") eqn:Hs; [|done].
    apply HasSuffix_spec in Hs as [y ->]. destruct (Hno y "").
    by rewrite str_app_nil_r.
Qed.

(** The order of two well-formed entries is the order of everything
    listed under them: below a file entry only itself, below a directory
    entry the paths that extend it. *)
Lemma entries_order_extends e1 e2 s1 s2 :
  wf_entry e1 → wf_entry e2 → lt e1 e2 →
  (HasSuffix e1 "/" = false → s1 = "") →
  lt (e1 +:+ s1) (e2 +:+ s2).
Proof.
  intros Hw1 Hw2 Hlt Hs1.
  destruct (HasSuffix e1 "/") eqn:Hdir.
  - apply HasSuffix_spec in Hdir as [x ->].
    apply lt_app_both; [done|]. intros u ->.
    destruct Hw2 as (_ & _ & Hsl). rewrite str_app_assoc in Hsl.
    specialize (Hsl x u eq_refl) as ->. rewrite str_app_nil_r in Hlt.
    by apply lt_irrefl in Hlt.
  - rewrite Hs1, str_app_nil_r by done. by apply lt_app_r.
Qed.
End StringFacts.

(** ** The tree walker *)

Section SearchFacts.
Import Strings TreeWalk.

Lemma half_between (i j : nat) : (i < j → i ≤ (i + j) / 2 < j)%nat.
Proof.
  intros Hij. pose proof (Nat.div_mod_eq (i + j) 2) as Hdm.
  pose proof (Nat.mod_upper_bound (i + j) 2 ltac:(lia)). lia.
Qed.

Lemma searchLoop_S (fuel : nat) (f : nat → bool) (i j : nat) :
  searchLoop (S fuel) f i j =
  if (i <? j)%nat then
    let h := ((i + j) / 2)%nat in
    if negb (f h) then searchLoop fuel f (h + 1) j else searchLoop fuel f i h
  else i.
Proof. done. Qed.

(** [sort.Search] on a monotone predicate. *)
Lemma searchLoop_spec (f : nat → bool) (n : nat) :
  (∀ x y, (x ≤ y < n)%nat → f x = true → f y = true) →
  ∀ fuel i j,
    (i ≤ j ≤ n)%nat → (j - i ≤ fuel)%nat →
    (∀ x, (x < i)%nat → f x = false) →
    (∀ x, (j ≤ x < n)%nat → f x = true) →
    let r := searchLoop fuel f i j in
    (r ≤ n)%nat ∧ (∀ x, (x < r)%nat → f x = false) ∧
    (∀ x, (r ≤ x < n)%nat → f x = true).
Proof.
  intros Hmono. induction fuel as [|fuel IH]; intros i j Hij Hfuel Hlow Hhigh.
  - simpl. assert (i = j) as -> by lia. split; [lia|]. by split.
  - rewrite searchLoop_S. destruct (Nat.ltb_spec i j) as [Hlt|Hge].
    + pose proof (half_between i j Hlt) as Hh. cbv zeta.
      destruct (f ((i + j) / 2)%nat) eqn:Hf; cbn [negb].
      * apply IH; [lia|lia|done|].
        intros x Hx. apply (Hmono ((i + j) / 2)%nat x); [lia|done].
      * apply IH; [lia|lia| |done].
        intros x Hx. destruct (f x) eqn:Hfx; [|done].
        rewrite (Hmono x ((i + j) / 2)%nat) in Hf; [done|lia|done].
    + assert (i = j) as -> by lia. split; [lia|]. by split.
Qed.

Lemma sorted_lookup_le (entries : list string) (x y : nat) (a b : string) :
  StronglySorted lt entries → (x ≤ y)%nat →
  entries !! x = Some a → entries !! y = Some b → String.le a b.
Proof.
  intros Hs. revert x y. induction Hs as [|e l Hs IH Hall]; intros x y Hxy Hx Hy.
  - done.
  - destruct x as [|x], y as [|y]; simpl in *.
    + by simplify_eq.
    + simplify_eq. rewrite Forall_forall in Hall.
      apply le_lt_eq. left. apply Hall. by eapply list_elem_of_lookup_2.
    + lia.
    + eapply IH; [|done..]. lia.
Qed.

(** The binary search of [treeWalk] finds the first entry that is not
    below the directory component of the marker. *)
Lemma search_marker (entries : list string) (markerDir : string) :
  StronglySorted lt entries →
  let idx := sort_Search (length entries)
               (λ i, String.leb markerDir (default "" (entries !! i))) in
  Forall (λ e, lt e markerDir) (take idx entries) ∧
  Forall (λ e, String.le markerDir e) (drop idx entries).
Proof.
  intros Hs idx. unfold sort_Search in idx.
  destruct (searchLoop_spec
              (λ i, String.leb markerDir (default "" (entries !! i)))
              (length entries)) with (fuel := length entries) (i := 0%nat)
              (j := length entries) as (Hr & Hlow & Hhigh).
  - intros x y Hxy Hfx.
    destruct (lookup_lt_is_Some_2 entries x ltac:(lia)) as [a Ha].
    destruct (lookup_lt_is_Some_2 entries y ltac:(lia)) as [b Hb].
    rewrite Ha in Hfx. rewrite Hb. simpl in *.
    apply leb_le. apply leb_le in Hfx. etrans; [done|].
    eapply sorted_lookup_le; [done| |done..]. lia.
  - lia.
  - lia.
  - intros x Hx. lia.
  - intros x Hx. lia.
  - fold idx in Hr, Hlow, Hhigh. split.
    + apply Forall_forall. intros e He.
      apply list_elem_of_lookup in He as [x Hx].
      apply lookup_take_Some in Hx as [Hx Hlt].
      specialize (Hlow x Hlt). rewrite Hx in Hlow. simpl in Hlow.
      apply not_le_lt. intros Hle. apply leb_le in Hle. congruence.
    + apply Forall_forall. intros e He.
      apply list_elem_of_lookup in He as [x Hx]. rewrite lookup_drop in Hx.
      pose proof (lookup_lt_Some _ _ _ Hx) as Hlen.
      specialize (Hhigh (idx + x)%nat ltac:(lia)). rewrite Hx in Hhigh.
      simpl in Hhigh. by apply leb_le.
Qed.
End SearchFacts.

Section ListingFacts.
Import Strings TreeWalk.
Context {W Disk : Type} `{!WalkEnv W Disk}.
Variable isLeaf : string → string → W → bool * W.

Lemma filterEntries_processed (bucket prefixDir : string)
    (filter : string → bool) (entries : list string) (s : W * list walkEvent) :
  Forall2 processed entries
          (filterEntries isLeaf bucket prefixDir filter entries s).1.
Proof.
  revert s. induction entries as [|e entries IH]; intros s; simpl.
  - constructor.
  - destruct (filter e).
    + io_unfold. specialize (IH s).
      destruct (filterEntries _ _ _ _ entries s) as [rest' s'].
      constructor; [by left | done].
    + io_unfold. destruct (HasSuffix e slashSeparator) eqn:Hsuf.
      * destruct s as [w log].
        destruct (isLeaf bucket (pathJoin prefixDir e) w) as [leaf w1].
        specialize (IH (w1, log ++ [EvIsLeaf bucket (pathJoin prefixDir e)])).
        destruct (filterEntries _ _ _ _ entries _) as [rest' s'].
        constructor; [|done]. destruct leaf; [|by right; left].
        right; right. apply HasSuffix_spec in Hsuf as [x ->].
        exists x. by rewrite TrimSuffix_app.
      * specialize (IH s).
        destruct (filterEntries _ _ _ _ entries s) as [rest' s'].
        constructor; [by right; left | done].
Qed.

Lemma processed_wf (e e' : string) :
  wf_entry e → processed e e' → e' = "" ∨ wf_entry e'.
Proof.
  intros Hwf [->|[->|(x & -> & ->)]]; [by left | by right |].
  right. by apply wf_entry_trim in Hwf as [? _].
Qed.

Lemma processed_trim (e e' : string) :
  wf_entry e → processed e e' → e' ≠ "" →
  TrimSuffix e' slashSeparator = TrimSuffix e slashSeparator.
Proof.
  intros Hwf [->|[->|(x & -> & ->)]] Hne; [done|done|].
  unfold slashSeparator. rewrite TrimSuffix_app.
  apply wf_entry_trim in Hwf as [_ Hsuf]. by apply TrimSuffix_none.
Qed.

Lemma processed_sublist (raw done' : list string) :
  Forall wf_entry raw → Forall2 processed raw done' →
  (λ e, TrimSuffix e slashSeparator) <$> filter (λ e, e ≠ "") done'
    `sublist_of` (λ e, TrimSuffix e slashSeparator) <$> raw.
Proof.
  intros Hwf Hp. induction Hp as [|e e' raw done' Hee' Hp IH]; simpl.
  - constructor.
  - apply Forall_cons in Hwf as [Hwe Hwf]. specialize (IH Hwf).
    destruct (decide (e' = "")) as [->|Hne].
    + rewrite filter_cons_False by (by intros ?). by constructor.
    + rewrite filter_cons_True by done. simpl.
      rewrite (processed_trim e e') by done. by constructor.
Qed.

Lemma skipEmpty_sorted (l : list string) :
  StronglySorted String.le l → skipEmpty l = filter (λ e, e ≠ "") l.
Proof.
  induction 1 as [|e l Hs IH Hall]; simpl; [done|].
  destruct (String.eqb e "") eqn:He.
  - apply eqb_true in He as ->. by rewrite filter_cons_False by (by intros ?).
  - assert (e ≠ "") as Hne by (intros ->; done).
    rewrite filter_cons_True by done. f_equal.
    clear IH Hs. induction Hall as [|x l Hx Hall IH]; [done|].
    rewrite filter_cons_True; [by f_equal|].
    intros ->. apply le_lt_eq in Hx as [Hx| ->]; [|done].
    by apply lt_nil in Hx.
Qed.

Lemma StronglySorted_filter_le (P : string → Prop) `{∀ x, Decision (P x)}
    (l : list string) :
  StronglySorted String.le l → StronglySorted String.le (filter P l).
Proof.
  induction 1 as [|e l Hs IH Hall]; [constructor|].
  destruct (decide (P e)).
  - rewrite filter_cons_True by done. constructor; [done|].
    apply Forall_forall. intros x [_ Hx]%list_elem_of_filter.
    rewrite Forall_forall in Hall. by apply Hall.
  - by rewrite filter_cons_False.
Qed.

Lemma sorted_nodup_strict (l : list string) :
  StronglySorted String.le l → NoDup l → StronglySorted lt l.
Proof.
  induction 1 as [|e l Hs IH Hall]; intros Hnd; [constructor|].
  apply NoDup_cons in Hnd as [Hni Hnd]. constructor; [by apply IH|].
  apply Forall_forall. intros x Hx. rewrite Forall_forall in Hall.
  apply lt_le_ne. split; [by apply Hall|]. by intros ->.
Qed.

(** What [listDir] returns for a listing that a file system can give:
    the entries in strictly increasing order, each of them well formed. *)
Lemma listed_sorted (raw done' : list string) :
  listing_ok raw → Forall2 processed raw done' →
  StronglySorted lt (skipEmpty (sort_Strings done')) ∧
  Forall wf_entry (skipEmpty (sort_Strings done')).
Proof.
  intros [Hwf Hnd] Hp.
  assert (Forall wf_entry raw) as Hwf'.
  { eapply Forall_impl; [done|]. intros e. apply wfEntry_spec. }
  assert (StronglySorted String.le (sort_Strings done')) as Hs.
  { apply StronglySorted_merge_sort; apply _. }
  assert (sort_Strings done' ≡ₚ done') as Hperm by apply merge_sort_Permutation.
  rewrite skipEmpty_sorted by done. split.
  - apply sorted_nodup_strict; [by apply StronglySorted_filter_le|].
    rewrite Hperm.
    apply (NoDup_fmap_1 (λ e, TrimSuffix e slashSeparator)).
    eapply sublist_NoDup; [done | by apply processed_sublist].
  - apply Forall_forall. intros e' [Hne Hin]%list_elem_of_filter.
    rewrite Hperm in Hin.
    apply list_elem_of_lookup in Hin as [i Hi].
    destruct (Forall2_lookup_r _ _ _ _ _ Hp Hi) as (e & He & Hee').
    rewrite Forall_forall in Hwf'.
    destruct (processed_wf e e'); [|done|done|done].
    apply Hwf'. by eapply list_elem_of_lookup_2.
Qed.

Lemma listDir_sorted (bucket prefixDir : string) (filter : string → bool)
    (s : W * list walkEvent) :
  listings_ok →
  let '(entries, err) := (listDir isLeaf bucket prefixDir filter s).1 in
  (err ≠ None → entries = []) ∧
  StronglySorted lt entries ∧ Forall wf_entry entries.
Proof.
  intros Hok. unfold listDir. io_unfold. destruct s as [w log].
  destruct (getLoadBalancedQuorumDisks w) as [disks w1].
  generalize (w1, log). clear w w1 log. intros s.
  induction disks as [|[disk|] disks IH]; simpl.
  - split; [done|]. split; constructor.
  - io_unfold. destruct s as [w log].
    destruct (disk_ListDir disk bucket prefixDir w) as [[raw [e|]] w1] eqn:Hl.
    + simpl. split; [done|]. split; constructor.
    + pose proof (filterEntries_processed bucket prefixDir filter raw
                    (w1, log ++ [EvListDir bucket prefixDir])) as Hp.
      destruct (filterEntries _ _ _ _ raw _) as [done' s']. simpl in *.
      split; [done|]. eapply listed_sorted; [by eapply Hok | done].
  - apply IH.
Qed.
End ListingFacts.

Section WalkFacts.
Import Strings TreeWalk.
Context {W Disk : Type} `{!WalkEnv W Disk}.
Variable isLeaf : string → string → W → bool * W.
Hypothesis Hjoin : pathJoin_ok.
Hypothesis Hlist : listings_ok.

Lemma pubEntries_app (a b : list treeWalkResult) :
  pubEntries (a ++ b) = pubEntries a ++ pubEntries b.
Proof. unfold pubEntries. by rewrite filter_app, fmap_app. Qed.

Lemma send_published (r : treeWalkResult) (ws : walkState) (s : W * list walkEvent) :
  ∃ new, published (send r ws s).1.2 = published ws ++ new ∧
         (new = [] ∨ ∃ r', new = [r'] ∧ entry r' = entry r ∧ err r' = err r) ∧
         ((send r ws s).1.1 = false → new = []).
Proof.
  unfold send. io_unfold. destruct s as [w log].
  destruct (chan_send _ w) as [[|] w']; simpl.
  - eexists. split; [done|]. split; [|done]. right. eexists. split; [done|].
    by destruct (count ws =? 0).
  - exists []. by rewrite app_nil_r; split; [|split; [left|]].
Qed.

Lemma dirLike_app_dir (prefixDir e : string) :
  HasSuffix e slashSeparator = true → dirLike (prefixDir +:+ e).
Proof.
  intros [x ->]%HasSuffix_spec. right. exists (prefixDir +:+ x).
  by rewrite str_app_assoc.
Qed.

(** An entry other than the directory component of the marker, and not
    below it, is above the marker, with all that is listed under it. *)
Lemma above_marker (marker markerDir markerBase e t : string) :
  splitMarker marker = (markerDir, markerBase) →
  wf_entry e → String.le markerDir e → e ≠ markerDir →
  lt marker (e +:+ t).
Proof.
  intros [-> Hbase]%splitMarker_spec Hwf Hle Hne.
  assert (lt markerDir e) as Hlt by (apply lt_le_ne; split; [done|congruence]).
  destruct Hbase as [->|[x ->]].
  - rewrite str_app_nil_r. by apply lt_app_r.
  - apply lt_app_both; [done|]. intros u ->.
    destruct Hwf as (_ & _ & Hsl). rewrite str_app_assoc in Hsl.
    specialize (Hsl x u eq_refl) as ->. by rewrite str_app_nil_r in Hne.
Qed.

Lemma walkEntries_spec
    (walkDir : string → string → walkState → IO W walkEvent (walkExit * walkState))
    (prefixDir marker markerDir markerBase : string) (recursive : bool) :
  dirLike prefixDir →
  splitMarker marker = (markerDir, markerBase) →
  (∀ dir m ws s, dirLike dir → walk_spec dir m ws (walkDir dir m ws s).1.2) →
  ∀ (entries : list string) (i : nat) (ws : walkState) (s : W * list walkEvent),
    StronglySorted lt entries → Forall wf_entry entries →
    Forall (String.le markerDir) entries →
    (i ≠ 0%nat → Forall (lt markerDir) entries) →
    ∃ new,
      published (walkEntries walkDir prefixDir markerDir markerBase recursive
                             entries i ws s).1.2 = published ws ++ new ∧
      StronglySorted lt (pubEntries new) ∧
      Forall (λ p, ∃ e t, e ∈ entries ∧ p = prefixDir +:+ e +:+ t ∧
                          (HasSuffix e slashSeparator = false → t = "") ∧
                          lt marker (e +:+ t)) (pubEntries new).
Proof.
  intros Hdir Hsplit Hrec.
  induction entries as [|e0 rest IH]; intros i ws s Hsorted Hwf Hle Hpos.
  { exists []. simpl. rewrite app_nil_r. by repeat split; constructor. }
  apply StronglySorted_inv in Hsorted as [Hsorted Hhead].
  apply Forall_cons in Hwf as [Hwf0 Hwf].
  apply Forall_cons in Hle as [Hle0 Hle].
  assert (Forall (lt markerDir) rest) as Hrest.
  { eapply Forall_impl; [exact Hhead|]. intros x Hx. by eapply le_lt_trans. }
  (* Results of the rest go after the results of the head. *)
  assert (∀ new1 new2,
    StronglySorted lt (pubEntries new1) →
    Forall (λ p, ∃ t, p = prefixDir +:+ e0 +:+ t ∧
                      (HasSuffix e0 slashSeparator = false → t = "") ∧
                      lt marker (e0 +:+ t)) (pubEntries new1) →
    StronglySorted lt (pubEntries new2) →
    Forall (λ p, ∃ e t, e ∈ rest ∧ p = prefixDir +:+ e +:+ t ∧
                        (HasSuffix e slashSeparator = false → t = "") ∧
                        lt marker (e +:+ t)) (pubEntries new2) →
    StronglySorted lt (pubEntries (new1 ++ new2)) ∧
    Forall (λ p, ∃ e t, e ∈ e0 :: rest ∧ p = prefixDir +:+ e +:+ t ∧
                        (HasSuffix e slashSeparator = false → t = "") ∧
                        lt marker (e +:+ t)) (pubEntries (new1 ++ new2))) as Hglue.
  { intros new1 new2 Hs1 Hf1 Hs2 Hf2. rewrite pubEntries_app. split.
    - apply StronglySorted_app. split; [|done].
      intros p1 p2 Hp1 Hp2. rewrite Forall_forall in Hf1, Hf2.
      destruct (Hf1 p1 Hp1) as (t1 & -> & Ht1 & _).
      destruct (Hf2 p2 Hp2) as (e & t2 & He & -> & _ & _).
      apply lt_app_l. rewrite Forall_forall in Hhead, Hwf.
      apply entries_order_extends; [done|by apply Hwf|by apply Hhead|done].
    - apply Forall_app. split.
      + eapply Forall_impl; [exact Hf1|]. intros p (t & -> & ? & ?).
        exists e0, t. split; [left|done].
      + eapply Forall_impl; [exact Hf2|]. intros p (e & t & ? & -> & ? & ?).
        exists e, t. split; [by right|done]. }
  assert (∀ ws1 s1,
    published ws1 = published ws →
    ∃ new,
      published (walkEntries walkDir prefixDir markerDir markerBase recursive
                             rest (S i) ws1 s1).1.2 = published ws ++ new ∧
      StronglySorted lt (pubEntries new) ∧
      Forall (λ p, ∃ e t, e ∈ e0 :: rest ∧ p = prefixDir +:+ e +:+ t ∧
                          (HasSuffix e slashSeparator = false → t = "") ∧
                          lt marker (e +:+ t)) (pubEntries new)) as Hskip.
  { intros ws1 s1 Hpub.
    destruct (IH (S i) ws1 s1 Hsorted Hwf Hle (λ _, Hrest)) as (new & Hn & Hs & Hf).
    exists new. rewrite Hn, Hpub. split; [done|]. split; [done|].
    eapply Forall_impl; [exact Hf|]. intros p (e & t & ? & ?).
    exists e, t. split; [by right|done]. }
  simpl.
  destruct ((i =? 0)%nat && String.eqb markerDir e0 &&
            (negb recursive || recursive && negb (HasSuffix e0 slashSeparator)))
    eqn:Hc1.
  { by apply Hskip. }
  destruct (recursive && HasSuffix e0 slashSeparator) eqn:Hc2.
  - (* A directory to walk into. *)
    apply andb_true_iff in Hc2 as [-> Hsuf].
    io_unfold. rewrite Hjoin by done.
    pose proof (Hrec (prefixDir +:+ e0)
                  (if String.eqb e0 markerDir then markerBase else "")
                  (add_count ws (-1)) s (dirLike_app_dir _ _ Hsuf))
      as (new1 & Hn1 & Hs1 & Hf1).
    destruct (walkDir _ _ _ s) as [[r ws1] s1]. simpl in Hn1.
    assert (Forall (λ p, ∃ t, p = prefixDir +:+ e0 +:+ t ∧
                      (HasSuffix e0 slashSeparator = false → t = "") ∧
                      lt marker (e0 +:+ t)) (pubEntries new1)) as Hf1'.
    { eapply Forall_impl; [exact Hf1|]. intros p (t & -> & Ht).
      exists t. rewrite str_app_assoc. split; [done|]. split; [congruence|].
      destruct (String.eqb e0 markerDir) eqn:He.
      - apply eqb_true in He as ->.
        apply splitMarker_spec in Hsplit as [-> _]. by apply lt_app_l.
      - eapply above_marker; [done..|]. intros ->. by rewrite String.eqb_refl in He. }
    assert (∃ new, published ws1 = published ws ++ new ∧
              StronglySorted lt (pubEntries new) ∧
              Forall (λ p, ∃ e t, e ∈ e0 :: rest ∧ p = prefixDir +:+ e +:+ t ∧
                          (HasSuffix e slashSeparator = false → t = "") ∧
                          lt marker (e +:+ t)) (pubEntries new)) as Hstop.
    { exists new1. split; [done|]. split; [done|].
      eapply Forall_impl; [exact Hf1'|]. intros p (t & ? & ?).
      exists e0, t. split; [left|done]. }
    destruct r as [[|]|]; simpl; [|done|done].
    destruct (IH (S i) ws1 s1 Hsorted Hwf Hle (λ _, Hrest)) as (new2 & Hn2 & Hs2 & Hf2).
    exists (new1 ++ new2). rewrite Hn2, Hn1. simpl. rewrite <- (assoc (++)).
    split; [done|]. by apply Hglue.
  - (* An entry to publish. *)
    assert (e0 ≠ markerDir) as Hne.
    { intros ->. rewrite String.eqb_refl, andb_true_r in Hc1.
      destruct (Nat.eqb_spec i 0) as [->|Hi].
      - simpl in Hc1. destruct recursive, (HasSuffix markerDir slashSeparator);
          simpl in *; congruence.
      - specialize (Hpos Hi). apply Forall_cons in Hpos as [Hirr _].
        by apply lt_irrefl in Hirr. }
    io_unfold. rewrite Hjoin by done.
    pose proof (send_published
                  {| entry := prefixDir +:+ e0; err := None; end' := false |}
                  (add_count ws (-1)) s) as (new1 & Hn1 & Hshape & Hfalse).
    destruct (send _ _ s) as [[ok ws1] s1]. simpl in Hn1, Hfalse.
    assert (StronglySorted lt (pubEntries new1) ∧
            Forall (λ p, ∃ t, p = prefixDir +:+ e0 +:+ t ∧
                      (HasSuffix e0 slashSeparator = false → t = "") ∧
                      lt marker (e0 +:+ t)) (pubEntries new1)) as [Hs1 Hf1].
    { destruct Hshape as [->|(r' & -> & Hre & Hrr)].
      - split; constructor.
      - unfold pubEntries. simpl in *.
        rewrite filter_cons_True by done. simpl. rewrite Hre.
        split; [repeat constructor|]. constructor; [|constructor].
        exists "". rewrite str_app_nil_r. split; [done|]. split; [done|].
        rewrite <- (str_app_nil_r e0). by eapply above_marker. }
    destruct ok; simpl.
    + destruct (IH (S i) ws1 s1 Hsorted Hwf Hle (λ _, Hrest))
        as (new2 & Hn2 & Hs2 & Hf2).
      exists (new1 ++ new2). rewrite Hn2, Hn1. simpl. rewrite <- (assoc (++)).
      split; [done|]. by apply Hglue.
    + rewrite (Hfalse eq_refl) in Hn1. exists []. rewrite Hn1. simpl.
      by repeat split; constructor.
Qed.

Lemma treeWalk_spec (bucket : string) (recursive : bool) :
  ∀ (depth : nat) (prefixDir entryPrefixMatch marker : string)
    (ws : walkState) (s : W * list walkEvent),
    dirLike prefixDir →
    walk_spec prefixDir marker ws
      (treeWalk isLeaf depth bucket prefixDir entryPrefixMatch marker
                recursive ws s).1.2.
Proof.
  induction depth as [|depth IH];
    intros prefixDir entryPrefixMatch marker ws s Hdir.
  { exists []. simpl. rewrite app_nil_r. by repeat split; constructor. }
  simpl. destruct (splitMarker marker) as [markerDir markerBase] eqn:Hsplit.
  io_unfold.
  pose proof (listDir_sorted isLeaf bucket prefixDir
                (λ entry, negb (HasPrefix entry entryPrefixMatch)) s Hlist) as Hl.
  destruct (listDir _ _ _ _ s) as [[entries [e|]] s1]; simpl in Hl.
  - pose proof (send_published {| entry := ""; err := Some e; end' := false |}
                  ws s1) as (new & Hn & Hshape & _).
    destruct (send _ ws s1) as [[ok ws1] s2]. simpl in *.
    exists new. split; [done|].
    assert (pubEntries new = []) as ->.
    { destruct Hshape as [->|(r' & -> & _ & Hrr)]; [done|].
      unfold pubEntries. rewrite filter_cons_False; [done|].
      simpl in Hrr. by rewrite Hrr. }
    split; constructor.
  - destruct Hl as (_ & Hsorted & Hwf).
    destruct (Nat.eqb_spec (length entries) 0).
    { exists []. simpl. rewrite app_nil_r. by repeat split; constructor. }
    pose proof (search_marker entries markerDir Hsorted) as [_ Hge].
    set (idx := sort_Search _ _) in *.
    destruct (walkEntries_spec
                (λ dir markerArg ws0,
                   treeWalk isLeaf depth bucket dir "" markerArg recursive ws0)
                prefixDir marker markerDir markerBase recursive Hdir Hsplit
                (λ dir m ws0 s0 Hd, IH dir "" m ws0 s0 Hd)
                (drop idx entries) 0
                (add_count ws (len (drop idx entries))) s1)
      as (new & Hn & Hs & Hf).
    + rewrite <- (take_drop idx entries) in Hsorted.
      by apply StronglySorted_app in Hsorted as (_ & _ & ?).
    + rewrite <- (take_drop idx entries) in Hwf.
      by apply Forall_app in Hwf as [_ ?].
    + done.
    + done.
    + exists new. split; [done|]. split; [done|].
      eapply Forall_impl; [exact Hf|]. intros p (e & t & _ & -> & _ & Hlt).
      by exists (e +:+ t).
Qed.
End WalkFacts.

Section StartWalkFacts.
Import Strings TreeWalk.
Context {W Disk : Type} `{!WalkEnv W Disk}.
Variable isLeaf : string → string → W → bool * W.

Lemma lastIndexFrom_spec (pos : nat) (s sep : string) (last : Z) :
  lastIndexFrom pos s sep last = last ∨
  ∃ k, lastIndexFrom pos s sep last = Z.of_nat (pos + k) ∧
       HasPrefix (dropStr k s) sep = true.
Proof.
  revert pos last. induction s as [|x s IH]; intros pos last; simpl.
  - destruct (HasPrefix "" sep) eqn:Hp; [|by left].
    right. exists 0%nat. by rewrite Nat.add_0_r.
  - destruct (IH (S pos)
                (if HasPrefix (String x s) sep then Z.of_nat pos else last))
      as [Heq|(k & Heq & Hk)].
    + rewrite Heq. destruct (HasPrefix (String x s) sep) eqn:Hp; [|by left].
      right. exists 0%nat. by rewrite Nat.add_0_r.
    + right. exists (S k). rewrite Heq. split; [f_equal; lia|done].
Qed.

Lemma takeStr_S (k : nat) (s t : string) (c : Ascii.ascii) :
  dropStr k s = String c t → takeStr (S k) s = takeStr k s +:+ String c "".
Proof.
  revert s. induction k as [|k IH]; intros s Hd.
  - simpl in Hd. by subst s.
  - destruct s as [|y s]; [done|]. simpl in Hd.
    change (takeStr (S (S k)) (String y s)) with (String y (takeStr (S k) s)).
    rewrite (IH s Hd). done.
Qed.

(** The directory of a prefix, as [startTreeWalk] splits it off. *)
Lemma prefix_split (prefix : string) :
  let lastIndex := LastIndex prefix slashSeparator in
  let prefixDir := if negb (lastIndex =? -1)
                   then takeStr (Z.to_nat (lastIndex + 1)) prefix else "" in
  dirLike prefixDir ∧ ∃ rest, prefix = prefixDir +:+ rest.
Proof.
  intros lastIndex prefixDir. subst prefixDir lastIndex. unfold LastIndex.
  destruct (lastIndexFrom_spec 0 prefix slashSeparator (-1)) as [->|(k & -> & Hk)].
  - simpl. split; [by left | by exists prefix].
  - assert (negb (Z.of_nat (0 + k) =? -1) = true) as ->
      by (apply negb_true_iff, Z.eqb_neq; lia).
    replace (Z.to_nat (Z.of_nat (0 + k) + 1)) with (S k) by lia.
    apply HasPrefix_spec in Hk as [t Ht]. unfold slashSeparator in Ht.
    rewrite str_app_cons, str_app_nil_l in Ht.
    rewrite (takeStr_S k prefix t "/"%char Ht). split.
    + right. by eexists.
    + exists (dropStr (S k) prefix).
      by rewrite <- (takeStr_S k prefix t "/"%char Ht), take_drop_str.
Qed.

(** C6.  With disks that list like a file system and [pathJoin]
    appending entries to directory prefixes, every walk publishes its
    entries in strictly increasing order, and each of them lies above the
    marker (so it is at least the marker and is not the marker, which the
    previous page delivered): for [treeWalk] relative to its directory, for
    a listing started by [startTreeWalk] with an empty marker or one that
    begins with the prefix.  On the way, [listDir] returns the entries of a
    directory in strictly increasing order, and the binary search drops
    exactly the entries below the directory component of the marker. *)
Theorem treeWalk_ordered (depth : nat) (bucket : string) (recursive : bool) :
  pathJoin_ok → listings_ok →
  (∀ prefixDir entryPrefixMatch marker ws s,
     dirLike prefixDir →
     ∃ new,
       published (treeWalk isLeaf depth bucket prefixDir entryPrefixMatch marker
                           recursive ws s).1.2 = published ws ++ new ∧
       StronglySorted lt (pubEntries new) ∧
       Forall (λ p, String.le (prefixDir +:+ marker) p ∧ p ≠ prefixDir +:+ marker)
              (pubEntries new)) ∧
  (∀ prefix marker s,
     marker = "" ∨ HasPrefix marker prefix = true →
     let pub := pubEntries (published
                  (startTreeWalk isLeaf depth bucket prefix marker recursive s).1.2) in
     StronglySorted lt pub ∧
     Forall (λ p, String.le marker p ∧ p ≠ marker) pub) ∧
  (∀ prefixDir filter s,
     StronglySorted lt (listDir isLeaf bucket prefixDir filter s).1.1) ∧
  (∀ entries markerDir,
     StronglySorted lt entries →
     let idx := sort_Search (length entries)
                  (λ i, String.leb markerDir (default "" (entries !! i))) in
     Forall (λ e, lt e markerDir) (take idx entries) ∧
     Forall (λ e, String.le markerDir e) (drop idx entries)).
Proof.
  intros Hjoin Hlist.
  assert (∀ prefixDir entryPrefixMatch marker ws s,
     dirLike prefixDir →
     ∃ new,
       published (treeWalk isLeaf depth bucket prefixDir entryPrefixMatch marker
                           recursive ws s).1.2 = published ws ++ new ∧
       StronglySorted lt (pubEntries new) ∧
       Forall (λ p, lt (prefixDir +:+ marker) p) (pubEntries new)) as Hwalk.
  { intros prefixDir entryPrefixMatch marker ws s Hdir.
    destruct (treeWalk_spec isLeaf Hjoin Hlist bucket recursive depth prefixDir
                entryPrefixMatch marker ws s Hdir) as (new & Hn & Hs & Hf).
    exists new. split; [done|]. split; [done|].
    eapply Forall_impl; [exact Hf|]. intros p (t & -> & Ht). by apply lt_app_l. }
  split; [|split; [|split]].
  - intros prefixDir entryPrefixMatch marker ws s Hdir.
    destruct (Hwalk prefixDir entryPrefixMatch marker ws s Hdir)
      as (new & Hn & Hs & Hf).
    exists new. split; [done|]. split; [done|].
    eapply Forall_impl; [exact Hf|]. intros p Hp.
    apply lt_le_ne in Hp as [? ?]. split; [done|congruence].
  - intros prefix marker s Hmarker. unfold startTreeWalk.
    destruct (prefix_split prefix) as [Hdir [rest Hrest]].
    destruct (negb (LastIndex prefix slashSeparator =? -1)) eqn:Hidx.
    + set (prefixDir := takeStr _ prefix) in *. clearbody prefixDir.
      destruct (Hwalk prefixDir
                  (dropStr (Z.to_nat (LastIndex prefix slashSeparator + 1)) prefix)
                  (TrimPrefix marker prefixDir)
                  {| count := 0; published := []; walkTimedOut := false |} s Hdir)
        as (new & Hn & Hs & Hf).
      simpl in Hn. cbv zeta. rewrite Hn. split; [done|].
      eapply Forall_impl; [exact Hf|]. intros p Hp.
      assert (lt marker p) as Hlt.
      { destruct Hmarker as [->|Hpre].
        - apply nil_lt. intros ->. by apply lt_nil in Hp.
        - apply HasPrefix_spec in Hpre as [t ->].
          rewrite Hrest, str_app_assoc in Hp |- *.
          by rewrite TrimPrefix_app in Hp. }
      apply lt_le_ne in Hlt as [? ?]. split; [done|congruence].
    + destruct (Hwalk "" prefix (TrimPrefix marker "")
                  {| count := 0; published := []; walkTimedOut := false |} s Hdir)
        as (new & Hn & Hs & Hf).
      simpl in Hn. cbv zeta. rewrite Hn. split; [done|].
      eapply Forall_impl; [exact Hf|]. intros p Hp.
      rewrite str_app_nil_l in Hp.
      change (TrimPrefix marker "") with marker in Hp.
      apply lt_le_ne in Hp as [? ?]. split; [done|congruence].
  - intros prefixDir filter s.
    pose proof (listDir_sorted isLeaf bucket prefixDir filter s Hlist) as Hl.
    destruct (listDir _ _ _ _ s) as [[entries e] s1]. simpl in *. tauto.
  - intros entries markerDir Hs. by apply search_marker.
Qed.
End StartWalkFacts.

Lemma demo_pathJoin_ok : TreeWalk.pathJoin_ok (WalkEnv0 := Demo.demoWalkEnv).
Proof. by intros d e _. Qed.

Lemma demo_listings_ok : TreeWalk.listings_ok (WalkEnv0 := Demo.demoWalkEnv).
Proof.
  intros disk bucket prefixDir w w' entries. simpl.
  repeat (destruct (String.eqb prefixDir _)); intros [= <- _];
    (split; [by repeat constructor|]);
    apply (bool_decide_unpack _); by vm_compute.
Qed.

Lemma treeWalk_ordered_witness :
  TreeWalk.pathJoin_ok (WalkEnv0 := Demo.demoWalkEnv) ∧
  TreeWalk.listings_ok (WalkEnv0 := Demo.demoWalkEnv) ∧
  ("a.txt" = "" ∨ Strings.HasPrefix "a.txt" "" = true) ∧
  StronglySorted Strings.lt
    (TreeWalk.pubEntries (TreeWalk.published
       (TreeWalk.startTreeWalk Demo.demoIsLeaf 5 "bucket" "" "a.txt" true
                               ((), [])).1.2)) ∧
  Forall (λ p, String.le "a.txt" p ∧ p ≠ "a.txt")
    (TreeWalk.pubEntries (TreeWalk.published
       (TreeWalk.startTreeWalk Demo.demoIsLeaf 5 "bucket" "" "a.txt" true
                               ((), [])).1.2)).
Proof.
  split; [exact demo_pathJoin_ok|]. split; [exact demo_listings_ok|].
  assert ("a.txt" = "" ∨ Strings.HasPrefix "a.txt" "" = true) as Hm by (by right).
  split; [done|].
  destruct (treeWalk_ordered Demo.demoIsLeaf 5 "bucket" true
              demo_pathJoin_ok demo_listings_ok) as (_ & Hstart & _).
  exact (Hstart "" "a.txt" ((), []) Hm).
Defined.

Example startTreeWalk_demo_run :
  TreeWalk.pubEntries (TreeWalk.published
    (TreeWalk.startTreeWalk Demo.demoIsLeaf 5 "bucket" "" "a.txt" true
                            ((), [])).1.2) =
  ["docs"; "photos/2016/jan.jpg"; "photos/cat.jpg"; "z.txt"].
Proof. by vm_compute. Qed.

Example startTreeWalk_demo_page :
  TreeWalk.pubEntries (TreeWalk.published
    (TreeWalk.startTreeWalk Demo.demoIsLeaf 5 "bucket" "photos/" "photos/2016/"
                            false ((), [])).1.2) =
  ["photos/cat.jpg"].
Proof. by vm_compute. Qed.

(* ===================================================================== *)
(** * Part III: further properties of the layer, the read path and the
      walker *)
(* ===================================================================== *)

(** ** The file methods of the storage layer *)

Section LayerFacts.
Import Strings XL.
Context {W Encoder Disk : Type} `{!StorageAPI W Disk} `{!Helpers W}.

Lemma countErrs_replicate_None (n : nat) : countErrs (replicate n None) = 0.
Proof. induction n as [|n IH]; simpl; lia. Qed.

Lemma renameFanOut_cleared (sv sp dv dp : string) (disks : list (option Disk))
    (index n : nat) (s : W * list xlEvent) :
  Forall is_Some disks →
  ∃ w', renameFanOut sv sp dv dp disks index (replicate n None) s =
        (Returned (replicate n None),
         (w', s.2 ++ (EvDiskRenameFile <$> seq index (length disks)))).
Proof.
  intros Hall. revert index s.
  induction Hall as [|d rest [disk ->] _ IH]; intros index [w log]; simpl.
  - exists w. by rewrite app_nil_r.
  - io_unfold. destruct (disk_RenameFile disk sv _ dv _ w) as [err w1].
    assert (<[index:=None]>
              (match err with
               | Some _ => <[index:=err]> (replicate n None)
               | None => replicate n None
               end) = replicate n (@None error)) as ->.
    { destruct err; rewrite ?list_insert_insert_eq, insert_replicate; done. }
    destruct (IH (S index) (w1, log ++ [EvDiskRenameFile index])) as [w' ->].
    exists w'. simpl. by rewrite <- app_assoc.
Qed.

(** X1.  With valid names, no nil disk and a write quorum of at most
    [N], [RenameFile] returns [nil] whatever the disks answer: every task
    of the fan-out ends by storing [nil] in its slot, so the gathered
    slice holds no error.  The run is one rename on every disk, in the
    order of the indices, and no delete. *)
Theorem RenameFile_errors_discarded (xl : XL Encoder Disk)
    (srcVolume srcPath dstVolume dstPath : string) (w : W) (log : list xlEvent) :
  isValidVolname srcVolume = true → isValidPath srcPath = true →
  isValidVolname dstVolume = true → isValidPath dstPath = true →
  Forall is_Some (storageDisks xl) →
  writeQuorum xl ≤ len (storageDisks xl) →
  ∃ w', RenameFile xl srcVolume srcPath dstVolume dstPath (w, log) =
        (Returned None,
         (w', log ++ (EvDiskRenameFile <$> seq 0 (length (storageDisks xl))))).
Proof.
  intros Hsv Hsp Hdv Hdp Hall Hwq. unfold RenameFile.
  rewrite Hsv, Hsp, Hdv, Hdp. simpl. io_unfold.
  destruct (renameFanOut_cleared srcVolume srcPath dstVolume dstPath
              (storageDisks xl) 0 (length (storageDisks xl)) (w, log) Hall)
    as [w' ->].
  exists w'. unfold renameVerdict. rewrite countErrs_replicate_None.
  assert ((0 >? len (storageDisks xl) - writeQuorum xl) = false) as ->.
  { rewrite Z.gtb_ltb. apply Z.ltb_ge. lia. }
  done.
Qed.

Lemma deleteLoop_all_ok (xl : XL Encoder Disk) (volume path : string)
    (disks : list (option Disk)) (index : nat) (errCount : Z)
    (s : W * list xlEvent) :
  Forall is_Some disks →
  (∀ d v p w, (disk_DeleteFile d v p w).1 = None) →
  ∃ w', deleteLoop xl volume path disks index errCount s =
        (Returned None,
         (w', s.2 ++ mjoin ((λ i, [EvDiskDeleteFile i volume
                                     (path_Join path (sprintf_file i));
                                   EvDiskDeleteFile i volume
                                     (path_Join path "file.json")])
                            <$> seq index (length disks)))).
Proof.
  intros Hall Hok. revert index s.
  induction Hall as [|d rest [disk ->] _ IH]; intros index [w log]; simpl.
  - exists w. by rewrite app_nil_r.
  - io_unfold.
    pose proof (Hok disk volume (path_Join path (sprintf_file index)) w) as H1.
    destruct (disk_DeleteFile disk volume _ w) as [e1 w1]. simpl in H1. subst e1.
    pose proof (Hok disk volume (path_Join path "file.json") w1) as H2.
    destruct (disk_DeleteFile disk volume _ w1) as [e2 w2]. simpl in H2. subst e2.
    destruct (IH (S index)
                (w2, (log ++ [EvDiskDeleteFile index volume
                                (path_Join path (sprintf_file index))]) ++
                     [EvDiskDeleteFile index volume (path_Join path "file.json")]))
      as [w' ->].
    exists w'. simpl. by rewrite <- !app_assoc.
Qed.

(** X2.  With valid names and no nil disk, if no delete fails then
    [DeleteFile] returns [nil] after two deletes on every disk, in the
    order of the indices: first the part file [file.<index>] of the disk,
    then the metadata file [file.json]. *)
Theorem DeleteFile_all_succeed (xl : XL Encoder Disk) (volume path : string)
    (w : W) (log : list xlEvent) :
  isValidVolname volume = true → isValidPath path = true →
  Forall is_Some (storageDisks xl) →
  (∀ d v p w, (disk_DeleteFile d v p w).1 = None) →
  ∃ w', DeleteFile xl volume path (w, log) =
        (Returned None,
         (w', log ++ mjoin ((λ i, [EvDiskDeleteFile i volume
                                     (path_Join path (sprintf_file i));
                                   EvDiskDeleteFile i volume
                                     (path_Join path "file.json")])
                            <$> seq 0 (length (storageDisks xl))))).
Proof.
  intros Hv Hp Hall Hok. unfold DeleteFile, deleteXLFiles. rewrite Hv, Hp. simpl.
  apply (deleteLoop_all_ok xl volume path (storageDisks xl) 0 0 (w, log) Hall Hok).
Qed.

Lemma deleteLoop_nil_visits (xl : XL Encoder Disk) (volume path : string)
    (disks : list (option Disk)) (index : nat) (errCount : Z)
    (s : W * list xlEvent) :
  io_val (deleteLoop xl volume path disks index errCount s) = Returned None →
  Forall is_Some disks ∧
  ∃ new, io_log (deleteLoop xl volume path disks index errCount s) = s.2 ++ new ∧
         ∀ j, (j < length disks)%nat →
              EvDiskDeleteFile (index + j) volume
                (path_Join path (sprintf_file (index + j))) ∈ new.
Proof.
  revert index errCount s.
  induction disks as [|[disk|] rest IH]; intros index errCount [w log]; simpl.
  - intros _. split; [done|]. exists []. split; [by rewrite app_nil_r|].
    intros j Hj. lia.
  - io_unfold. set (ev1 := EvDiskDeleteFile index volume
                             (path_Join path (sprintf_file index))).
    set (ev2 := EvDiskDeleteFile index volume (path_Join path "file.json")).
    assert (∀ (new : list xlEvent) (pre : list xlEvent),
              ev1 ∈ pre →
              (∀ j, (j < length rest)%nat →
                    EvDiskDeleteFile (S index + j) volume
                      (path_Join path (sprintf_file (S index + j))) ∈ new) →
              ∀ j, (j < S (length rest))%nat →
                   EvDiskDeleteFile (index + j) volume
                     (path_Join path (sprintf_file (index + j))) ∈ pre ++ new)
      as Hstep.
    { intros new pre Hpre Hnew [|j] Hj.
      - rewrite Nat.add_0_r. apply elem_of_app. by left.
      - replace (index + S j)%nat with (S index + j)%nat by lia.
        apply elem_of_app. right. apply Hnew. lia. }
    destruct (disk_DeleteFile disk volume _ w) as [[e|] w1].
    + destruct (errCount + 1 <=? _); [|done].
      intros Hval. destruct (IH _ _ _ Hval) as (Hall & new & Hlog & Hnew).
      split; [constructor; [by eexists|done]|].
      unfold io_log in *. rewrite Hlog. simpl. exists ([ev1] ++ new).
      split; [by rewrite <- app_assoc|].
      apply Hstep; [apply list_elem_of_singleton; done|done].
    + destruct (disk_DeleteFile disk volume _ w1) as [[e|] w2].
      * destruct (errCount + 1 <=? _); [|done].
        intros Hval. destruct (IH _ _ _ Hval) as (Hall & new & Hlog & Hnew).
        split; [constructor; [by eexists|done]|].
        unfold io_log in *. rewrite Hlog. simpl. exists ([ev1; ev2] ++ new).
        split; [by rewrite <- !app_assoc|].
        apply Hstep; [apply elem_of_cons; by left|done].
      * intros Hval. destruct (IH _ _ _ Hval) as (Hall & new & Hlog & Hnew).
        split; [constructor; [by eexists|done]|].
        unfold io_log in *. rewrite Hlog. simpl. exists ([ev1; ev2] ++ new).
        split; [by rewrite <- !app_assoc|].
        apply Hstep; [apply elem_of_cons; by left|done].
  - done.
Qed.

(** X3.  When [deleteXLFiles] returns [nil], no disk of the layer is nil
    and the loop has reached every disk: for every index the delete of
    the part file [file.<index>] was issued (failures within the budget
    [N - writeQuorum] are passed over, they do not end the loop). *)
Theorem deleteXLFiles_nil_visits_all (xl : XL Encoder Disk) (volume path : string)
    (w : W) (log : list xlEvent) :
  io_val (deleteXLFiles xl volume path (w, log)) = Returned None →
  Forall is_Some (storageDisks xl) ∧
  ∃ new, io_log (deleteXLFiles xl volume path (w, log)) = log ++ new ∧
         ∀ i, (i < length (storageDisks xl))%nat →
              EvDiskDeleteFile i volume (path_Join path (sprintf_file i)) ∈ new.
Proof.
  intros Hval.
  apply (deleteLoop_nil_visits xl volume path (storageDisks xl) 0 0 (w, log)) in Hval.
  done.
Qed.

(** X4.  [ListDir] on a layer with no disk returns no entry and no
    error without any call; on a layer with one disk it panics, because
    [rand.Intn] is called with [len(xl.storageDisks) - 1 = 0]. *)
Theorem ListDir_few_disks (xl : XL Encoder Disk) (volume dirPath : string)
    (s : W * list xlEvent) :
  isValidVolname volume = true →
  (length (storageDisks xl) = 0%nat →
     ListDir xl volume dirPath s = (Returned ([], None), s)) ∧
  (length (storageDisks xl) = 1%nat →
     ListDir xl volume dirPath s = (Panicked "invalid argument to Intn", s)).
Proof.
  intros Hv. unfold ListDir. rewrite Hv. simpl. split; intros Hlen.
  - by rewrite Hlen.
  - rewrite Hlen. simpl. unfold len. by rewrite Hlen.
Qed.

Lemma filter_listed_none (new : list xlEvent) :
  Forall (λ ev, listed_index ev = None) new →
  filter (λ ev, is_Some (listed_index ev)) new = [].
Proof.
  induction 1 as [|ev new Hev _ IH]; [done|].
  rewrite filter_cons_False; [done|]. rewrite Hev. by intros [? [=]].
Qed.

Lemma listDirLoop_attempts (xl : XL Encoder Disk) (volume dirPath : string)
    (attempts : nat) (err : option error) (s : W * list xlEvent) :
  ∃ new, io_log (listDirLoop xl volume dirPath attempts err s) = s.2 ++ new ∧
         (length (filter (λ ev, is_Some (listed_index ev)) new) ≤ attempts)%nat ∧
         ∀ entries e,
           io_val (listDirLoop xl volume dirPath attempts err s)
             = Returned (entries, Some e) →
           entries = [] ∧
           length (filter (λ ev, is_Some (listed_index ev)) new) = attempts.
Proof.
  revert err s.
  induction attempts as [|attempts IH]; intros err [w log]; simpl.
  - exists []. split; [by rewrite app_nil_r|]. split; [done|].
    by intros entries e [= <- _].
  - destruct (len (storageDisks xl) - 1 <=? 0).
    { exists []. split; [by rewrite app_nil_r|]. split; [simpl; lia|done]. }
    io_unfold. destruct (rand_Intn _ w) as [randIndex w1].
    destruct (if randIndex <? 0 then None
              else storageDisks xl !! Z.to_nat randIndex) as [[disk|]|];
      try (exists []; split; [by rewrite app_nil_r|]; split; [simpl; lia|done]).
    destruct (disk_ListDir disk volume dirPath w1) as [[entries [e|]] w2].
    + destruct (IH (Some e) (w2, log ++ [EvDiskListDir randIndex volume dirPath]))
        as (new & Hlog & Hle & Herr).
      exists (EvDiskListDir randIndex volume dirPath :: new).
      rewrite filter_cons_True by (by eexists).
      rewrite Hlog. simpl. rewrite <- app_assoc. split; [done|]. split; [lia|].
      intros entries' e' Hval. destruct (Herr _ _ Hval) as [-> <-]. done.
    + destruct (trimLeafEntries_log disk volume dirPath entries
                  (w2, log ++ [EvDiskListDir randIndex volume dirPath]))
        as (new & Hlog & Hnew).
      destruct (trimLeafEntries _ _ _ _ _) as [entries' s'].
      unfold io_log in *. simpl in *. rewrite Hlog.
      exists (EvDiskListDir randIndex volume dirPath :: new).
      rewrite filter_cons_True by (by eexists).
      rewrite (filter_listed_none new Hnew).
      rewrite <- app_assoc. split; [done|]. simpl. split; [lia|done].
Qed.

(** X5.  [ListDir] lists from at most [N] disks, and it returns an
    error only after [N] listings that failed: an error comes with no
    entry and with exactly [N] calls of [ListDir] on disks. *)
Theorem ListDir_attempts (xl : XL Encoder Disk) (volume dirPath : string)
    (w : W) (log : list xlEvent) :
  ∃ new, io_log (ListDir xl volume dirPath (w, log)) = log ++ new ∧
         (length (filter (λ ev, is_Some (listed_index ev)) new)
            ≤ length (storageDisks xl))%nat ∧
         ∀ entries e,
           isValidVolname volume = true →
           io_val (ListDir xl volume dirPath (w, log)) = Returned (entries, Some e) →
           entries = [] ∧
           length (filter (λ ev, is_Some (listed_index ev)) new)
             = length (storageDisks xl).
Proof.
  unfold ListDir. destruct (isValidVolname volume); simpl.
  - destruct (listDirLoop_attempts xl volume dirPath (length (storageDisks xl))
                None (w, log)) as (new & Hlog & Hle & Herr).
    exists new. split; [done|]. split; [done|]. intros entries e _. apply Herr.
  - exists []. split; [by rewrite app_nil_r|]. split; [simpl; lia|done].
Qed.

Lemma trimLeafEntries_entries (disk : Disk) (volume dirPath : string)
    (entries : list string) (s : W * list xlEvent) :
  Forall2 (λ raw e, e = raw ∨
                    (HasSuffix raw slashSeparator = true ∧
                     e = TrimSuffix raw slashSeparator))
          entries (trimLeafEntries disk volume dirPath entries s).1.
Proof.
  revert s. induction entries as [|entry rest IH]; intros [w log]; simpl.
  - constructor.
  - unfold isLeafDirectoryXL. io_unfold.
    destruct (disk_StatFile _ _ _ w) as [e w'].
    specialize (IH (w', log ++ [EvDiskStatFile volume
                      (path_Join (path_Join dirPath entry) xlMetaV1File)])).
    destruct (trimLeafEntries _ _ _ rest _) as [rest' s']. simpl in *.
    constructor; [|done].
    destruct (HasSuffix entry slashSeparator) eqn:Hdir; simpl; [|by left].
    destruct (bool_decide (e = None)); [by right|by left].
Qed.

Lemma listDirLoop_entries (xl : XL Encoder Disk) (volume dirPath : string)
    (attempts : nat) (err : option error) (s : W * list xlEvent)
    (entries : list string) :
  io_val (listDirLoop xl volume dirPath attempts err s) = Returned (entries, None) →
  (attempts = 0%nat ∧ err = None ∧ entries = []) ∨
  ∃ (i : nat) disk w1 w2 raw,
    storageDisks xl !! i = Some (Some disk) ∧
    disk_ListDir disk volume dirPath w1 = ((raw, None), w2) ∧
    Forall2 (λ raw e, e = raw ∨
                      (HasSuffix raw slashSeparator = true ∧
                       e = TrimSuffix raw slashSeparator)) raw entries.
Proof.
  revert err s.
  induction attempts as [|attempts IH]; intros err [w log]; simpl.
  - intros [= <- ->]. by left.
  - destruct (Z.leb_spec (len (storageDisks xl) - 1) 0) as [Hn|Hn]; [done|].
    io_unfold. destruct (rand_Intn _ w) as [randIndex w1].
    destruct (Z.ltb_spec randIndex 0) as [Hneg|Hpos]; [done|].
    destruct (storageDisks xl !! Z.to_nat randIndex) as [[disk|]|] eqn:Hdisk;
      [|done|done].
    destruct (disk_ListDir disk volume dirPath w1) as [[raw [e|]] w2] eqn:Hlist.
    + intros Hval. destruct (IH _ _ Hval) as [(_ & [=] & _)|Hex]. by right.
    + pose proof (trimLeafEntries_entries disk volume dirPath raw
                    (w2, log ++ [EvDiskListDir randIndex volume dirPath])) as Htrim.
      destruct (trimLeafEntries _ _ _ _ _) as [entries' s']. simpl in *.
      intros [= <-]. right. exists (Z.to_nat randIndex), disk, w1, w2, raw.
      done.
Qed.

(** X6.  The entries that [ListDir] returns without error are the
    listing of one disk of the layer, entry by entry and in its order:
    an entry is returned as the disk listed it, or, if it ends with the
    slash of a directory, possibly without that slash. *)
Theorem ListDir_entries_of_one_disk (xl : XL Encoder Disk) (volume dirPath : string)
    (s : W * list xlEvent) (entries : list string) :
  isValidVolname volume = true → storageDisks xl ≠ [] →
  io_val (ListDir xl volume dirPath s) = Returned (entries, None) →
  ∃ (i : nat) disk w1 w2 raw,
    storageDisks xl !! i = Some (Some disk) ∧
    disk_ListDir disk volume dirPath w1 = ((raw, None), w2) ∧
    Forall2 (λ raw e, e = raw ∨
                      (HasSuffix raw slashSeparator = true ∧
                       e = TrimSuffix raw slashSeparator)) raw entries.
Proof.
  intros Hv Hne. unfold ListDir. rewrite Hv. simpl. intros Hval.
  apply listDirLoop_entries in Hval as [(Hlen & _)|Hex]; [|done].
  by destruct (storageDisks xl).
Qed.
End LayerFacts.

Lemma RenameFile_errors_discarded_witness :
  (∀ w, (XL.disk_RenameFile 0%nat "tmp" "obj/" "bucket" "obj/" w).1
        = Some (errExternal 5)) ∧
  ∃ w', XL.RenameFile Demo.demoXL "tmp" "obj" "bucket" "obj" (0, []) =
        (Returned None,
         (w', [] ++ (XL.EvDiskRenameFile <$> seq 0 6))).
Proof.
  split; [done|].
  apply (RenameFile_errors_discarded Demo.demoXL "tmp" "obj" "bucket" "obj" 0 []);
    try done.
  repeat constructor; by eexists.
Defined.

Lemma DeleteFile_all_succeed_witness :
  ∃ w', XL.DeleteFile Demo.demoXL "bucket" "obj" (0, []) =
        (Returned None,
         (w', [] ++ mjoin ((λ i, [XL.EvDiskDeleteFile i "bucket"
                                    (XL.path_Join "obj" (XL.sprintf_file i));
                                  XL.EvDiskDeleteFile i "bucket"
                                    (XL.path_Join "obj" "file.json")])
                           <$> seq 0 6))).
Proof.
  apply (DeleteFile_all_succeed Demo.demoXL "bucket" "obj" 0 []); try done.
  repeat constructor; by eexists.
Defined.

Lemma deleteXLFiles_nil_visits_all_witness :
  io_val (XL.deleteXLFiles Demo.demoXL "bucket" "obj" (0, [])) = Returned None ∧
  Forall is_Some (XL.storageDisks Demo.demoXL) ∧
  ∃ new, io_log (XL.deleteXLFiles Demo.demoXL "bucket" "obj" (0, [])) = [] ++ new ∧
         ∀ i, (i < 6)%nat →
              XL.EvDiskDeleteFile i "bucket"
                (XL.path_Join "obj" (XL.sprintf_file i)) ∈ new.
Proof.
  split; [by vm_compute|].
  apply (deleteXLFiles_nil_visits_all Demo.demoXL "bucket" "obj" 0 []).
  by vm_compute.
Defined.

Lemma ListDir_few_disks_witness :
  XL.ListDir (XL.mkXL () 0 0 [Some 1%nat] 1 1) "bucket" "dir" (0, []) =
  (Panicked "invalid argument to Intn", (0, [])).
Proof.
  pose proof (ListDir_few_disks (XL.mkXL () 0 0 [Some 1%nat] 1 1) "bucket" "dir"
                (0, []) eq_refl) as [_ Hone].
  by apply Hone.
Defined.

Lemma ListDir_entries_of_one_disk_witness :
  ∃ (i : nat) disk w1 w2 raw,
    XL.storageDisks Demo.demoXL !! i = Some (Some disk) ∧
    XL.disk_ListDir disk "bucket" "dir" w1 = ((raw, None), w2) ∧
    Forall2 (λ raw e, e = raw ∨
                      (Strings.HasSuffix raw XL.slashSeparator = true ∧
                       e = Strings.TrimSuffix raw XL.slashSeparator))
            raw ["photos/"; "readme.txt"].
Proof.
  apply (ListDir_entries_of_one_disk Demo.demoXL "bucket" "dir" (5, [])); try done.
Defined.

(** ** Name validation *)

Section InvalidNames.
Import XL XLVolumes.
Context {W Encoder Disk : Type}.
Context `{!StorageAPI W Disk} `{!VolumeAPI W Disk} `{!Helpers W}.

(** X7.  Every method of the layer that takes a volume checks its name
    first, and the file methods check their paths: with a name or a path
    that is not valid the method returns [errInvalidArgument] and makes
    no call on any disk.  [RenameFile] does so if any of its four
    arguments is not valid. *)
Theorem invalid_names_rejected (xl : XL Encoder Disk) (volume path : string)
    (s : W * list xlEvent) (sv : W * list volEvent) :
  isValidVolname volume = false → isValidPath path = false →
  (∀ dirPath,
     ListDir xl volume dirPath s = (Returned ([], Some errInvalidArgument), s)) ∧
  (∀ p, DeleteFile xl volume p s = (Returned (Some errInvalidArgument), s)) ∧
  (∀ v, DeleteFile xl v path s = (Returned (Some errInvalidArgument), s)) ∧
  (∀ v1 p1 v2 p2,
     volume = v1 ∨ volume = v2 ∨ path = p1 ∨ path = p2 →
     RenameFile xl v1 p1 v2 p2 s = (Returned (Some errInvalidArgument), s)) ∧
  MakeVol xl volume sv = (Some errInvalidArgument, sv) ∧
  DeleteVol xl volume sv = (Returned (Some errInvalidArgument), sv) ∧
  StatVol xl volume sv = (Returned (VolInfo_zero, Some errInvalidArgument), sv).
Proof.
  intros Hv Hp.
  unfold ListDir, DeleteFile, RenameFile, MakeVol, DeleteVol, StatVol.
  rewrite Hv. simpl. repeat split; try done.
  - intros v. rewrite Hp. by destruct (isValidVolname v).
  - intros v1 p1 v2 p2 Hin.
    destruct (isValidVolname v1) eqn:H1; [|done].
    destruct (isValidPath p1) eqn:H2; [|done].
    destruct (isValidVolname v2) eqn:H3; [|done].
    destruct (isValidPath p2) eqn:H4; [|done].
    destruct Hin as [<-|[<-|[<-|<-]]]; congruence.
Qed.
End InvalidNames.

Lemma invalid_names_rejected_witness :
  XL.RenameFile (Helpers0 := Demo.strictHelpers) Demo.demoXL
                "tmp" "obj" "" "obj" (0, []) =
    (Returned (Some errInvalidArgument), (0, [])) ∧
  XLVolumes.MakeVol (Helpers0 := Demo.strictHelpers) Demo.demoXL "" (0, []) =
    (Some errInvalidArgument, (0, [])).
Proof.
  destruct (invalid_names_rejected (Helpers0 := Demo.strictHelpers) Demo.demoXL
              "" "" (0, []) (0, []) eq_refl eq_refl)
    as (_ & _ & _ & Hren & Hmk & _).
  split; [|done]. apply Hren. by right; left.
Defined.

(** ** The volume methods of the storage layer *)

Lemma wrap64_add_l a b : wrap64 (wrap64 a + b) = wrap64 (a + b).
Proof.
  replace (wrap64 a + b) with (wrap64 a - - b) by lia.
  rewrite wrap64_sub_l. f_equal. lia.
Qed.

Lemma filter_length_all {A} (P : A → Prop) `{∀ x, Decision (P x)} (l : list A) :
  length (filter P l) = length l ↔ Forall P l.
Proof.
  induction l as [|x l IH]; [by split|].
  pose proof (length_filter P l) as Hle.
  destruct (decide (P x)) as [HP|HP].
  - rewrite filter_cons_True by done. simpl.
    rewrite Forall_cons. split.
    + intros [=]. split; [done|]. by apply IH.
    + intros [_ Hall]. f_equal. by apply IH.
  - rewrite filter_cons_False by done. simpl.
    rewrite Forall_cons. split; [lia|]. by intros [? _].
Qed.

Lemma filter_nil_Forall {A} (P : A → Prop) `{∀ x, Decision (P x)} (l : list A) :
  Forall (λ x, ¬ P x) l → filter P l = [].
Proof.
  induction 1 as [|x l Hx _ IH]; [done|]. by rewrite filter_cons_False.
Qed.

Section VolumeFacts.
Import XL XLVolumes.
Context {W Encoder Disk : Type} `{!VolumeAPI W Disk} `{!Helpers W}.

Lemma liveFrom_spec {A} (l : list (option A)) (index i : nat) :
  i ∈ liveFrom l index ↔ (index ≤ i)%nat ∧ is_Some (mjoin (l !! (i - index)%nat)).
Proof.
  revert index. induction l as [|[a|] l IH]; intros index; simpl.
  - rewrite elem_of_nil. split; [done|]. intros [_ [? [=]]].
  - rewrite elem_of_cons, IH. split.
    + intros [->|[Hle Hs]].
      * rewrite Nat.sub_diag. split; [lia|]. by eexists.
      * split; [lia|]. by replace (i - index)%nat with (S (i - S index)) by lia.
    + intros [Hle Hs]. destruct (decide (i = index)) as [|Hne]; [by left|].
      right. split; [lia|].
      by replace (i - index)%nat with (S (i - S index)) in Hs by lia.
  - rewrite IH. split.
    + intros [Hle Hs]. split; [lia|].
      by replace (i - index)%nat with (S (i - S index)) by lia.
    + intros [Hle Hs]. destruct (decide (i = index)) as [->|Hne].
      { rewrite Nat.sub_diag in Hs. simpl in Hs. by destruct Hs. }
      split; [lia|].
      by replace (i - index)%nat with (S (i - S index)) in Hs by lia.
Qed.

Lemma makeVolFanOut_spec (volume : string) (disks : list (option Disk))
    (index : nat) (dErrs : list (option error)) (s : W * list volEvent) :
  (index + length disks ≤ length dErrs)%nat →
  ∃ dErrs' w',
    makeVolFanOut volume disks index dErrs s =
      (dErrs', (w', s.2 ++ ((λ i, EvDiskMakeVol i volume) <$> liveFrom disks index))) ∧
    length dErrs' = length dErrs ∧
    (∀ j, (j < index)%nat → dErrs' !! j = dErrs !! j) ∧
    (∀ j, disks !! j = Some None →
          dErrs' !! (index + j)%nat = dErrs !! (index + j)%nat) ∧
    (∀ j d, disks !! j = Some (Some d) →
            ∃ w0, dErrs' !! (index + j)%nat = Some (disk_MakeVol d volume w0).1).
Proof.
  revert index dErrs s.
  induction disks as [|[disk|] rest IH]; intros index dErrs [w log] Hlen; simpl in *.
  - exists dErrs, w. rewrite app_nil_r. repeat split; try done.
    all: by intros ? ?.
  - io_unfold. destruct (disk_MakeVol disk volume w) as [err w1] eqn:Hcall.
    destruct (IH (S index) (<[index:=err]> dErrs)
                (w1, log ++ [EvDiskMakeVol index volume]))
      as (dErrs' & w' & -> & Hl & Hlow & Hnil & Hlive).
    { rewrite length_insert. lia. }
    exists dErrs', w'. simpl. rewrite <- app_assoc. split; [done|].
    rewrite length_insert in Hl. split; [done|]. split; [|split].
    + intros j Hj. rewrite Hlow by lia. apply list_lookup_insert_ne. lia.
    + intros [|j] Hj; [done|]. simpl in Hj.
      replace (index + S j)%nat with (S index + j)%nat by lia.
      rewrite Hnil by done. apply list_lookup_insert_ne. lia.
    + intros [|j] d Hj; simpl in Hj.
      * injection Hj as <-. exists w. rewrite Nat.add_0_r, Hlow by lia.
        rewrite list_lookup_insert_eq by lia. by rewrite Hcall.
      * replace (index + S j)%nat with (S index + j)%nat by lia. by eapply Hlive.
  - destruct (IH (S index) dErrs (w, log)) as (dErrs' & w' & -> & Hl & Hlow & Hnil & Hlive).
    { lia. }
    exists dErrs', w'. split; [done|]. split; [done|]. split; [|split].
    + intros j Hj. apply Hlow. lia.
    + intros [|j] Hj.
      * rewrite Nat.add_0_r. apply Hlow. lia.
      * replace (index + S j)%nat with (S index + j)%nat by lia. by apply Hnil.
    + intros [|j] d Hj; [done|]. simpl in Hj.
      replace (index + S j)%nat with (S index + j)%nat by lia. by eapply Hlive.
Qed.

Lemma countMakeVolErrs_spec (dErrs : list (option error)) (c v : Z) :
  countMakeVolErrs dErrs c v =
  (c + len (filter (λ e, e ≠ None ∧ e ≠ Some errVolumeExists) dErrs),
   v + len (filter (λ e, e = Some errVolumeExists) dErrs)).
Proof.
  revert c v. unfold len.
  induction dErrs as [|[e|] rest IH]; intros c v; simpl.
  - f_equal; lia.
  - destruct (decide (e = errVolumeExists)) as [->|Hne]; rewrite IH.
    + rewrite filter_cons_False by (intros [_ ?]; done).
      rewrite (filter_cons_True (λ e, e = Some errVolumeExists)) by done.
      simpl. f_equal; lia.
    + rewrite filter_cons_True by (split; congruence).
      rewrite (filter_cons_False (λ e, e = Some errVolumeExists)) by congruence.
      simpl. f_equal; lia.
  - rewrite IH. rewrite filter_cons_False by (intros [? _]; done).
    rewrite (filter_cons_False (λ e, e = Some errVolumeExists)) by done.
    done.
Qed.

(** X8.  [MakeVol] with a valid name calls [MakeVol] once on every disk
    that is not nil, in the order of the indices, and passes over the nil
    disks, whose slot of [dErrs] stays [nil].  Its verdict on the
    gathered errors: [errVolumeExists] exactly if every slot holds
    [errVolumeExists]; otherwise [errWriteQuorum] exactly if the errors
    other than [errVolumeExists] are more than [N - writeQuorum];
    otherwise [nil]. *)
Theorem MakeVol_verdict (xl : XL Encoder Disk) (volume : string)
    (w : W) (log : list volEvent) :
  isValidVolname volume = true →
  ∃ dErrs w',
    length dErrs = length (storageDisks xl) ∧
    (∀ i, storageDisks xl !! i = Some None → dErrs !! i = Some None) ∧
    (∀ i d, storageDisks xl !! i = Some (Some d) →
            ∃ w0, dErrs !! i = Some (disk_MakeVol d volume w0).1) ∧
    MakeVol xl volume (w, log) =
      (if decide (Forall (λ e, e = Some errVolumeExists) dErrs)
       then Some errVolumeExists
       else if decide (len (filter (λ e, e ≠ None ∧ e ≠ Some errVolumeExists) dErrs)
                       > len (storageDisks xl) - writeQuorum xl)
            then Some errWriteQuorum
            else None,
       (w', log ++ ((λ i, EvDiskMakeVol i volume)
                    <$> liveFrom (storageDisks xl) 0))).
Proof.
  intros Hv. unfold MakeVol. rewrite Hv. simpl. io_unfold.
  destruct (makeVolFanOut_spec volume (storageDisks xl) 0
              (replicate (length (storageDisks xl)) None) (w, log))
    as (dErrs & w' & -> & Hl & _ & Hnil & Hlive).
  { rewrite length_replicate. lia. }
  rewrite length_replicate in Hl.
  exists dErrs, w'. split; [done|]. split; [|split].
  - intros i Hi. pose proof (Hnil i Hi) as Hslot. simpl in Hslot. rewrite Hslot.
    apply lookup_replicate_2. by apply lookup_lt_Some in Hi.
  - intros i d Hi. apply (Hlive i d Hi).
  - rewrite countMakeVolErrs_spec, !Z.add_0_l. simpl.
    destruct (decide (Forall _ dErrs)) as [Hall|Hall].
    + apply (proj2 (filter_length_all _ _)) in Hall.
      assert ((len (filter (λ e, e = Some errVolumeExists) dErrs)
                 =? len (storageDisks xl)) = true) as ->; [|done].
      apply Z.eqb_eq. unfold len. rewrite Hall, Hl. done.
    + assert ((len (filter (λ e, e = Some errVolumeExists) dErrs)
                 =? len (storageDisks xl)) = false) as ->.
      { apply Z.eqb_neq. unfold len. intros Heq. apply Hall.
        apply (proj1 (filter_length_all _ _)). lia. }
      destruct (decide (_ > _)) as [Hgt|Hle].
      * assert ((len (filter (λ e, e ≠ None ∧ e ≠ Some errVolumeExists) dErrs)
                   >? len (storageDisks xl) - writeQuorum xl) = true) as ->; [|done].
        rewrite Z.gtb_ltb. apply Z.ltb_lt. lia.
      * assert ((len (filter (λ e, e ≠ None ∧ e ≠ Some errVolumeExists) dErrs)
                   >? len (storageDisks xl) - writeQuorum xl) = false) as ->; [|done].
        rewrite Z.gtb_ltb. apply Z.ltb_ge. lia.
Qed.

Lemma makeVolFanOut_all_nil (volume : string) (disks : list (option Disk))
    (index : nat) (dErrs : list (option error)) (s : W * list volEvent) :
  Forall (λ d, d = None) disks →
  makeVolFanOut volume disks index dErrs s = (dErrs, s).
Proof.
  intros Hall. revert index.
  induction Hall as [|d rest -> _ IH]; intros index; simpl; [done|apply IH].
Qed.

(** X9.  On a layer whose disks are all nil, [MakeVol] with a valid name
    makes no call at all, and still returns [nil] if there is a disk and
    the write quorum is at most [N]; on a layer with no disk it returns
    [errVolumeExists]. *)
Theorem MakeVol_no_disk_answers (xl : XL Encoder Disk) (volume : string)
    (s : W * list volEvent) :
  isValidVolname volume = true →
  Forall (λ d, d = None) (storageDisks xl) →
  writeQuorum xl ≤ len (storageDisks xl) →
  MakeVol xl volume s =
    (if decide (storageDisks xl = []) then Some errVolumeExists else None, s).
Proof.
  intros Hv Hall Hwq. unfold MakeVol. rewrite Hv. simpl. io_unfold.
  rewrite makeVolFanOut_all_nil by done.
  rewrite countMakeVolErrs_spec.
  rewrite !filter_nil_Forall.
  2, 3: apply Forall_forall; intros e [-> _]%elem_of_replicate;
    first [done | by intros [? _]].
  simpl. unfold len in *. destruct (storageDisks xl) as [|d rest]; [done|].
  simpl length in *. rewrite decide_False by done. simpl.
  assert ((0 + Z.of_nat 0 >? Z.of_nat (S (length rest)) - writeQuorum xl) = false)
    as ->; [|done].
  rewrite Z.gtb_ltb. apply Z.ltb_ge. lia.
Qed.

Lemma deleteVolFanOut_spec (volume : string) (disks : list (option Disk))
    (index : nat) (dErrs : list (option error)) (s : W * list volEvent) :
  Forall is_Some disks →
  (index + length disks ≤ length dErrs)%nat →
  ∃ dErrs' w',
    deleteVolFanOut volume disks index dErrs s =
      (Returned dErrs',
       (w', s.2 ++ ((λ i, EvDiskDeleteVol i volume) <$> seq index (length disks)))) ∧
    length dErrs' = length dErrs ∧
    (∀ j, (j < index)%nat → dErrs' !! j = dErrs !! j) ∧
    (∀ j d, disks !! j = Some (Some d) →
            ∃ w0, dErrs' !! (index + j)%nat = Some (disk_DeleteVol d volume w0).1).
Proof.
  intros Hall. revert index dErrs s.
  induction Hall as [|d0 rest [disk ->] _ IH]; intros index dErrs [w log] Hlen;
    simpl in *.
  - exists dErrs, w. rewrite app_nil_r. repeat split; try done.
  - io_unfold. destruct (disk_DeleteVol disk volume w) as [err w1] eqn:Hcall.
    destruct (IH (S index) (<[index:=err]> dErrs)
                (w1, log ++ [EvDiskDeleteVol index volume]))
      as (dErrs' & w' & -> & Hl & Hlow & Hlive).
    { rewrite length_insert. lia. }
    exists dErrs', w'. simpl. rewrite <- app_assoc. split; [done|].
    rewrite length_insert in Hl. split; [done|]. split.
    + intros j Hj. rewrite Hlow by lia. apply list_lookup_insert_ne. lia.
    + intros [|j] d Hj; simpl in Hj.
      * injection Hj as <-. exists w. rewrite Nat.add_0_r, Hlow by lia.
        rewrite list_lookup_insert_eq by lia. by rewrite Hcall.
      * replace (index + S j)%nat with (S index + j)%nat by lia. by eapply Hlive.
Qed.

Lemma deleteVolErrs_spec (dErrs : list (option error)) (c : Z) :
  deleteVolErrs dErrs c =
  match list_find (λ x, x ≠ None ∧ x ≠ Some errVolumeNotFound ∧
                        x ≠ Some errDiskNotFound) dErrs with
  | Some (_, Some e) => inl e
  | _ => inr (c + len (filter (λ x, x = Some errVolumeNotFound ∨
                                    x = Some errDiskNotFound) dErrs))
  end.
Proof.
  revert c. unfold len.
  induction dErrs as [|[e|] rest IH]; intros c; simpl.
  - f_equal. lia.
  - destruct (decide (e = errVolumeNotFound ∨ e = errDiskNotFound)) as [He|He].
    + rewrite decide_False by (intros (_ & ? & ?); destruct He; congruence).
      rewrite IH. rewrite filter_cons_True by (destruct He; [left|right]; congruence).
      destruct (list_find _ rest) as [[i [e'|]]|]; simpl; f_equal; lia.
    + rewrite decide_True; [done|].
      split; [done|]. split; intros [=]; apply He; auto.
  - rewrite IH. rewrite filter_cons_False by (intros [|]; done).
    by destruct (list_find _ rest) as [[i [e'|]]|].
Qed.

(** X10.  [DeleteVol] with a valid name on a layer without nil disk
    calls [DeleteVol] on every disk, whatever the earlier ones answer,
    and then returns the first error, in the order of the disks, that
    is neither [errVolumeNotFound] nor [errDiskNotFound]; if there is
    none, it returns [errVolumeNotFound] exactly if every disk answered
    with one of these two, and [nil] otherwise.  No quorum is asked
    for: one disk that deletes the volume is enough for [nil]. *)
Theorem DeleteVol_verdict (xl : XL Encoder Disk) (volume : string)
    (w : W) (log : list volEvent) :
  isValidVolname volume = true →
  Forall is_Some (storageDisks xl) →
  ∃ dErrs w',
    length dErrs = length (storageDisks xl) ∧
    (∀ i d, storageDisks xl !! i = Some (Some d) →
            ∃ w0, dErrs !! i = Some (disk_DeleteVol d volume w0).1) ∧
    DeleteVol xl volume (w, log) =
      (Returned
         match list_find (λ x, x ≠ None ∧ x ≠ Some errVolumeNotFound ∧
                               x ≠ Some errDiskNotFound) dErrs with
         | Some (_, unusual) => unusual
         | None =>
             if decide (Forall (λ x, x = Some errVolumeNotFound ∨
                                     x = Some errDiskNotFound) dErrs)
             then Some errVolumeNotFound else None
         end,
       (w', log ++ ((λ i, EvDiskDeleteVol i volume)
                    <$> seq 0 (length (storageDisks xl))))).
Proof.
  intros Hv Hall. unfold DeleteVol. rewrite Hv. simpl. io_unfold.
  destruct (deleteVolFanOut_spec volume (storageDisks xl) 0
              (replicate (length (storageDisks xl)) None) (w, log) Hall)
    as (dErrs & w' & -> & Hl & _ & Hlive).
  { rewrite length_replicate. lia. }
  rewrite length_replicate in Hl.
  exists dErrs, w'. split; [done|]. split; [exact Hlive|].
  rewrite deleteVolErrs_spec.
  destruct (list_find _ dErrs) as [[i [e|]]|] eqn:Hfind; [done| |].
  - apply list_find_Some in Hfind as (_ & [? _] & _). done.
  - rewrite Z.add_0_l.
    destruct (decide (Forall _ dErrs)) as [Hnf|Hnf].
    + apply (proj2 (filter_length_all _ _)) in Hnf.
      assert ((len (filter (λ x, x = Some errVolumeNotFound ∨
                                 x = Some errDiskNotFound) dErrs)
                 =? len (storageDisks xl)) = true) as ->; [|done].
      apply Z.eqb_eq. unfold len. by rewrite Hnf, Hl.
    + assert ((len (filter (λ x, x = Some errVolumeNotFound ∨
                                 x = Some errDiskNotFound) dErrs)
                 =? len (storageDisks xl)) = false) as ->; [|done].
      apply Z.eqb_neq. unfold len. intros Heq. apply Hnf.
      apply (proj1 (filter_length_all _ _)). lia.
Qed.

Lemma listVolsFanOut_spec (disks : list (option Disk)) (index : nat)
    (successVols : list (list VolInfo)) (s : W * list volEvent) :
  Forall is_Some disks →
  (index + length disks ≤ length successVols)%nat →
  ∃ successVols' w',
    listVolsFanOut disks index successVols s =
      (Returned successVols',
       (w', s.2 ++ (EvDiskListVols <$> seq index (length disks)))) ∧
    length successVols' = length successVols ∧
    (∀ j, (j < index)%nat → successVols' !! j = successVols !! j) ∧
    (∀ j d, disks !! j = Some (Some d) →
            ∃ w0, successVols' !! (index + j)%nat = Some (disk_ListVols d w0).1.1).
Proof.
  intros Hall. revert index successVols s.
  induction Hall as [|d0 rest [disk ->] _ IH]; intros index sv [w log] Hlen;
    simpl in *.
  - exists sv, w. rewrite app_nil_r. repeat split; try done.
  - io_unfold. destruct (disk_ListVols disk w) as [[vls err] w1] eqn:Hcall.
    destruct (IH (S index) (<[index:=vls]> sv) (w1, log ++ [EvDiskListVols index]))
      as (sv' & w' & -> & Hl & Hlow & Hlive).
    { rewrite length_insert. lia. }
    exists sv', w'. simpl. rewrite <- app_assoc. split; [done|].
    rewrite length_insert in Hl. split; [done|]. split.
    + intros j Hj. rewrite Hlow by lia. apply list_lookup_insert_ne. lia.
    + intros [|j] d Hj; simpl in Hj.
      * injection Hj as <-. exists w. rewrite Nat.add_0_r, Hlow by lia.
        rewrite list_lookup_insert_eq by lia. by rewrite Hcall.
      * replace (index + S j)%nat with (S index + j)%nat by lia. by eapply Hlive.
Qed.

Lemma wrap64_idemp a : wrap64 (wrap64 a) = wrap64 a.
Proof. pose proof (wrap64_add_l a 0) as H. by rewrite !Z.add_0_r in H. Qed.

Lemma default_last_cons {A} (x cur : A) (l : list A) :
  default cur (last (x :: l)) = default x (last l).
Proof.
  destruct l as [|y l]; [done|].
  assert (∀ (k : list A) z, is_Some (last (z :: k))) as Hsome.
  { induction k as [|z' k IH]; intros z; [by eexists|apply (IH z')]. }
  change (last (x :: y :: l)) with (last (y :: l)).
  by destruct (Hsome l y) as [z ->].
Qed.

Lemma sumVols_spec (ls : list (list VolInfo)) (cur : list VolInfo) (t f : Z) :
  wrap64 t = t → wrap64 f = f →
  sumVols ls cur t f =
  (default cur (last ls),
   wrap64 (t + sumZ ((λ l, Total (firstNamed l VolInfo_zero))
                     <$> filter (λ l, 1 < len l) ls)),
   wrap64 (f + sumZ ((λ l, Free (firstNamed l VolInfo_zero))
                     <$> filter (λ l, 1 < len l) ls))).
Proof.
  revert cur t f. induction ls as [|l ls IH]; intros cur t f Ht Hf.
  - simpl. unfold sumZ. simpl. by rewrite !Z.add_0_r, Ht, Hf.
  - rewrite default_last_cons. simpl.
    destruct (Z.leb_spec (len l) 1) as [Hle|Hgt].
    + rewrite IH by done. rewrite filter_cons_False by lia. done.
    + rewrite IH by apply wrap64_idemp. rewrite filter_cons_True by lia.
      unfold add64, sumZ. simpl. rewrite !wrap64_add_l.
      by rewrite !Z.add_assoc.
Qed.

Lemma firstNamed_first (l pre post : list VolInfo) (x v : VolInfo) :
  l = pre ++ x :: post → Forall (λ y, Name y = "") pre → Name x ≠ "" →
  firstNamed l v = x.
Proof.
  intros -> Hpre Hx. revert v.
  induction Hpre as [|y pre Hy _ IH]; intros v; simpl.
  - destruct (String.eqb_spec (Name x) ""); done.
  - rewrite Hy. simpl. apply IH.
Qed.

(** X11.  [ListVols] on a layer without nil disk lists the volumes of
    every disk and never returns an error.  The volumes it returns are
    those of the listing of the last disk, name by name, whatever the
    other disks listed: the loop variable of the aggregation is what the
    function goes on with.  All of them carry the same [Total] and
    [Free]: the sums, in [int64], over the disks that listed more than
    one volume, of the figures of the first volume with a name in the
    listing of the disk. *)
Theorem ListVols_last_disk (xl : XL Encoder Disk) (w : W) (log : list volEvent) :
  Forall is_Some (storageDisks xl) →
  ∃ successVols w' total free,
    length successVols = length (storageDisks xl) ∧
    (∀ i d, storageDisks xl !! i = Some (Some d) →
            ∃ w0, successVols !! i = Some (disk_ListVols d w0).1.1) ∧
    ListVols xl (w, log) =
      (Returned ((λ v, {| Name := Name v; Total := total; Free := free |})
                   <$> default [] (last successVols), None),
       (w', log ++ (EvDiskListVols <$> seq 0 (length (storageDisks xl))))) ∧
    total = wrap64 (sumZ ((λ l, Total (firstNamed l VolInfo_zero))
                          <$> filter (λ l, 1 < len l) successVols)) ∧
    free = wrap64 (sumZ ((λ l, Free (firstNamed l VolInfo_zero))
                         <$> filter (λ l, 1 < len l) successVols)) ∧
    (∀ l pre x post,
       l = pre ++ x :: post → Forall (λ y, Name y = "") pre → Name x ≠ "" →
       firstNamed l VolInfo_zero = x).
Proof.
  intros Hall. unfold ListVols. io_unfold.
  destruct (listVolsFanOut_spec (storageDisks xl) 0
              (replicate (length (storageDisks xl)) []) (w, log) Hall)
    as (sv & w' & -> & Hl & _ & Hlive).
  { rewrite length_replicate. lia. }
  rewrite length_replicate in Hl.
  rewrite sumVols_spec by done. rewrite !Z.add_0_l.
  eexists sv, w', _, _. split; [done|]. split; [exact Hlive|].
  split; [done|]. split; [done|]. split; [done|].
  intros l pre x post. apply firstNamed_first.
Qed.

Lemma statVolFanOut_spec (volume : string) (disks : list (option Disk))
    (index : nat) (volsInfo : list VolInfo) (errs : list (option error))
    (s : W * list volEvent) :
  Forall is_Some disks →
  (index + length disks ≤ length volsInfo)%nat →
  (index + length disks ≤ length errs)%nat →
  ∃ volsInfo' errs' w',
    statVolFanOut volume disks index volsInfo errs s =
      (Returned (volsInfo', errs'),
       (w', s.2 ++ ((λ i, EvDiskStatVol i volume) <$> seq index (length disks)))) ∧
    length volsInfo' = length volsInfo ∧ length errs' = length errs ∧
    (∀ j, (j < index)%nat →
          volsInfo' !! j = volsInfo !! j ∧ errs' !! j = errs !! j) ∧
    (∀ j d, disks !! j = Some (Some d) →
            ∃ w0, match (disk_StatVol d volume w0).1 with
                  | (volInfo, None) =>
                      volsInfo' !! (index + j)%nat = Some volInfo ∧
                      errs' !! (index + j)%nat = errs !! (index + j)%nat
                  | (_, Some e) =>
                      volsInfo' !! (index + j)%nat = volsInfo !! (index + j)%nat ∧
                      errs' !! (index + j)%nat = Some (Some e)
                  end).
Proof.
  intros Hall. revert index volsInfo errs s.
  induction Hall as [|d0 rest [disk ->] _ IH]; intros index vi errs [w log] Hl1 Hl2;
    simpl in *.
  - exists vi, errs, w. rewrite app_nil_r. repeat split; try done.
  - io_unfold. destruct (disk_StatVol disk volume w) as [[volInfo err] w1] eqn:Hcall.
    destruct err as [e|].
    + destruct (IH (S index) vi (<[index:=Some e]> errs)
                  (w1, log ++ [EvDiskStatVol index volume]))
        as (vi' & errs' & w' & -> & Hlv & Hle & Hlow & Hlive).
      { lia. } { rewrite length_insert. lia. }
      exists vi', errs', w'. simpl. rewrite <- app_assoc. split; [done|].
      rewrite length_insert in Hle. split; [done|]. split; [done|]. split.
      * intros j Hj. destruct (Hlow j) as [-> ->]; [lia|].
        split; [done|]. apply list_lookup_insert_ne. lia.
      * intros [|j] d Hj; simpl in Hj.
        -- injection Hj as <-. exists w. rewrite Hcall. simpl.
           rewrite Nat.add_0_r. destruct (Hlow index) as [-> ->]; [lia|].
           split; [done|]. apply list_lookup_insert_eq. lia.
        -- replace (index + S j)%nat with (S index + j)%nat by lia.
           destruct (Hlive j d Hj) as [w0 Hw0]. exists w0.
           destruct (disk_StatVol d volume w0).1 as [vinfo [e'|]];
             destruct Hw0 as [Ha Hb]; split; try done.
           rewrite Hb. apply list_lookup_insert_ne. lia.
    + destruct (IH (S index) (<[index:=volInfo]> vi) errs
                  (w1, log ++ [EvDiskStatVol index volume]))
        as (vi' & errs' & w' & -> & Hlv & Hle & Hlow & Hlive).
      { rewrite length_insert. lia. } { lia. }
      exists vi', errs', w'. simpl. rewrite <- app_assoc. split; [done|].
      rewrite length_insert in Hlv. split; [done|]. split; [done|]. split.
      * intros j Hj. destruct (Hlow j) as [-> ->]; [lia|].
        split; [|done]. apply list_lookup_insert_ne. lia.
      * intros [|j] d Hj; simpl in Hj.
        -- injection Hj as <-. exists w. rewrite Hcall. simpl.
           rewrite Nat.add_0_r. destruct (Hlow index) as [-> ->]; [lia|].
           split; [|done]. apply list_lookup_insert_eq. lia.
        -- replace (index + S j)%nat with (S index + j)%nat by lia.
           destruct (Hlive j d Hj) as [w0 Hw0]. exists w0.
           destruct (disk_StatVol d volume w0).1 as [vinfo [e'|]];
             destruct Hw0 as [Ha Hb]; split; try done.
           rewrite Ha. apply list_lookup_insert_ne. lia.
Qed.

Lemma notFoundLoop_spec (xl : XL Encoder Disk) (errs : list (option error)) (c : Z) :
  notFoundLoop xl errs c = true ↔
  0 < len (filter (λ e, e = Some errVolumeNotFound) errs) ∧
  c + len (filter (λ e, e = Some errVolumeNotFound) errs)
    > len (storageDisks xl) - readQuorum xl.
Proof.
  revert c. unfold len.
  induction errs as [|err rest IH]; intros c; simpl.
  - split; [done|]. intros [? _]. lia.
  - destruct (decide (err = Some errVolumeNotFound)) as [->|Hne].
    + rewrite filter_cons_True by done. simpl length.
      destruct (Z.gtb_spec (c + 1) (len (storageDisks xl) - readQuorum xl))
        as [Hgt|Hle]; unfold len in *.
      * split; [|done]. intros _. lia.
      * rewrite IH. lia.
    + rewrite filter_cons_False by done. by apply IH.
Qed.

Lemma onlineCount_spec (errs : list (option error)) (c : Z) :
  onlineCount errs c = c + len (filter (λ e, e = None) errs).
Proof.
  revert c. unfold len. induction errs as [|[e|] rest IH]; intros c; simpl.
  - lia.
  - by rewrite IH.
  - rewrite IH. simpl length. lia.
Qed.

(** X12.  [getAllVolInfo] on a layer without nil disk calls [StatVol] on
    every disk and returns two slices of length [N]: at the index of a
    disk there is the error of the disk and the zero volume information,
    or no error and the volume information that the disk returned.
    [listAllVolInfo] decides on the errors alone.  With [nf] the number
    of [errVolumeNotFound] and [online] the number of [nil] among them:
    it returns [errVolumeNotFound] if [nf] is positive and above
    [N - readQuorum]; otherwise [errReadQuorum] if [online] is below both
    [N] and [readQuorum]; otherwise the volume information without an
    error, and healing is called for exactly if [online] is below [N]. *)
Theorem listAllVolInfo_verdict (xl : XL Encoder Disk) (volume : string)
    (w : W) (log : list volEvent) :
  Forall is_Some (storageDisks xl) →
  ∃ volsInfo errs s',
    getAllVolInfo xl volume (w, log) = (Returned (volsInfo, errs), s') ∧
    s'.2 = log ++ ((λ i, EvDiskStatVol i volume)
                   <$> seq 0 (length (storageDisks xl))) ∧
    length volsInfo = length (storageDisks xl) ∧
    length errs = length (storageDisks xl) ∧
    (∀ i d, storageDisks xl !! i = Some (Some d) →
            ∃ w0, errs !! i = Some (disk_StatVol d volume w0).1.2 ∧
                  volsInfo !! i =
                    Some (match (disk_StatVol d volume w0).1.2 with
                          | None => (disk_StatVol d volume w0).1.1
                          | Some _ => VolInfo_zero
                          end)) ∧
    let nf := len (filter (λ e, e = Some errVolumeNotFound) errs) in
    let online := len (filter (λ e, e = None) errs) in
    listAllVolInfo xl volume (w, log) =
      (Returned
         (if decide (0 < nf ∧ nf > len (storageDisks xl) - readQuorum xl)
          then ([], false, Some errVolumeNotFound)
          else if decide (online < len (storageDisks xl) ∧ online < readQuorum xl)
               then ([], false, Some errReadQuorum)
               else (volsInfo, bool_decide (online < len (storageDisks xl)), None)),
       s').
Proof.
  intros Hall. unfold listAllVolInfo, getAllVolInfo. io_unfold.
  destruct (statVolFanOut_spec volume (storageDisks xl) 0
              (replicate (length (storageDisks xl)) VolInfo_zero)
              (replicate (length (storageDisks xl)) None) (w, log) Hall)
    as (vi & errs & w' & -> & Hlv & Hle & _ & Hlive).
  { rewrite length_replicate. lia. } { rewrite length_replicate. lia. }
  rewrite length_replicate in Hlv. rewrite length_replicate in Hle.
  eexists vi, errs, _. split; [done|]. split; [done|]. split; [done|].
  split; [done|]. split.
  - intros i d Hi. destruct (Hlive i d Hi) as [w0 Hw0]. exists w0.
    pose proof (lookup_lt_Some _ _ _ Hi) as Hlt.
    destruct (disk_StatVol d volume w0).1 as [vinfo [e|]]; simpl in *;
      destruct Hw0 as [-> ->]; split; try done.
    + by apply lookup_replicate_2.
    + by apply lookup_replicate_2.
  - cbv zeta.
    pose proof (notFoundLoop_spec xl errs 0) as Hnf.
    rewrite Z.add_0_l in Hnf.
    destruct (decide (0 < _ ∧ _ > _)) as [Hyes|Hno].
    + apply Hnf in Hyes. by rewrite Hyes.
    + destruct (notFoundLoop xl errs 0) eqn:Hloop.
      { exfalso. apply Hno. by apply Hnf. }
      rewrite onlineCount_spec, Z.add_0_l.
      destruct (Z.ltb_spec (len (filter (λ e, e = None) errs))
                           (len (storageDisks xl))) as [Hlt|Hge].
      * destruct (Z.ltb_spec (len (filter (λ e, e = None) errs)) (readQuorum xl))
          as [Hlt'|Hge'].
        -- by rewrite decide_True.
        -- rewrite decide_False by lia. by rewrite bool_decide_true.
      * rewrite decide_False by lia. by rewrite bool_decide_false by lia.
Qed.

Lemma sumUsage_spec (volsInfo : list VolInfo) (cur : VolInfo) (t f : Z) :
  wrap64 t = t → wrap64 f = f →
  sumUsage volsInfo cur t f =
  (default cur (last volsInfo),
   wrap64 (t + sumZ (Total <$> filter (λ v, Name v ≠ "") volsInfo)),
   wrap64 (f + sumZ (Free <$> filter (λ v, Name v ≠ "") volsInfo))).
Proof.
  revert cur t f. induction volsInfo as [|v l IH]; intros cur t f Ht Hf.
  - simpl. unfold sumZ. simpl. by rewrite !Z.add_0_r, Ht, Hf.
  - rewrite default_last_cons. simpl.
    destruct (String.eqb_spec (Name v) "") as [Hn|Hn].
    + rewrite IH by done. by rewrite filter_cons_False by (intros ?; done).
    + rewrite IH by apply wrap64_idemp. rewrite filter_cons_True by done.
      unfold add64, sumZ. simpl. rewrite !wrap64_add_l.
      by rewrite !Z.add_assoc.
Qed.

Lemma healTargets_spec (volsInfo : list VolInfo) (index i : nat) :
  i ∈ healTargets volsInfo index ↔
  (index ≤ i)%nat ∧ ∃ v, volsInfo !! (i - index)%nat = Some v ∧ Name v = "".
Proof.
  revert index. induction volsInfo as [|v l IH]; intros index; simpl.
  - rewrite elem_of_nil. split; [done|]. by intros [_ (? & ? & _)].
  - destruct (String.eqb_spec (Name v) "") as [Hn|Hn]; simpl.
    + rewrite elem_of_cons, IH. split.
      * intros [->|[Hle (v' & Hv' & Hname)]].
        -- rewrite Nat.sub_diag. split; [lia|]. by exists v.
        -- split; [lia|]. exists v'.
           by replace (i - index)%nat with (S (i - S index)) by lia.
      * intros [Hle (v' & Hv' & Hname)].
        destruct (decide (i = index)) as [|Hne]; [by left|]. right.
        split; [lia|]. exists v'.
        by replace (i - index)%nat with (S (i - S index)) in Hv' by lia.
    + rewrite IH. split.
      * intros [Hle (v' & Hv' & Hname)]. split; [lia|]. exists v'.
        by replace (i - index)%nat with (S (i - S index)) by lia.
      * intros [Hle (v' & Hv' & Hname)].
        destruct (decide (i = index)) as [->|Hne].
        { rewrite Nat.sub_diag in Hv'. simpl in Hv'. congruence. }
        split; [lia|]. exists v'.
        by replace (i - index)%nat with (S (i - S index)) in Hv' by lia.
Qed.

(** X13.  [StatVol] with a valid name follows [listAllVolInfo]: a panic
    or an error of it is the outcome, the latter with the zero volume
    information.  Otherwise [StatVol] returns no error, and the volume
    information it returns has the name found at the last index of
    [volsInfo], that is the name that the last disk reported, or the
    empty name if the last disk failed: the loop over [volsInfo] leaves
    its last element in the result.  [Total] and [Free] are the sums, in
    [int64], over the entries that have a name.  If healing is called
    for, the goroutine is started for exactly the indices whose entry
    has no name. *)
Theorem StatVol_result (xl : XL Encoder Disk) (volume : string)
    (w : W) (log : list volEvent) :
  isValidVolname volume = true →
  match listAllVolInfo xl volume (w, log) with
  | (Panicked why, s') => StatVol xl volume (w, log) = (Panicked why, s')
  | (Returned (_, _, Some e), s') =>
      StatVol xl volume (w, log) = (Returned (VolInfo_zero, Some e), s')
  | (Returned (volsInfo, heal, None), (w', log')) =>
      StatVol xl volume (w, log) =
        (Returned
           ({| Name := Name (default VolInfo_zero (last volsInfo));
               Total := wrap64 (sumZ (Total <$> filter (λ v, Name v ≠ "") volsInfo));
               Free := wrap64 (sumZ (Free <$> filter (λ v, Name v ≠ "") volsInfo)) |},
            None),
         (w', log' ++ (if heal then [EvGoHeal (healTargets volsInfo 0)] else []))) ∧
      ∀ i, i ∈ healTargets volsInfo 0 ↔
           ∃ v, volsInfo !! i = Some v ∧ Name v = ""
  end.
Proof.
  intros Hv. unfold StatVol. rewrite Hv. simpl. io_unfold.
  destruct (listAllVolInfo xl volume (w, log)) as [[[[vi heal] [e|]]|why] [w' log']];
    [done| |done].
  split.
  - rewrite sumUsage_spec by done. rewrite !Z.add_0_l.
    destruct heal; [done|]. by rewrite app_nil_r.
  - intros i. rewrite healTargets_spec, Nat.sub_0_r. split; [by intros [_ ?]|].
    intros ?. split; [lia|done].
Qed.

Lemma deleteVolFanOut_nil (volume : string) (disks : list (option Disk))
    (index : nat) (dErrs : list (option error)) (s : W * list volEvent) :
  None ∈ disks →
  io_val (deleteVolFanOut volume disks index dErrs s)
    = Panicked "nil pointer dereference".
Proof.
  revert index dErrs s.
  induction disks as [|[disk|] rest IH]; intros index dErrs [w log] Hin; simpl.
  - by apply elem_of_nil in Hin.
  - apply elem_of_cons in Hin as [[=]|Hin]. io_unfold.
    destruct (disk_DeleteVol disk volume w) as [err w1]. by apply IH.
  - done.
Qed.

Lemma listVolsFanOut_nil (disks : list (option Disk)) (index : nat)
    (successVols : list (list VolInfo)) (s : W * list volEvent) :
  None ∈ disks →
  io_val (listVolsFanOut disks index successVols s)
    = Panicked "nil pointer dereference".
Proof.
  revert index successVols s.
  induction disks as [|[disk|] rest IH]; intros index sv [w log] Hin; simpl.
  - by apply elem_of_nil in Hin.
  - apply elem_of_cons in Hin as [[=]|Hin]. io_unfold.
    destruct (disk_ListVols disk w) as [[vls err] w1]. by apply IH.
  - done.
Qed.

Lemma statVolFanOut_nil (volume : string) (disks : list (option Disk))
    (index : nat) (volsInfo : list VolInfo) (errs : list (option error))
    (s : W * list volEvent) :
  None ∈ disks →
  io_val (statVolFanOut volume disks index volsInfo errs s)
    = Panicked "nil pointer dereference".
Proof.
  revert index volsInfo errs s.
  induction disks as [|[disk|] rest IH]; intros index vi errs [w log] Hin; simpl.
  - by apply elem_of_nil in Hin.
  - apply elem_of_cons in Hin as [[=]|Hin]. io_unfold.
    destruct (disk_StatVol disk volume w) as [[vinfo [e|]] w1]; by apply IH.
  - done.
Qed.

Lemma MakeVol_log (xl : XL Encoder Disk) (volume : string) (w : W)
    (log : list volEvent) :
  ∃ r w' new, MakeVol xl volume (w, log) = (r, (w', log ++ new)) ∧
    ∀ i v, EvDiskMakeVol i v ∈ new → is_Some (mjoin (storageDisks xl !! i)).
Proof.
  unfold MakeVol. destruct (isValidVolname volume); simpl.
  - io_unfold.
    destruct (makeVolFanOut_spec volume (storageDisks xl) 0
                (replicate (length (storageDisks xl)) None) (w, log))
      as (dErrs & w' & -> & _).
    { rewrite length_replicate. lia. }
    destruct (countMakeVolErrs dErrs 0 0) as [c v].
    assert (∀ i v', EvDiskMakeVol i v' ∈
                      (λ i, EvDiskMakeVol i volume) <$> liveFrom (storageDisks xl) 0 →
                    is_Some (mjoin (storageDisks xl !! i))) as Hlive.
    { intros i v' (j & [= -> _] & Hj)%list_elem_of_fmap.
      apply liveFrom_spec in Hj as [_ Hj]. by rewrite Nat.sub_0_r in Hj. }
    destruct (v =? _); [by eexists _, w', _|].
    destruct (c >? _); by eexists _, w', _.
  - exists (Some errInvalidArgument), w, []. rewrite app_nil_r. split; [done|].
    by intros i v ?%elem_of_nil.
Qed.

(** X14.  A nil disk in the layer is passed over by [MakeVol] only.
    [DeleteVol], [ListVols], [getAllVolInfo] and with it
    [listAllVolInfo] and [StatVol] call their method on every entry of
    [storageDisks] without a nil check: with a valid name and a nil disk
    they panic. *)
Theorem nil_disk_panics (xl : XL Encoder Disk) (volume : string)
    (s : W * list volEvent) :
  isValidVolname volume = true →
  None ∈ storageDisks xl →
  io_val (DeleteVol xl volume s) = Panicked "nil pointer dereference" ∧
  io_val (ListVols xl s) = Panicked "nil pointer dereference" ∧
  io_val (getAllVolInfo xl volume s) = Panicked "nil pointer dereference" ∧
  io_val (listAllVolInfo xl volume s) = Panicked "nil pointer dereference" ∧
  io_val (StatVol xl volume s) = Panicked "nil pointer dereference" ∧
  ∃ r w' new, MakeVol xl volume s = (r, (w', s.2 ++ new)) ∧
              ∀ i v, EvDiskMakeVol i v ∈ new →
                     is_Some (mjoin (storageDisks xl !! i)).
Proof.
  intros Hv Hin.
  pose proof (deleteVolFanOut_nil volume (storageDisks xl) 0
                (replicate (length (storageDisks xl)) None) s Hin) as Hdel.
  pose proof (listVolsFanOut_nil (storageDisks xl) 0
                (replicate (length (storageDisks xl)) []) s Hin) as Hlist.
  pose proof (statVolFanOut_nil volume (storageDisks xl) 0
                (replicate (length (storageDisks xl)) VolInfo_zero)
                (replicate (length (storageDisks xl)) None) s Hin) as Hstat.
  unfold DeleteVol, ListVols, StatVol, listAllVolInfo, getAllVolInfo.
  rewrite Hv. simpl. unfold io_val in *. io_unfold.
  destruct (deleteVolFanOut _ _ _ _ s) as [r1 s1]. simpl in Hdel. subst r1.
  destruct (listVolsFanOut _ _ _ s) as [r2 s2]. simpl in Hlist. subst r2.
  destruct (statVolFanOut _ _ _ _ _ s) as [r3 s3]. simpl in Hstat. subst r3.
  repeat (split; [done|]).
  destruct s as [w log]. apply MakeVol_log.
Qed.
End VolumeFacts.

Lemma MakeVol_verdict_witness :
  XL.isValidVolname "bucket" = true ∧
  XLVolumes.MakeVol Demo.demoXL "bucket" (0, []) =
    (Some errWriteQuorum,
     (0, (λ i, XLVolumes.EvDiskMakeVol i "bucket") <$> [0; 1; 2; 3; 4; 5]%nat)).
Proof.
  assert (XL.isValidVolname "bucket" = true) as Hv by done.
  split; [done|].
  destruct (MakeVol_verdict Demo.demoXL "bucket" 0 [] Hv)
    as (dErrs & w' & _ & _ & _ & _).
  by vm_compute.
Defined.

Lemma MakeVol_no_disk_answers_witness :
  XLVolumes.MakeVol (XL.mkXL () 3 3 (replicate 6 (@None nat)) 4 6) "bucket" (0, []) =
    (None, (0, [])).
Proof.
  assert (Forall (λ d : option nat, d = None) (replicate 6 None)) as Hall
    by (by repeat constructor).
  assert (XL.isValidVolname "bucket" = true) as Hv by done.
  pose proof (MakeVol_no_disk_answers (XL.mkXL () 3 3 (replicate 6 (@None nat)) 4 6)
                "bucket" (0, []) Hv Hall) as Hrun.
  rewrite Hrun; [done|]. by vm_compute.
Defined.

Lemma DeleteVol_verdict_witness :
  Forall is_Some (XL.storageDisks Demo.demoXL) ∧
  XLVolumes.DeleteVol Demo.demoXL "bucket" (0, []) =
    (Returned None,
     (0, (λ i, XLVolumes.EvDiskDeleteVol i "bucket") <$> [0; 1; 2; 3; 4; 5]%nat)).
Proof.
  assert (Forall is_Some (XL.storageDisks Demo.demoXL)) as Hall
    by (repeat constructor; by eexists).
  assert (XL.isValidVolname "bucket" = true) as Hv by done.
  split; [done|].
  destruct (DeleteVol_verdict Demo.demoXL "bucket" 0 [] Hv Hall)
    as (dErrs & w' & _ & _ & _).
  by vm_compute.
Defined.

Lemma ListVols_last_disk_witness :
  Forall is_Some (XL.storageDisks Demo.demoXL) ∧
  XLVolumes.ListVols Demo.demoXL (0, []) =
    (Returned ([], None),
     (0, XLVolumes.EvDiskListVols <$> [0; 1; 2; 3; 4; 5]%nat)).
Proof.
  assert (Forall is_Some (XL.storageDisks Demo.demoXL)) as Hall
    by (repeat constructor; by eexists).
  split; [done|].
  destruct (ListVols_last_disk Demo.demoXL 0 [] Hall) as (sv & w' & _).
  by vm_compute.
Defined.

Lemma listAllVolInfo_verdict_witness :
  Forall is_Some (XL.storageDisks Demo.demoXL) ∧
  io_val (XLVolumes.listAllVolInfo Demo.demoXL "bucket" (0, [])) =
    Returned ([XLVolumes.VolInfo_zero;
               XLVolumes.mkVolInfo "bucket" 100 40; XLVolumes.mkVolInfo "bucket" 100 40;
               XLVolumes.mkVolInfo "bucket" 100 40; XLVolumes.mkVolInfo "bucket" 100 40;
               XLVolumes.VolInfo_zero], true, None).
Proof.
  assert (Forall is_Some (XL.storageDisks Demo.demoXL)) as Hall
    by (repeat constructor; by eexists).
  split; [done|].
  destruct (listAllVolInfo_verdict Demo.demoXL "bucket" 0 [] Hall)
    as (vi & errs & s' & _).
  by vm_compute.
Defined.

Lemma StatVol_result_witness :
  XL.isValidVolname "bucket" = true ∧
  XLVolumes.StatVol Demo.demoXL "bucket" (0, []) =
    (Returned (XLVolumes.mkVolInfo "" 400 160, None),
     (0, ((λ i, XLVolumes.EvDiskStatVol i "bucket") <$> [0; 1; 2; 3; 4; 5]%nat)
         ++ [XLVolumes.EvGoHeal [0; 5]%nat])).
Proof.
  assert (XL.isValidVolname "bucket" = true) as Hv by done.
  split; [done|].
  pose proof (StatVol_result Demo.demoXL "bucket" 0 [] Hv) as Hrun.
  by vm_compute.
Defined.

Lemma nil_disk_panics_witness :
  None ∈ XL.storageDisks Demo.demoXLNil ∧
  io_val (XLVolumes.DeleteVol Demo.demoXLNil "bucket" (0, []))
    = Panicked "nil pointer dereference" ∧
  io_val (XLVolumes.StatVol Demo.demoXLNil "bucket" (0, []))
    = Panicked "nil pointer dereference".
Proof.
  assert (None ∈ XL.storageDisks Demo.demoXLNil) as Hin.
  { apply list_elem_of_lookup. by exists 5%nat. }
  assert (XL.isValidVolname "bucket" = true) as Hv by done.
  split; [done|].
  destruct (nil_disk_panics Demo.demoXLNil "bucket" (0, []) Hv Hin)
    as (Hdel & _ & _ & _ & Hstat & _).
  done.
Defined.

(** ** The helpers of the read path *)

Section OrderFacts.
Import ErasureUtils ErasureRead.
Context {Disk : Type}.

Lemma store_in_range {A} (l : list A) (b : Z) (x : A) :
  1 ≤ b ≤ len l → store l (b - 1) x = Returned (<[Z.to_nat (b - 1) := x]> l).
Proof.
  intros Hb. unfold store.
  destruct (Z.ltb_spec (b - 1) 0); [lia|].
  destruct (Z.leb_spec (len l) (b - 1)); [lia|]. done.
Qed.

Lemma store_Returned {A} (l l' : list A) (i : Z) (x : A) :
  store l i x = Returned l' → 0 ≤ i < len l ∧ length l' = length l.
Proof.
  unfold store. destruct (Z.ltb_spec i 0); [done|].
  destruct (Z.leb_spec (len l) i); [done|]. intros [= <-].
  rewrite length_insert. split; [lia|done].
Qed.

Lemma orderLoop_spec (distribution : list Z) (disks : list (option Disk))
    (sums : list checkSumInfo) (od : list (option Disk)) (os : list checkSumInfo) :
  length distribution = length disks → length sums = length disks →
  length os = length od →
  NoDup distribution → Forall (λ b, 1 ≤ b ≤ len od) distribution →
  ∃ od' os',
    orderLoop distribution disks sums od os = Returned (od', os') ∧
    length od' = length od ∧ length os' = length os ∧
    (∀ i b, distribution !! i = Some b →
            od' !! Z.to_nat (b - 1) = disks !! i ∧
            os' !! Z.to_nat (b - 1) = sums !! i) ∧
    (∀ j, Z.of_nat j + 1 ∉ distribution → od' !! j = od !! j ∧ os' !! j = os !! j).
Proof.
  revert distribution sums od os.
  induction disks as [|disk disks IH];
    intros [|b dist] [|sum sums] od os Hl1 Hl2 Hlo Hnd Hrange; try done; simpl.
  { exists od, os. split; [done|]. split; [done|]. split; [done|].
    split; [by intros ? ? ?|]. by intros ? ?. }
  apply NoDup_cons in Hnd as [Hb Hnd]. apply Forall_cons in Hrange as [Hbr Hrange].
  rewrite store_in_range by done.
  rewrite store_in_range by (unfold len in *; lia).
  destruct (IH dist sums (<[Z.to_nat (b - 1):=disk]> od)
              (<[Z.to_nat (b - 1):=sum]> os)) as (od' & os' & -> & Hlod & Hlos & Hat & Hframe).
  { simpl in Hl1. lia. } { simpl in Hl2. lia. }
  { by rewrite !length_insert. } { done. }
  { eapply Forall_impl; [done|]. intros x. unfold len. rewrite length_insert. done. }
  rewrite length_insert in Hlod. rewrite length_insert in Hlos.
  exists od', os'. split; [done|]. split; [done|]. split; [done|]. split.
  - intros [|i] b' Hi; simpl in Hi.
    + injection Hi as <-.
      destruct (Hframe (Z.to_nat (b - 1))) as [-> ->].
      { by replace (Z.of_nat (Z.to_nat (b - 1)) + 1) with b by lia. }
      simpl. unfold len in *.
      split; apply list_lookup_insert_eq; lia.
    + by apply Hat.
  - intros j Hj. apply not_elem_of_cons in Hj as [Hjb Hj].
    destruct (Hframe j Hj) as [-> ->].
    split; apply list_lookup_insert_ne; lia.
Qed.

(** X15.  If the distribution is a rearrangement of [1..N] and there is
    a checksum for every disk, [getOrderedDisks] does not panic and
    returns slices of length [N] in which the disk of index [i] and its
    checksum stand at position [distribution[i] - 1]; every position is
    filled this way, so that the ordered disks are the disks in the
    order of their blocks. *)
Theorem getOrderedDisks_spec (distribution : list Z) (disks : list (option Disk))
    (sums : list checkSumInfo) :
  distribution ≡ₚ seqZ 1 (len disks) →
  length sums = length disks →
  ∃ od os,
    getOrderedDisks distribution disks sums = Returned (od, os) ∧
    length od = length disks ∧ length os = length disks ∧
    (∀ i b, distribution !! i = Some b →
            od !! Z.to_nat (b - 1) = disks !! i ∧
            os !! Z.to_nat (b - 1) = sums !! i) ∧
    (∀ j, (j < length disks)%nat →
          ∃ i, distribution !! i = Some (Z.of_nat j + 1) ∧
               od !! j = disks !! i ∧ os !! j = sums !! i).
Proof.
  intros Hperm Hsums. unfold getOrderedDisks.
  destruct (orderLoop_spec distribution disks sums
              (replicate (length disks) None)
              (replicate (length disks) checkSumInfo_zero))
    as (od & os & Hrun & Hlod & Hlos & Hat & _).
  - rewrite Hperm, length_seqZ. unfold len. lia.
  - done.
  - by rewrite !length_replicate.
  - rewrite Hperm. apply NoDup_seqZ.
  - apply Forall_forall. intros b Hb. rewrite Hperm in Hb.
    apply elem_of_seqZ in Hb. unfold len. rewrite length_replicate.
    unfold len in Hb. lia.
  - rewrite length_replicate in Hlod. rewrite length_replicate in Hlos.
    exists od, os. split; [done|]. split; [done|]. split; [done|]. split; [done|].
    intros j Hj.
    assert (Z.of_nat j + 1 ∈ distribution) as Hin.
    { rewrite Hperm. apply elem_of_seqZ. unfold len. lia. }
    apply list_elem_of_lookup in Hin as [i Hi]. exists i. split; [done|].
    destruct (Hat i _ Hi) as [Hd Hs].
    by replace (Z.to_nat (Z.of_nat j + 1 - 1)) with j in Hd, Hs by lia.
Qed.

Lemma orderLoop_panics (distribution : list Z) (disks : list (option Disk))
    (sums : list checkSumInfo) (od : list (option Disk)) (os : list checkSumInfo) :
  length os = length od →
  (∃ i b, (i < length disks)%nat ∧ distribution !! i = Some b ∧
          ¬ (1 ≤ b ≤ len od)) ∨
  (length distribution < length disks)%nat ∨
  (length sums < length disks)%nat →
  ∃ why, orderLoop distribution disks sums od os = Panicked why.
Proof.
  revert distribution sums od os.
  induction disks as [|disk disks IH]; intros dist sums od os Hlo Hbad; simpl.
  { destruct Hbad as [(i & b & Hi & _)|[Hl|Hl]]; simpl in *; lia. }
  destruct dist as [|b dist]; [by eexists|].
  destruct sums as [|sum sums]; [by eexists|]. simpl.
  destruct (store od (b - 1) disk) as [od1|why] eqn:Hs1; [|by eexists].
  destruct (store os (b - 1) sum) as [os1|why] eqn:Hs2; [|by eexists].
  apply store_Returned in Hs1 as [Hb1 Hl1]. apply store_Returned in Hs2 as [Hb2 Hl2].
  apply IH; [congruence|].
  destruct Hbad as [(i & b' & Hi & Hlook & Hout)|[Hl|Hl]].
  - left. destruct i as [|i]; simpl in Hlook.
    + injection Hlook as <-. exfalso. apply Hout. lia.
    + exists i, b'. split; [simpl in Hi; lia|]. split; [done|].
      unfold len in *. by rewrite Hl1.
  - right. left. simpl in Hl. lia.
  - right. right. simpl in Hl. lia.
Qed.

(** X16.  [getOrderedDisks] panics if the distribution or the slice of
    checksums is shorter than the slice of disks, or if the
    distribution of one of the disks is not within [1..N]. *)
Theorem getOrderedDisks_panics (distribution : list Z) (disks : list (option Disk))
    (sums : list checkSumInfo) :
  (∃ i b, (i < length disks)%nat ∧ distribution !! i = Some b ∧
          ¬ (1 ≤ b ≤ len disks)) ∨
  (length distribution < length disks)%nat ∨
  (length sums < length disks)%nat →
  ∃ why, getOrderedDisks distribution disks sums = Panicked why.
Proof.
  intros Hbad. unfold getOrderedDisks. apply orderLoop_panics.
  - by rewrite !length_replicate.
  - unfold len. by rewrite length_replicate.
Qed.

Lemma decodable_counts {A} (l : list (option A)) (D : Z) :
  decodable l D =
  ((countNonNil l 0 D 0 0).1 =? D) ||
  ((countNonNil l 0 D 0 0).1 + (countNonNil l 0 D 0 0).2 >=? D + 1).
Proof. unfold decodable. by destruct (countNonNil l 0 D 0 0). Qed.

Lemma pickReadDisks_counts (rest : list (option Disk)) (i : nat)
    (D d p : Z) (rd : list (option Disk)) :
  d ≠ D → d + p < D + 1 →
  match pickReadDisks rest i D d p rd with
  | (_, next, None) =>
      ∃ k, next = S (i + k) ∧ (k < length rest)%nat ∧
           ((countNonNil (take (S k) rest) i D d p).1 = D ∨
            (countNonNil (take (S k) rest) i D d p).1 +
            (countNonNil (take (S k) rest) i D d p).2 = D + 1) ∧
           (countNonNil (take k rest) i D d p).1 ≠ D ∧
           (countNonNil (take k rest) i D d p).1 +
           (countNonNil (take k rest) i D d p).2 < D + 1
  | (_, _, Some _) => True
  end.
Proof.
  revert i d p rd. induction rest as [|[disk|] rest IH]; intros i d p rd Hd Hdp.
  - done.
  - cbn [pickReadDisks].
    assert (∃ d' p', (if Z.of_nat i <? D then (d + 1, p) else (d, p + 1)) = (d', p') ∧
                     d' + p' = d + p + 1 ∧
                     ∀ l, countNonNil (Some disk :: l) i D d p =
                          countNonNil l (S i) D d' p') as (d' & p' & -> & Hsum & Hcount).
    { simpl. destruct (Z.of_nat i <? D); eexists _, _; (split; [done|]); split;
        done || lia. }
    destruct (Z.eqb_spec d' D) as [HdD|HdD].
    { exists 0%nat. rewrite Nat.add_0_r. split; [done|]. split; [simpl; lia|].
      cbn [take]. rewrite Hcount. simpl. split; [by left|]. split; [done|lia]. }
    destruct (Z.eqb_spec (d' + p') (D + 1)) as [Hp1|Hp1].
    { exists 0%nat. rewrite Nat.add_0_r. split; [done|]. split; [simpl; lia|].
      cbn [take]. rewrite Hcount. simpl. split; [by right|]. split; [done|lia]. }
    specialize (IH (S i) d' p' (<[i:=Some disk]> rd) HdD ltac:(lia)).
    destruct (pickReadDisks rest (S i) D d' p' (<[i:=Some disk]> rd))
      as [[rd' next] [e|]]; [done|].
    destruct IH as (k & -> & Hk & Hsuf & Hmin).
    exists (S k). split; [f_equal; lia|]. split; [simpl; lia|].
    cbn [take]. by rewrite !Hcount.
  - cbn [pickReadDisks]. specialize (IH (S i) d p rd Hd Hdp).
    destruct (pickReadDisks rest (S i) D d p rd) as [[rd' next] [e|]]; [done|].
    destruct IH as (k & -> & Hk & Hsuf & Hmin).
    exists (S k). split; [f_equal; lia|]. split; [simpl; lia|]. done.
Qed.

(** X17.  [getReadDisks] on the ordered disks, from an index within the
    slice.  If the disks below the index are enough to decode, it
    returns [errUnexpected].  Otherwise, if the disks that are left are
    not enough, it returns [errXLReadQuorum].  Otherwise it returns the
    next batch: [readDisks] holds the disks from [index] up to
    [nextIndex] and is nil elsewhere, [nextIndex] is beyond [index], the
    disks below [nextIndex] are enough to decode, and those below
    [nextIndex - 1] are not: the batch is the shortest one that can
    make the blocks decodable. *)
Theorem getReadDisks_spec (od : list (option Disk)) (index : nat) (D : Z) :
  (index ≤ length od)%nat →
  match getReadDisks od index D with
  | Returned (rd, next, None) =>
      decodable (take index od) D = false ∧
      (index < next ≤ length od)%nat ∧ length rd = length od ∧
      (∀ j, (index ≤ j < next)%nat → rd !! j = od !! j) ∧
      (∀ j, (j < index ∨ next ≤ j)%nat → (j < length od)%nat →
            rd !! j = Some None) ∧
      decodable (take next od) D = true ∧
      decodable (take (next - 1) od) D = false
  | Returned (_, _, Some e) =>
      (e = errUnexpected ∧ decodable (take index od) D = true) ∨
      (e = errXLReadQuorum ∧ decodable (take index od) D = false ∧
       decodable od D = false)
  | Panicked _ => False
  end.
Proof.
  intros Hidx. unfold getReadDisks.
  destruct (Nat.ltb_spec (length od) index) as [|_]; [lia|].
  rewrite (decodable_counts (take index od)).
  destruct (countNonNil (take index od) 0 D 0 0) as [d p] eqn:Hc. simpl.
  destruct (Z.eqb_spec d D) as [HdD|HdD]; [by left|].
  rewrite Z.geb_leb.
  destruct (Z.leb_spec (D + 1) (d + p)) as [Hge|Hlt]; [by left|]. simpl.
  assert (∀ m, countNonNil (take (index + m) od) 0 D 0 0 =
               countNonNil (take m (drop index od)) index D d p) as Hsplit.
  { intros m. rewrite <- take_take_drop, countNonNil_app, Hc. simpl.
    by rewrite length_take_le by done. }
  pose proof (pickReadDisks_spec (drop index od) index D d p
                (replicate (length od) None) HdD Hlt) as Hspec.
  pose proof (pickReadDisks_counts (drop index od) index D d p
                (replicate (length od) None) HdD Hlt) as Hcnt.
  destruct (pickReadDisks (drop index od) index D d p (replicate (length od) None))
    as [[rd next] [e|]].
  - destruct Hspec as (-> & Hne & Hlow). right. split; [done|]. split; [done|].
    apply counts_not_decodable.
    + rewrite <- (take_drop index od) at 1. rewrite countNonNil_app, Hc. simpl.
      by rewrite length_take_le by done.
    + rewrite <- (take_drop index od) at 1 2. rewrite countNonNil_app, Hc. simpl.
      by rewrite length_take_le by done.
  - destruct Hspec as (Hnext & Hlen & Hout & Hin).
    destruct Hcnt as (k & -> & Hk & Hsuf & Hmin & Hmin').
    rewrite length_drop in Hnext, Hk. rewrite length_replicate in Hlen, Hin.
    split; [done|]. split; [lia|]. split; [done|]. split; [|split; [|split]].
    + intros j Hj. rewrite Hin by lia.
      assert (drop index od !! (j - index)%nat = od !! j) as Hdj.
      { rewrite lookup_drop. f_equal. lia. }
      unfold present. rewrite !Hdj.
      destruct (decide (is_Some (mjoin (od !! j)))) as [Hs|Hs]; [done|].
      rewrite lookup_replicate_2 by lia.
      destruct (od !! j) as [[x|]|] eqn:Hod; simpl in Hs.
      * exfalso. apply Hs. by eexists.
      * done.
      * apply lookup_ge_None in Hod. lia.
    + intros j Hj Hjl. rewrite Hout by lia. by apply lookup_replicate_2.
    + rewrite decodable_counts.
      replace (S (index + k)) with (index + S k)%nat by lia. rewrite Hsplit.
      destruct Hsuf as [->| ->].
      * by rewrite Z.eqb_refl.
      * rewrite Z.geb_leb, Z.leb_refl. apply orb_true_r.
    + apply counts_not_decodable.
      * replace (S (index + k) - 1)%nat with (index + k)%nat by lia.
        by rewrite Hsplit.
      * replace (S (index + k) - 1)%nat with (index + k)%nat by lia.
        by rewrite Hsplit.
Qed.

(** X18.  [checkBlockSize] returns 0 exactly if every block is empty;
    otherwise it returns the length of the first block that is not
    empty, which is positive. *)
Theorem checkBlockSize_spec (blocks : list (option (list byte))) :
  (Forall (λ b, default [] b = []) blocks ∧ checkBlockSize blocks = 0) ∨
  (∃ pre b post,
     blocks = pre ++ b :: post ∧ Forall (λ b, default [] b = []) pre ∧
     default [] b ≠ [] ∧
     checkBlockSize blocks = len (default [] b) ∧ 0 < checkBlockSize blocks).
Proof.
  induction blocks as [|b blocks IH]; simpl.
  - left. by split.
  - destruct (Z.eqb_spec (len (default [] b)) 0) as [Hz|Hnz]; simpl.
    + assert (default [] b = []) as Hb.
      { unfold len in Hz. by destruct (default [] b). }
      destruct IH as [[Hall Hres]|(pre & b' & post & -> & Hpre & Hb' & Hres & Hpos)].
      * left. split; [by constructor|done].
      * right. exists (b :: pre), b', post. split; [done|].
        split; [by constructor|]. done.
    + right. exists [], b, blocks. split; [done|]. split; [constructor|].
      split; [by intros Hb; rewrite Hb in Hnz|]. split; [done|].
      pose proof (len_nonneg (default [] b)). lia.
Qed.

(** X19.  [isSuccessDataBlocks] panics exactly if [dataBlocks] is not
    within the slice; when it answers [true], [isSuccessDecodeBlocks]
    holds of the same blocks: the write that skips the decoding is only
    reached with blocks that can be decoded. *)
Theorem data_blocks_suffice (blocks : list (option (list byte))) (D : Z) :
  ((∃ why, isSuccessDataBlocks blocks D = Panicked why) ↔
   ¬ (0 ≤ D ≤ len blocks)) ∧
  (isSuccessDataBlocks blocks D = Returned true →
   Forall is_Some (take (Z.to_nat D) blocks) ∧
   isSuccessDecodeBlocks blocks D = true).
Proof.
  split.
  - unfold isSuccessDataBlocks.
    destruct (Z.ltb_spec D 0) as [Hneg|Hpos]; simpl.
    { split; [lia|by eexists]. }
    destruct (Z.ltb_spec (len blocks) D) as [Hlt|Hge].
    { split; [lia|by eexists]. }
    destruct (countNonNil _ _ _ _ _). split; [by intros [? ?]|lia].
  - intros Hret.
    assert (0 ≤ D ≤ len blocks) as HD.
    { unfold isSuccessDataBlocks in Hret.
      destruct (Z.ltb_spec D 0); [done|].
      destruct (Z.ltb_spec (len blocks) D); [done|lia]. }
    rewrite isSuccessDataBlocks_spec in Hret by done.
    injection Hret as Hall. apply bool_decide_eq_true in Hall.
    split; [done|].
    change (isSuccessDecodeBlocks blocks D) with (decodable blocks D).
    apply decodable_spec; [done|by left].
Qed.

(** X20.  [PartObjectChecksum] returns the first checksum of the slice
    that carries the name of the part, and the zero value if no
    checksum carries it. *)
Theorem PartObjectChecksum_first_match (e : erasureInfo) (partName : string) :
  (∃ pre c post,
     Checksum e = pre ++ c :: post ∧ Forall (λ x, Name x ≠ partName) pre ∧
     Name c = partName ∧ PartObjectChecksum e partName = c) ∨
  (Forall (λ x, Name x ≠ partName) (Checksum e) ∧
   PartObjectChecksum e partName = checkSumInfo_zero).
Proof.
  unfold PartObjectChecksum.
  induction (Checksum e) as [|c sums IH]; simpl.
  - right. by split.
  - destruct (String.eqb_spec (Name c) partName) as [Heq|Hne].
    + left. exists [], c, sums. by repeat split.
    + destruct IH as [(pre & c' & post & -> & Hpre & Hc' & Hres)|[Hall Hres]].
      * left. exists (c :: pre), c', post. split; [done|].
        split; [by constructor|]. done.
      * right. split; [by constructor|done].
Qed.
End OrderFacts.

Lemma getOrderedDisks_spec_witness :
  [2; 1; 3] ≡ₚ seqZ 1 (len [Some 10%nat; Some 20%nat; None]) ∧
  ErasureRead.getOrderedDisks [2; 1; 3] [Some 10%nat; Some 20%nat; None]
    [ErasureRead.mkCheckSumInfo "a" "" ""; ErasureRead.mkCheckSumInfo "b" "" "";
     ErasureRead.mkCheckSumInfo "c" "" ""] =
  Returned ([Some 20%nat; Some 10%nat; None],
            [ErasureRead.mkCheckSumInfo "b" "" ""; ErasureRead.mkCheckSumInfo "a" "" "";
             ErasureRead.mkCheckSumInfo "c" "" ""]).
Proof.
  assert ([2; 1; 3] ≡ₚ seqZ 1 (len [Some 10%nat; Some 20%nat; None])) as Hperm.
  { change (seqZ 1 (len [Some 10%nat; Some 20%nat; None])) with [1; 2; 3].
    apply perm_swap. }
  split; [done|].
  destruct (getOrderedDisks_spec [2; 1; 3] [Some 10%nat; Some 20%nat; None]
              [ErasureRead.mkCheckSumInfo "a" "" ""; ErasureRead.mkCheckSumInfo "b" "" "";
               ErasureRead.mkCheckSumInfo "c" "" ""] Hperm eq_refl)
    as (od & os & Hrun & _).
  by vm_compute.
Defined.

Lemma getOrderedDisks_panics_witness :
  ∃ why, ErasureRead.getOrderedDisks [2; 1; 7] [Some 10%nat; Some 20%nat; None]
           [ErasureRead.checkSumInfo_zero; ErasureRead.checkSumInfo_zero;
            ErasureRead.checkSumInfo_zero] = Panicked why.
Proof.
  apply getOrderedDisks_panics. left. exists 2%nat, 7.
  split; [simpl; lia|]. split; [done|]. unfold len. simpl. lia.
Defined.

Lemma getReadDisks_spec_witness :
  ErasureRead.getReadDisks Demo.sixStorageDisks 0 3 =
    Returned ([Some 0; Some 1; Some 2; None; None; None]%nat, 3%nat, None) ∧
  ErasureRead.decodable (take 3 Demo.sixStorageDisks) 3 = true ∧
  ErasureRead.decodable (take 2 Demo.sixStorageDisks) 3 = false.
Proof.
  pose proof (getReadDisks_spec Demo.sixStorageDisks 0 3) as Hspec.
  assert (ErasureRead.getReadDisks Demo.sixStorageDisks 0 3 =
          Returned ([Some 0; Some 1; Some 2; None; None; None]%nat, 3%nat, None))
    as Hrun by (by vm_compute).
  rewrite Hrun in Hspec. split; [done|].
  destruct Hspec as (_ & _ & _ & _ & _ & Hsuf & Hmin); [simpl; lia|]. done.
Defined.

(** ** The read path *)

Section ReadMoreFacts.
Import ErasureUtils ErasureRead.
Context {W Encoder Disk : Type} `{!Codec Encoder} `{!ReadEnv W Disk}.

(** X21.  [metaPartBlockChecksums] panics if there are fewer erasure
    infos than disks.  Otherwise it returns one checksum per disk, in
    the order of the disks: the checksum of the part in the erasure info
    of the disk if that info is valid, the zero value if it is not. *)
Theorem metaPartBlockChecksums_spec (disks : list (option Disk))
    (eInfos : list erasureInfo) (partName : string) :
  ((length eInfos < length disks)%nat →
   metaPartBlockChecksums disks eInfos partName = Panicked "index out of range") ∧
  ((length disks ≤ length eInfos)%nat →
   ∃ sums,
     metaPartBlockChecksums disks eInfos partName = Returned sums ∧
     length sums = length disks ∧
     ∀ i eInfo, (i < length disks)%nat → eInfos !! i = Some eInfo →
       sums !! i = Some (if erasureInfo_IsValid eInfo
                         then PartObjectChecksum eInfo partName
                         else checkSumInfo_zero)).
Proof.
  revert eInfos. induction disks as [|disk disks IH]; intros eInfos; simpl.
  - split; [lia|]. intros _. exists []. split; [done|]. split; [done|].
    intros i eInfo Hi. lia.
  - destruct eInfos as [|eInfo eInfos]; simpl.
    { split; [done|lia]. }
    destruct (IH eInfos) as [Hshort Hlong]. split.
    + intros Hlt. rewrite Hshort by lia. done.
    + intros Hle. destruct Hlong as (sums & -> & Hlen & Hat); [lia|].
      eexists. split; [done|]. split; [simpl; lia|].
      intros [|i] eInfo' Hi Hlook; simpl in *.
      * by injection Hlook as <-.
      * apply Hat; [lia|done].
Qed.

(** X22.  The verdicts of [bitRotVerify] are kept only when they are
    good: after a call that answered [true] for a disk, every later call
    for the disk answers [true] without touching the disk and leaves the
    state as it is.  A call changes nothing but the slot of its disk in
    [verified]. *)
Theorem bitRotVerify_cached (volume path : string) (sums : list checkSumInfo)
    (diskIndex : nat) (st : readState Disk) (s : W * list readEvent) :
  (diskIndex < length (verified st))%nat →
  let '((ok, st'), _) := bitRotVerify volume path sums diskIndex st s in
  (ok = true →
     ∀ s', bitRotVerify volume path sums diskIndex st' s' = ((true, st'), s')) ∧
  verified st' !! diskIndex = Some (ok || default false (verified st !! diskIndex)) ∧
  (∀ j, j ≠ diskIndex → verified st' !! j = verified st !! j) ∧
  enBlocks st' = enBlocks st ∧ orderedDisks st' = orderedDisks st.
Proof.
  intros Hlt. unfold bitRotVerify.
  destruct (verified st !! diskIndex) as [b|] eqn:Hb; simpl.
  2: { apply lookup_ge_None in Hb. lia. }
  destruct b; simpl.
  - split; [|done]. intros _ s'. by rewrite Hb.
  - io_unfold.
    destruct (isValidBlock diskIndex (mjoin (orderedDisks st !! diskIndex))
                volume path (default checkSumInfo_zero (sums !! diskIndex)) s)
      as [isValid s1].
    split; [|split; [|split]].
    + intros -> s'. simpl. by rewrite list_lookup_insert_eq.
    + simpl. rewrite list_lookup_insert_eq by done. by rewrite orb_false_r.
    + intros j Hj. simpl. by apply list_lookup_insert_ne.
    + done.
Qed.

(** X23.  What one run of [parallelRead] does to the slices that the
    readers share: their lengths stay, no block that was read is lost,
    no disk that was given up comes back, the slots of the disks that
    are not in [readDisks] are left alone, and for every disk in
    [readDisks] either its block has been read or the disk has been
    given up. *)
Theorem parallelRead_effect (volume path : string) (sums : list checkSumInfo)
    (rd : list (option Disk)) (off size : Z) (st : readState Disk)
    (s : W * list readEvent) :
  (length rd ≤ length (enBlocks st))%nat →
  (length rd ≤ length (orderedDisks st))%nat →
  let st' := (parallelRead volume path sums rd off size st s).1 in
  length (enBlocks st') = length (enBlocks st) ∧
  length (orderedDisks st') = length (orderedDisks st) ∧
  (∀ j, present (enBlocks st) j → present (enBlocks st') j) ∧
  (∀ j, ¬ present (orderedDisks st) j → ¬ present (orderedDisks st') j) ∧
  (∀ j, ¬ present rd j →
        enBlocks st' !! j = enBlocks st !! j ∧
        orderedDisks st' !! j = orderedDisks st !! j) ∧
  (∀ j, present rd j →
        present (enBlocks st') j ∨ orderedDisks st' !! j = Some None).
Proof.
  intros Hl1 Hl2. unfold parallelRead.
  destruct (parallelReadFrom_spec volume path sums rd 0 off size st s)
    as (Hle & Hlo & Hslot); [simpl; lia|simpl; lia|].
  cbv zeta. split; [done|]. split; [done|].
  assert (∀ j, slot_effect st
                 (parallelReadFrom volume path sums rd 0 off size st s).1 j
                 (present rd j)) as Hslot'.
  { intros j. eapply slot_effect_iff; [|apply Hslot].
    rewrite Nat.sub_0_r. split; [by intros [_ ?]|]. intros ?. split; [lia|done]. }
  split; [|split; [|split]].
  - intros j Hp. destruct (Hslot' j) as [(_ & He & _)|[(_ & He & _)|(_ & He & _)]].
    + unfold present in *. by rewrite He.
    + done.
    + unfold present in *. by rewrite He.
  - intros j Hp. destruct (Hslot' j) as [(_ & _ & Hd)|[(_ & _ & Hd)|(_ & _ & Hd)]].
    + unfold present in *. by rewrite Hd.
    + unfold present in *. by rewrite Hd.
    + unfold present. rewrite Hd. simpl. by intros [? [=]].
  - intros j Hp. destruct (Hslot' j) as [(_ & He & Hd)|[(Ha & _)|(Ha & _)]]; done.
  - intros j Hp. destruct (Hslot' j) as [(Hn & _)|[(_ & He & _)|(_ & _ & Hd)]].
    + done.
    + by left.
    + by right.
Qed.

Lemma blocksLoop_bytes (volume path : string) (sums : list checkSumInfo)
    (eInfo : erasureInfo) (chunkSize startBlock endBlock bytesToSkip : Z)
    (length' totalLength : Z) :
  ∀ (fuel : nat) (block bytesWritten : Z) (st : readState Disk)
    (s : W * list readEvent),
    match (blocksLoop fuel volume path sums eInfo chunkSize startBlock endBlock
                      bytesToSkip length' totalLength block bytesWritten st s).1 with
    | Returned (Some (n, None)) => length' ≤ n
    | Returned (Some (n, Some _)) => n < length'
    | _ => True
    end.
Proof.
  induction fuel as [|fuel IH]; intros block bw st s; simpl.
  - destruct (Z.ltb_spec bw length'); simpl; [done|lia].
  - destruct (Z.ltb_spec bw length') as [Hlt|Hge]; simpl; [|lia].
    io_unfold.
    destruct (readBlock volume path sums eInfo chunkSize startBlock endBlock
                bytesToSkip length' totalLength block bw st s) as [[[n r]|why] s1];
      [|done].
    destruct r as [st1|e st1|]; [|done|done].
    apply IH.
Qed.

(** X24.  [erasureReadFile] returns without an error only when the bytes
    written have reached the length that was asked for, and it returns
    an error only while they are short of it: the count it returns with
    an error is below [length]. *)
Theorem erasureReadFile_bytes_written (fuel : nat) (disks : list (option Disk))
    (volume path partName : string) (eInfos : list erasureInfo)
    (offset length' totalLength : Z) (s : W * list readEvent) :
  match (erasureReadFile fuel disks volume path partName eInfos
                         offset length' totalLength s).1 with
  | Returned (Some (n, None)) => length' ≤ n
  | Returned (Some (n, Some _)) => n < length'
  | _ => True
  end.
Proof.
  unfold erasureReadFile. io_unfold.
  destruct (metaPartBlockChecksums disks eInfos partName) as [sums|why]; [|done].
  destruct (getOrderedDisks _ disks sums) as [[od os]|why]; [|done].
  destruct (getEncodedBlockLen _ _) as [chunkSize|why]; [|done].
  destruct (getBlockInfo _ _ _) as [[startBlock endBlock] bytesToSkip].
  apply blocksLoop_bytes.
Qed.

(** X25.  With a length that is not positive there is nothing to read:
    once the checksums, the order of the disks and the chunk size are
    worked out without a panic, [erasureReadFile] returns 0 bytes and no
    error, and it makes no call on a disk, on the codec or on the
    writer. *)
Theorem erasureReadFile_nothing_to_read (fuel : nat) (disks : list (option Disk))
    (volume path partName : string) (eInfos : list erasureInfo)
    (offset length' totalLength : Z) (s : W * list readEvent) :
  length' ≤ 0 →
  (erasureReadFile fuel disks volume path partName eInfos
                   offset length' totalLength s).2 = s ∧
  ∀ r, (erasureReadFile fuel disks volume path partName eInfos
                        offset length' totalLength s).1 = Returned r →
       r = Some (0, None).
Proof.
  intros Hlen. unfold erasureReadFile. io_unfold.
  destruct (metaPartBlockChecksums disks eInfos partName) as [sums|why]; [|done].
  destruct (getOrderedDisks _ disks sums) as [[od os]|why]; [|done].
  destruct (getEncodedBlockLen _ _) as [chunkSize|why]; [|done].
  destruct (getBlockInfo _ _ _) as [[startBlock endBlock] bytesToSkip].
  assert ((0 <? length') = false) as Hz by lia.
  destruct fuel; simpl; rewrite Hz; simpl; split; try done; by intros r [= <-].
Qed.
End ReadMoreFacts.

Lemma bitRotVerify_cached_witness :
  (1 < length (ErasureRead.verified Demo.demoReadState))%nat ∧
  (ErasureRead.bitRotVerify "bucket" "object" [] 1 Demo.demoReadState ((), [])).1.1
    = true ∧
  ErasureRead.bitRotVerify "bucket" "object" [] 1
    (ErasureRead.bitRotVerify "bucket" "object" [] 1 Demo.demoReadState ((), [])).1.2
    ((), [ErasureRead.EvHashSum 1]) =
  ((true,
    (ErasureRead.bitRotVerify "bucket" "object" [] 1 Demo.demoReadState ((), [])).1.2),
   ((), [ErasureRead.EvHashSum 1])).
Proof.
  assert (1 < length (ErasureRead.verified Demo.demoReadState))%nat as Hlt
    by (simpl; lia).
  split; [done|].
  pose proof (bitRotVerify_cached "bucket" "object" [] 1 Demo.demoReadState
                ((), []) Hlt) as Hspec.
  destruct (ErasureRead.bitRotVerify "bucket" "object" [] 1 Demo.demoReadState
              ((), [])) as [[ok st'] s'] eqn:Hrun.
  destruct Hspec as (Hcached & _).
  assert (ok = true) as -> by (by vm_compute in Hrun; injection Hrun as <- _ _).
  split; [done|]. by apply Hcached.
Defined.

Lemma parallelRead_effect_witness :
  let st' := (ErasureRead.parallelRead "bucket" "object" []
                [Some 0; Some 1; Some 2; None; None; None]%nat 0 1
                Demo.demoReadState ((), [])).1 in
  length (ErasureRead.enBlocks st') = 6%nat ∧
  ErasureRead.orderedDisks st' !! 0%nat = Some None ∧
  ErasureRead.present (ErasureRead.enBlocks st') 1 ∧
  ErasureRead.enBlocks st' !! 4%nat = Some None.
Proof.
  pose proof (parallelRead_effect "bucket" "object" []
                [Some 0; Some 1; Some 2; None; None; None]%nat 0 1
                Demo.demoReadState ((), [])) as Hspec.
  destruct Hspec as (Hlen & _); [simpl; lia|simpl; lia|].
  cbv zeta. split; [done|]. split; [by vm_compute|].
  split; [by eexists|]. by vm_compute.
Defined.

Lemma erasureReadFile_nothing_to_read_witness :
  ErasureRead.erasureReadFile 5 Demo.sixStorageDisks "bucket" "object" "part.1"
    (replicate 6 Demo.demoErasureInfo) 0 0 100 ((), []) =
  (Returned (Some (0, None)), ((), [])).
Proof.
  destruct (erasureReadFile_nothing_to_read 5 Demo.sixStorageDisks
              "bucket" "object" "part.1" (replicate 6 Demo.demoErasureInfo)
              0 0 100 ((), [])) as [Hstate Hval]; [lia|].
  by vm_compute.
Defined.

(** ** The pool of walkers *)

Section PoolMoreFacts.
Import TreeWalk.

Lemma firstLive_app (heap : loc → treeWalker) (walkChs : list loc) (walker : loc) :
  firstLive heap (walkChs ++ [walker]) =
  match firstLive heap walkChs with
  | Some (walkCh, rest) => Some (walkCh, rest ++ [walker])
  | None => if timedOut (heap walker) then None else Some (walker, [])
  end.
Proof.
  induction walkChs as [|w ws IH]; simpl.
  - by destruct (timedOut (heap walker)).
  - destruct (timedOut (heap w)); simpl; [apply IH|done].
Qed.

(** X26.  A walker that is saved is looked up after the walkers that
    were saved before it under the same parameters, and before none
    other.  A lookup right after [saveTreeWalk] returns the first walker
    saved before that has not timed out, and the new walker stays in the
    pool behind the others that are left; if there is no such walker,
    the lookup returns the new walker, unless it has timed out itself,
    and the parameters leave the pool.  So saving into a pool that holds
    nothing under the parameters and looking up gives the walker back
    and the pool as it was. *)
Theorem save_then_lookup (heap : loc → treeWalker) (m : listObjectMap)
    (params : listParams) (walker : loc) :
  lookupTreeWalk heap (saveTreeWalk m params walker) params =
    match firstLive heap (default [] (m !! params)) with
    | Some (walkCh, rest) => (Some walkCh, <[params := rest ++ [walker]]> m)
    | None =>
        (if timedOut (heap walker) then None else Some walker, delete params m)
    end ∧
  (∀ k, k ≠ params → saveTreeWalk m params walker !! k = m !! k) ∧
  (m !! params = None → timedOut (heap walker) = false →
   lookupTreeWalk heap (saveTreeWalk m params walker) params = (Some walker, m)).
Proof.
  assert (lookupTreeWalk heap (saveTreeWalk m params walker) params =
          match firstLive heap (default [] (m !! params)) with
          | Some (walkCh, rest) => (Some walkCh, <[params := rest ++ [walker]]> m)
          | None =>
              (if timedOut (heap walker) then None else Some walker, delete params m)
          end) as Hlook.
  { unfold lookupTreeWalk, saveTreeWalk. rewrite lookup_insert_eq, firstLive_app.
    destruct (firstLive heap (default [] (m !! params))) as [[walkCh rest]|].
    - assert ((len (rest ++ [walker]) >? 0) = true) as ->.
      { unfold len. rewrite length_app. simpl. rewrite Z.gtb_ltb. apply Z.ltb_lt. lia. }
      by rewrite insert_insert_eq.
    - destruct (timedOut (heap walker)); simpl; by rewrite delete_insert_eq. }
  split; [done|]. split.
  - intros k Hk. unfold saveTreeWalk. by apply lookup_insert_ne.
  - intros Hnone Hlive. rewrite Hlook, Hnone. simpl. rewrite Hlive.
    by rewrite delete_id.
Qed.
End PoolMoreFacts.

(** ** The books of a walk *)

Section WalkBooks.
Import Strings TreeWalk.
Context {W Disk : Type} `{!WalkEnv W Disk}.
Variable isLeaf : string → string → W → bool * W.

Lemma Forall_removelast {A} (P : A → Prop) (l : list A) :
  Forall P l → Forall P (removelast l).
Proof.
  induction 1 as [|x l Hx Hl IH]; [constructor|].
  simpl. destruct l; [constructor|]. by constructor.
Qed.

Lemma removelast_false_app {A} (P : A → Prop) (l k : list A) :
  Forall P l → Forall P (removelast k) → Forall P (removelast (l ++ k)).
Proof.
  intros Hl Hk. destruct k as [|y k].
  - rewrite app_nil_r. by apply Forall_removelast.
  - rewrite removelast_app by done. by apply Forall_app.
Qed.

Lemma send_books (r : treeWalkResult) (ws : walkState) (s : W * list walkEvent) :
  end' r = false →
  count (send r ws s).1.2 = count ws ∧
  (walkTimedOut ws = true → walkTimedOut (send r ws s).1.2 = true) ∧
  if (send r ws s).1.1
  then published (send r ws s).1.2 =
         published ws ++ [{| entry := entry r; err := err r;
                             end' := count ws =? 0 |}] ∧
       walkTimedOut (send r ws s).1.2 = walkTimedOut ws
  else published (send r ws s).1.2 = published ws ∧
       walkTimedOut (send r ws s).1.2 = true.
Proof.
  intros Hend. unfold send. io_unfold. destruct s as [w log].
  destruct (chan_send _ w) as [[|] w']; simpl; [|done].
  split; [done|]. split; [done|]. split; [|done].
  destruct r as [e er en]. simpl in *. subst en. by destruct (count ws =? 0).
Qed.

Lemma walkEntries_books
    (walkDir : string → string → walkState → IO W walkEvent (walkExit * walkState))
    (prefixDir markerDir markerBase : string) (recursive : bool) :
  (∀ dir m ws s, 0 ≤ count ws →
     walk_books ws (walkDir dir m ws s).1.2 (walkDir dir m ws s).1.1) →
  ∀ (entries : list string) (i : nat) (ws : walkState) (s : W * list walkEvent),
    len entries ≤ count ws →
    ∃ new,
      published (walkEntries walkDir prefixDir markerDir markerBase recursive
                             entries i ws s).1.2 = published ws ++ new ∧
      (entries = [] → new = []) ∧
      ((walkEntries walkDir prefixDir markerDir markerBase recursive
                    entries i ws s).1.1 = Walked true →
       count (walkEntries walkDir prefixDir markerDir markerBase recursive
                          entries i ws s).1.2 = count ws - len entries) ∧
      ((walkEntries walkDir prefixDir markerDir markerBase recursive
                    entries i ws s).1.1 ≠ Walked false →
       walkTimedOut (walkEntries walkDir prefixDir markerDir markerBase recursive
                                 entries i ws s).1.2 = walkTimedOut ws) ∧
      (walkTimedOut ws = true →
       walkTimedOut (walkEntries walkDir prefixDir markerDir markerBase recursive
                                 entries i ws s).1.2 = true) ∧
      (0 < count ws - len entries → Forall (λ r, end' r = false) new) ∧
      Forall (λ r, end' r = false) (removelast new).
Proof.
  intros Hdir. induction entries as [|entry rest IH]; intros i ws s Hcount.
  { exists []. simpl. rewrite app_nil_r. unfold len. simpl.
    repeat split; try done; try constructor. lia. }
  assert (len (entry :: rest) = len rest + 1) as Hlen by (unfold len; simpl; lia).
  pose proof (len_nonneg rest) as Hrest.
  cbn [walkEntries].
  destruct ((i =? 0)%nat && String.eqb markerDir entry &&
            (negb recursive || recursive && negb (HasSuffix entry slashSeparator))).
  { destruct (IH (S i) (add_count ws (-1)) s) as (new & Hpub & Hnil & Hcnt & Hflag & Hmono & Hpos & Hlast).
    { unfold add_count. simpl. lia. }
    exists new. unfold add_count in *. simpl in *. split; [done|]. split; [done|].
    split; [intros Hx; rewrite (Hcnt Hx); lia|]. split; [done|]. split; [done|].
    split; [|done]. intros Hb. apply Hpos. lia. }
  destruct (recursive && HasSuffix entry slashSeparator).
  - io_unfold.
    pose proof (Hdir (pathJoin prefixDir entry)
                  (if String.eqb entry markerDir then markerBase else "")
                  (add_count ws (-1)) s) as Hd.
    destruct (walkDir _ _ (add_count ws (-1)) s) as [[exit ws1] s1].
    simpl in Hd. destruct Hd as (newd & Hpubd & Hcntd & Hflagd & Hmonod & Hposd & Hlastd).
    { unfold add_count. simpl. lia. }
    unfold add_count in *. simpl in *.
    destruct exit as [[|]|].
    + destruct (IH (S i) ws1 s1) as (new & Hpub & Hnil & Hcnt & Hflag & Hmono & Hpos & Hlast).
      { rewrite Hcntd by done. lia. }
      exists (newd ++ new). rewrite Hpub, Hpubd. rewrite app_assoc.
      split; [done|]. split; [done|].
      split; [intros Hx; rewrite (Hcnt Hx), Hcntd by done; lia|].
      split; [intros Hx; rewrite (Hflag Hx); by apply Hflagd|].
      split; [intros Hx; apply Hmono, Hmonod, Hx|].
      split.
      * intros Hb. apply Forall_app. split; [apply Hposd; lia|].
        apply Hpos. rewrite Hcntd by done. lia.
      * destruct rest as [|entry' rest'].
        { rewrite (Hnil eq_refl), app_nil_r. done. }
        apply removelast_false_app; [|done]. apply Hposd.
        unfold len in *. simpl in *. lia.
    + exists newd. split; [done|]. split; [done|]. split; [done|]. split; [done|].
      split; [done|]. split; [|done]. intros Hb. apply Hposd. lia.
    + exists newd. split; [done|]. split; [done|]. split; [done|].
      split; [intros _; by apply Hflagd|].
      split; [done|]. split; [|done]. intros Hb. apply Hposd. lia.
  - io_unfold.
    pose proof (send_books {| entry := pathJoin prefixDir entry; err := None;
                              end' := false |} (add_count ws (-1)) s eq_refl)
      as (Hcs & Hms & Hsend).
    destruct (send _ (add_count ws (-1)) s) as [[ok ws1] s1].
    unfold add_count in *. simpl in *.
    destruct ok.
    + destruct Hsend as [Hps Hfs].
      destruct (IH (S i) ws1 s1) as (new & Hpub & Hnil & Hcnt & Hflag & Hmono & Hpos & Hlast).
      { lia. }
      eexists (_ :: new). rewrite Hpub, Hps. rewrite <- app_assoc.
      split; [done|]. split; [done|].
      split; [intros Hx; rewrite (Hcnt Hx); lia|].
      split; [intros Hx; by rewrite (Hflag Hx)|].
      split; [intros Hx; apply Hmono, Hms, Hx|].
      split.
      * intros Hb. constructor; [simpl; lia|]. apply Hpos. lia.
      * destruct rest as [|entry' rest'].
        { rewrite (Hnil eq_refl). constructor. }
        apply (removelast_false_app _ [_]); [|done].
        constructor; [|constructor]. simpl. unfold len in *. simpl in *. lia.
    + destruct Hsend as [Hps Hfs]. exists []. rewrite app_nil_r. simpl.
      split; [done|]. split; [done|]. split; [done|]. split; [done|].
      split; [done|]. split; constructor.
Qed.

Lemma treeWalk_books (bucket : string) (recursive : bool) :
  ∀ (depth : nat) (prefixDir entryPrefixMatch marker : string)
    (ws : walkState) (s : W * list walkEvent),
    0 ≤ count ws →
    walk_books ws
      (treeWalk isLeaf depth bucket prefixDir entryPrefixMatch marker
                recursive ws s).1.2
      (treeWalk isLeaf depth bucket prefixDir entryPrefixMatch marker
                recursive ws s).1.1.
Proof.
  induction depth as [|depth IH];
    intros prefixDir entryPrefixMatch marker ws s Hcount.
  { exists []. simpl. rewrite app_nil_r. repeat split; try done; constructor. }
  simpl. destruct (splitMarker marker) as [markerDir markerBase].
  io_unfold.
  destruct (listDir _ _ _ _ s) as [[entries [e|]] s1].
  - pose proof (send_books {| entry := ""; err := Some e; end' := false |}
                  ws s1 eq_refl) as (Hcs & Hms & Hsend).
    destruct (send _ ws s1) as [[ok ws1] s2]. simpl in *.
    destruct ok; destruct Hsend as [Hps Hfs].
    + eexists [_]. split; [done|]. split; [done|]. split; [done|]. split; [done|].
      split; [|constructor]. intros Hb. constructor; [simpl; lia|constructor].
    + exists []. rewrite app_nil_r. split; [done|]. split; [done|]. split; [done|].
      split; [done|]. split; constructor.
  - destruct (length entries =? 0)%nat.
    { exists []. simpl. rewrite app_nil_r. repeat split; try done; constructor. }
    set (idx := sort_Search _ _).
    destruct (walkEntries_books
                (λ dir markerArg ws0,
                   treeWalk isLeaf depth bucket dir "" markerArg recursive ws0)
                prefixDir markerDir markerBase recursive
                (λ dir m ws0 s0 Hc, IH dir "" m ws0 s0 Hc)
                (drop idx entries) 0
                (add_count ws (len (drop idx entries))) s1)
      as (new & Hpub & _ & Hcnt & Hflag & Hmono & Hpos & Hlast).
    { unfold add_count. simpl. lia. }
    exists new. unfold add_count in *. simpl in *. split; [done|].
    split; [intros Hx; rewrite (Hcnt Hx); lia|]. split; [done|]. split; [done|].
    split; [|done]. intros Hb. apply Hpos. lia.
Qed.

(** X27.  The books of a walk that [startTreeWalk] starts, and of every
    [treeWalk] that begins with a counter that is not negative.  A walk
    that returns [true] leaves the counter as it found it, so that it
    ends at 0 for the whole walk.  The flag [timedOut] is never taken
    back, and it is only set in a walk that returns [false].  The mark
    [end] is carried by no result but the last one published, and by
    none at all if the walk began with a positive counter: the
    results that are still to come are counted. *)
Theorem startTreeWalk_books (bucket : string) (recursive : bool) (depth : nat) :
  (∀ prefixDir entryPrefixMatch marker ws s,
     0 ≤ count ws →
     walk_books ws
       (treeWalk isLeaf depth bucket prefixDir entryPrefixMatch marker
                 recursive ws s).1.2
       (treeWalk isLeaf depth bucket prefixDir entryPrefixMatch marker
                 recursive ws s).1.1) ∧
  (∀ prefix marker s,
     let exit := (startTreeWalk isLeaf depth bucket prefix marker recursive s).1.1 in
     let ws' := (startTreeWalk isLeaf depth bucket prefix marker recursive s).1.2 in
     Forall (λ r, end' r = false) (removelast (published ws')) ∧
     (exit = Walked true → count ws' = 0) ∧
     (exit ≠ Walked false → walkTimedOut ws' = false)).
Proof.
  split.
  - intros. by apply treeWalk_books.
  - intros prefix marker s. unfold startTreeWalk.
    destruct (if negb (LastIndex prefix slashSeparator =? -1)
              then (dropStr (Z.to_nat (LastIndex prefix slashSeparator + 1)) prefix,
                    takeStr (Z.to_nat (LastIndex prefix slashSeparator + 1)) prefix)
              else (prefix, "")) as [entryPrefixMatch prefixDir].
    destruct (treeWalk_books bucket recursive depth prefixDir entryPrefixMatch
                (TrimPrefix marker prefixDir)
                {| count := 0; published := []; walkTimedOut := false |} s)
      as (new & Hpub & Hcnt & Hflag & _ & _ & Hlast); [done|].
    cbv zeta. simpl in *. rewrite Hpub. done.
Qed.
End WalkBooks.

(** ** The first listing of a walk *)

Section WalkFirstListing.
Import Strings TreeWalk.
Context {W Disk : Type} `{!WalkEnv W Disk}.
Variable isLeaf : string → string → W → bool * W.

Lemma listDirFrom_all_nil (disks : list (option Disk)) (bucket prefixDir : string)
    (filter : string → bool) (s : W * list walkEvent) :
  Forall (λ d, d = None) disks →
  listDirFrom isLeaf disks bucket prefixDir filter s = (([], None), s).
Proof. induction 1 as [|d disks -> _ IH]; simpl; [done|apply IH]. Qed.

(** X28.  How a walk ends at its first listing.  If none of the
    load-balanced disks is there, [listDir] returns no entry and no
    error, and [treeWalk] returns [true] without a listing and without
    a result: the directory looks empty.  If the listing fails with an
    error, [treeWalk] sends one result that carries the error and no
    entry, and returns [false]: the send is the last call of the walk,
    the result is published if the send is received, and the walker is
    marked as timed out if it is not. *)
Theorem treeWalk_first_listing (depth : nat)
    (bucket prefixDir entryPrefixMatch marker : string) (recursive : bool)
    (ws : walkState) (w : W) (log : list walkEvent) :
  (Forall (λ d, d = None) (getLoadBalancedQuorumDisks w).1 →
   treeWalk isLeaf (S depth) bucket prefixDir entryPrefixMatch marker recursive
            ws (w, log) =
     ((Walked true, ws), ((getLoadBalancedQuorumDisks w).2, log))) ∧
  (∀ e,
     (listDir isLeaf bucket prefixDir
              (λ entry, negb (HasPrefix entry entryPrefixMatch)) (w, log)).1.2
       = Some e →
     let run := treeWalk isLeaf (S depth) bucket prefixDir entryPrefixMatch marker
                         recursive ws (w, log) in
     let result := {| entry := ""; err := Some e; end' := count ws =? 0 |} in
     run.1.1 = Walked false ∧ count run.1.2 = count ws ∧
     (∃ before, run.2.2 = before ++ [EvSend result]) ∧
     (published run.1.2 = published ws ++ [result] ∧
      walkTimedOut run.1.2 = walkTimedOut ws ∨
      published run.1.2 = published ws ∧ walkTimedOut run.1.2 = true)).
Proof.
  split.
  - intros Hnil. simpl. destruct (splitMarker marker) as [markerDir markerBase].
    unfold listDir. io_unfold.
    destruct (getLoadBalancedQuorumDisks w) as [disks w1]. simpl in *.
    by rewrite listDirFrom_all_nil.
  - intros e Herr. simpl. destruct (splitMarker marker) as [markerDir markerBase].
    io_unfold.
    destruct (listDir _ _ _ _ (w, log)) as [[entries err] [w1 log1]].
    simpl in Herr. subst err. unfold send. io_unfold.
    destruct (chan_send _ w1) as [[|] w2]; simpl.
    + split; [done|]. split; [done|].
      split; [exists log1; by destruct (count ws =? 0)|].
      left. by destruct (count ws =? 0).
    + split; [done|]. split; [done|].
      split; [exists log1; by destruct (count ws =? 0)|]. by right.
Qed.
End WalkFirstListing.

Lemma treeWalk_first_listing_witness :
  TreeWalk.treeWalk (WalkEnv0 := Demo.deadWalkEnv) Demo.demoIsLeaf 5
    "bucket" "" "" "" true (TreeWalk.mkWalkState 0 [] false) ((), []) =
    ((TreeWalk.Walked true, TreeWalk.mkWalkState 0 [] false), ((), [])) ∧
  (TreeWalk.treeWalk Demo.demoIsLeaf 5 "bucket" "nowhere/" "" "" true
     (TreeWalk.mkWalkState 0 [] false) ((), [])).1 =
    (TreeWalk.Walked false,
     TreeWalk.mkWalkState 0 [TreeWalk.mkResult "" (Some errVolumeNotFound) true] false).
Proof.
  split.
  - destruct (treeWalk_first_listing (WalkEnv0 := Demo.deadWalkEnv) Demo.demoIsLeaf 4
                "bucket" "" "" "" true (TreeWalk.mkWalkState 0 [] false) () [])
      as [Hnil _].
    apply Hnil. by repeat constructor.
  - by vm_compute.
Defined.

(** ** The constructor of the object layer *)

Section ConstructorFacts.
Import XLObjects.
Context {W Disk Format : Type} `{!Bootstrap W Disk Format}.

Lemma bootstrapDisks_spec (disks : list string) (s : W * list bootEvent) :
  match (bootstrapDisks disks s).1.2 with
  | None =>
      length (bootstrapDisks disks s).1.1 = length disks ∧
      (bootstrapDisks disks s).2.2 = s.2 ++ (EvNewStorageAPI <$> disks)
  | Some e =>
      e ≠ errDiskNotFound ∧
      ∃ k, (k < length disks)%nat ∧
           (bootstrapDisks disks s).2.2 = s.2 ++ (EvNewStorageAPI <$> take (S k) disks)
  end.
Proof.
  revert s. induction disks as [|disk disks IH]; intros [w log]; simpl.
  - by rewrite app_nil_r.
  - io_unfold. destruct (newStorageAPI disk w) as [[d err] w1].
    destruct (decide (err ≠ None ∧ err ≠ Some errDiskNotFound)) as [[Hn Hd]|Hok].
    + simpl. destruct err as [e|]; [|done].
      split; [congruence|]. exists 0%nat. split; [lia|done].
    + specialize (IH (w1, log ++ [EvNewStorageAPI disk])).
      destruct (bootstrapDisks disks _) as [[ds err'] s']. simpl in *.
      destruct err' as [e|].
      * destruct IH as (Hne & k & Hk & ->). split; [done|].
        exists (S k). split; [lia|]. by rewrite <- app_assoc.
      * destruct IH as [Hlen ->]. split; [lia|]. by rewrite <- app_assoc.
Qed.

(** X29.  [newXLObjects] returns an object layer or an error, never
    both and never neither.  With an object layer the disks have passed
    [checkSufficientDisks], [physicalDisks] are the disks given, the data
    and the parity blocks are both half of the storage disks, both
    quorums are one more, and the run is: [newStorageAPI] on every disk
    in their order, [loadAllFormats], then nothing or the initialisation
    of the meta volume and of the format or the healing of the format,
    then the house keeping and [loadFormatXL].  With an error of
    [checkSufficientDisks] nothing is called. *)
Theorem newXLObjects_outcome (disks : list string) (w : W) (log : list bootEvent) :
  match newXLObjects disks (w, log) with
  | ((Some xl, None), (_, log')) =>
      checkSufficientDisks disks = None ∧
      physicalDisks xl = disks ∧
      dataBlocks xl = Z.quot (len (storageDisks xl)) 2 ∧
      parityBlocks xl = dataBlocks xl ∧
      readQuorum xl = dataBlocks xl + 1 ∧ writeQuorum xl = dataBlocks xl + 1 ∧
      ∃ mid, log' = log ++ (EvNewStorageAPI <$> disks) ++ [EvLoadAllFormats] ++ mid
                        ++ [EvHouseKeeping; EvLoadFormatXL] ∧
             (mid = [] ∨ mid = [EvInitMetaVolume; EvInitFormatXL] ∨
              mid = [EvHealFormatXL])
  | ((None, Some e), (_, log')) =>
      ∃ new, log' = log ++ new ∧
             (checkSufficientDisks disks ≠ None →
              checkSufficientDisks disks = Some e ∧ new = [])
  | _ => False
  end.
Proof.
  unfold newXLObjects.
  destruct (checkSufficientDisks disks) as [e0|] eqn:Hcheck.
  { simpl. exists []. by rewrite app_nil_r. }
  io_unfold.
  pose proof (bootstrapDisks_spec disks (w, log)) as Hboot.
  destruct (bootstrapDisks disks (w, log)) as [[ds err] [w1 log1]]. simpl in Hboot.
  destruct err as [e|].
  { destruct Hboot as (_ & k & _ & ->). eexists. split; [done|]. done. }
  destruct Hboot as [_ ->].
  destruct (loadAllFormats ds w1) as [[formats sErrs] w2].
  destruct (genericFormatCheck formats sErrs) as [e|].
  { eexists. split; [by rewrite <- app_assoc|done]. }
  assert (∃ mid, ∀ w3 r,
            handleFormatErrs sErrs ds
              (w2, (log ++ (EvNewStorageAPI <$> disks)) ++ [EvLoadAllFormats]) = (r, w3) →
            w3.2 = log ++ (EvNewStorageAPI <$> disks) ++ [EvLoadAllFormats] ++ mid ∧
            (r = None → mid = [] ∨ mid = [EvInitMetaVolume; EvInitFormatXL] ∨
                        mid = [EvHealFormatXL])) as (mid & Hmid).
  { unfold handleFormatErrs. io_unfold.
    destruct (reduceFormatErrs sErrs (len ds)) as [[]|];
      try (exists []; intros w3 r [= <- <-];
           split; [by rewrite app_nil_r, <- app_assoc|by left]).
    - destruct (initMetaVolume ds w2) as [[e|] w3'].
      + exists [EvInitMetaVolume]. intros w3 r [= <- <-].
        split; [by rewrite <- !app_assoc|]. done.
      + destruct (initFormatXL ds w3') as [[e|] w4].
        * exists [EvInitMetaVolume; EvInitFormatXL]. intros w3 r [= <- <-].
          split; [by rewrite <- !app_assoc|]. done.
        * exists [EvInitMetaVolume; EvInitFormatXL]. intros w3 r [= <- <-].
          split; [by rewrite <- !app_assoc|]. intros _. right. by left.
    - destruct (healFormatXL ds w2) as [[e|] w3'].
      + exists [EvHealFormatXL]. intros w3 r [= <- <-].
        split; [by rewrite <- !app_assoc|]. done.
      + exists [EvHealFormatXL]. intros w3 r [= <- <-].
        split; [by rewrite <- !app_assoc|]. intros _. right. by right. }
  destruct (handleFormatErrs sErrs ds _) as [herr [w3 log3]] eqn:Hh.
  destruct (Hmid _ _ eq_refl) as [Hlog3 Hmidshape]. simpl in Hlog3. subst log3.
  destruct herr as [e|].
  { eexists. split; [done|done]. }
  destruct (xlHouseKeeping ds w3) as [[e|] w4].
  { eexists. split; [by rewrite <- !app_assoc|done]. }
  destruct (loadFormatXL ds w4) as [[newDisks [e|]] w5].
  { eexists. split; [by rewrite <- !app_assoc|done]. }
  simpl. repeat (split; [done|]).
  exists mid. split; [by rewrite <- !app_assoc|]. by apply Hmidshape.
Qed.
End ConstructorFacts.

(** ** The prefix of a listing *)

Section PrefixFacts.
Import Strings TreeWalk.
Context {W Disk : Type} `{!WalkEnv W Disk}.
Variable isLeaf : string → string → W → bool * W.

Lemma lastIndexFrom_last (pos : nat) (s : string) (last : Z) :
  (lastIndexFrom pos s "/" last = last ∧
   ∀ k, HasPrefix (dropStr k s) "/" = false) ∨
  (∃ k, lastIndexFrom pos s "/" last = Z.of_nat (pos + k) ∧
        HasPrefix (dropStr k s) "/" = true ∧
        ∀ k', (k < k')%nat → HasPrefix (dropStr k' s) "/" = false).
Proof.
  revert pos last. induction s as [|x s IH]; intros pos last.
  - left. split; [done|]. by intros [|k].
  - cbn [lastIndexFrom].
    destruct (IH (S pos) (if HasPrefix (String x s) "/" then Z.of_nat pos else last))
      as [[Heq Hnone]|(k & Heq & Hk & Hafter)].
    + rewrite Heq. destruct (HasPrefix (String x s) "/") eqn:Hp.
      * right. exists 0%nat. rewrite Nat.add_0_r. split; [done|]. split; [done|].
        intros [|k'] Hk'; [lia|]. apply Hnone.
      * left. split; [done|]. intros [|k]; [done|apply Hnone].
    + right. exists (S k). rewrite Heq. split; [f_equal; lia|]. split; [done|].
      intros [|k'] Hk'; [lia|]. apply Hafter. lia.
Qed.

Lemma no_slash_prefix (m x : string) :
  (∀ k, HasPrefix (dropStr k m) "/" = false) →
  HasPrefix (x +:+ "/") m = true → HasPrefix x m = true.
Proof.
  revert x. induction m as [|c m IH]; intros x Hno Hp.
  - apply HasPrefix_spec. exists x. by rewrite str_app_nil_l.
  - apply HasPrefix_spec in Hp as [t Ht]. rewrite str_app_cons in Ht.
    destruct x as [|c' x].
    + rewrite str_app_nil_l in Ht. injection Ht as <- _.
      specialize (Hno 0%nat). simpl in Hno.
      assert (HasPrefix (String "/" m) "/" = true) as Hyes; [|congruence].
      apply HasPrefix_spec. exists m. by rewrite str_app_cons, str_app_nil_l.
    + rewrite str_app_cons in Ht. injection Ht as -> Ht.
      assert (HasPrefix x m = true) as Hx.
      { apply IH; [intros k; apply (Hno (S k))|].
        apply HasPrefix_spec. by exists t. }
      apply HasPrefix_spec in Hx as [t' ->].
      apply HasPrefix_spec. exists t'. by rewrite str_app_cons.
Qed.

Lemma filterEntries_kept (bucket prefixDir : string)
    (filter : string → bool) (entries : list string) (s : W * list walkEvent) :
  Forall2 (λ e e', e' = "" ∨ (filter e = false ∧ processed e e')) entries
          (filterEntries isLeaf bucket prefixDir filter entries s).1.
Proof.
  revert s. induction entries as [|e entries IH]; intros s; simpl.
  - constructor.
  - destruct (filter e) eqn:Hf.
    + io_unfold. specialize (IH s).
      destruct (filterEntries _ _ _ _ entries s) as [rest' s'].
      constructor; [by left | done].
    + io_unfold. destruct (HasSuffix e slashSeparator) eqn:Hsuf.
      * destruct s as [w log].
        destruct (isLeaf bucket (pathJoin prefixDir e) w) as [leaf w1].
        specialize (IH (w1, log ++ [EvIsLeaf bucket (pathJoin prefixDir e)])).
        destruct (filterEntries _ _ _ _ entries _) as [rest' s'].
        constructor; [|done]. right. split; [done|].
        destruct leaf; [|by right; left].
        right; right. apply HasSuffix_spec in Hsuf as [x ->].
        exists x. by rewrite TrimSuffix_app.
      * specialize (IH s).
        destruct (filterEntries _ _ _ _ entries s) as [rest' s'].
        constructor; [|done]. right. split; [done|]. by right; left.
Qed.

Lemma listDir_matches (bucket prefixDir m : string) (s : W * list walkEvent) :
  (∀ k, HasPrefix (dropStr k m) "/" = false) →
  Forall (λ e, HasPrefix e m = true)
         (listDir isLeaf bucket prefixDir (λ entry, negb (HasPrefix entry m)) s).1.1.
Proof.
  intros Hno. unfold listDir. io_unfold. destruct s as [w log].
  destruct (getLoadBalancedQuorumDisks w) as [disks w1].
  generalize (w1, log). clear w w1 log. intros s.
  induction disks as [|[disk|] disks IH]; simpl.
  - constructor.
  - io_unfold. destruct s as [w log].
    destruct (disk_ListDir disk bucket prefixDir w) as [[raw [e|]] w1].
    + constructor.
    + pose proof (filterEntries_kept bucket prefixDir
                    (λ entry, negb (HasPrefix entry m)) raw
                    (w1, log ++ [EvListDir bucket prefixDir])) as Hkept.
      destruct (filterEntries _ _ _ _ raw _) as [done' s']. simpl in *.
      assert (StronglySorted String.le (sort_Strings done')) as Hs.
      { apply StronglySorted_merge_sort; apply _. }
      rewrite skipEmpty_sorted by done.
      apply Forall_forall. intros e' [Hne Hin]%list_elem_of_filter.
      unfold sort_Strings in Hin. rewrite merge_sort_Permutation in Hin.
      apply list_elem_of_lookup in Hin as [i Hi].
      destruct (Forall2_lookup_r _ _ _ _ _ Hkept Hi) as (e0 & _ & [?|[Hf Hp]]);
        [done|].
      apply negb_false_iff in Hf.
      destruct Hp as [?|[->|(x & -> & ->)]]; [done|done|].
      by apply no_slash_prefix.
  - apply IH.
Qed.

(** X30.  A listing stays under its prefix.  With a [pathJoin] that
    appends on directory prefixes and disks that list as a file system
    does, every entry published by the walk that [startTreeWalk] starts
    for a prefix begins with the prefix, whatever the marker: the
    prefix is split at its last slash, [treeWalk] lists the directory
    before the slash, keeps the entries that begin with the rest, which
    has no slash, and publishes them and what lies below them. *)
Theorem startTreeWalk_under_prefix (depth : nat) (bucket : string) (recursive : bool) :
  pathJoin_ok → listings_ok →
  (∀ prefixDir entryPrefixMatch marker ws s,
     dirLike prefixDir →
     (∀ k, HasPrefix (dropStr k entryPrefixMatch) "/" = false) →
     ∃ new,
       published (treeWalk isLeaf depth bucket prefixDir entryPrefixMatch marker
                           recursive ws s).1.2 = published ws ++ new ∧
       Forall (λ p, ∃ t, p = prefixDir +:+ entryPrefixMatch +:+ t)
              (pubEntries new)) ∧
  (∀ prefix marker s,
     Forall (λ p, HasPrefix p prefix = true)
            (pubEntries (published
               (startTreeWalk isLeaf depth bucket prefix marker recursive s).1.2))).
Proof.
  intros Hjoin Hlist.
  assert (∀ prefixDir entryPrefixMatch marker ws s,
     dirLike prefixDir →
     (∀ k, HasPrefix (dropStr k entryPrefixMatch) "/" = false) →
     ∃ new,
       published (treeWalk isLeaf depth bucket prefixDir entryPrefixMatch marker
                           recursive ws s).1.2 = published ws ++ new ∧
       Forall (λ p, ∃ t, p = prefixDir +:+ entryPrefixMatch +:+ t)
              (pubEntries new)) as Hwalk.
  { intros prefixDir m marker ws s Hdir Hno.
    destruct depth as [|depth].
    { exists []. simpl. rewrite app_nil_r. split; [done|constructor]. }
    simpl. destruct (splitMarker marker) as [markerDir markerBase] eqn:Hsplit.
    io_unfold.
    pose proof (listDir_sorted isLeaf bucket prefixDir
                  (λ entry, negb (HasPrefix entry m)) s Hlist) as Hl.
    pose proof (listDir_matches bucket prefixDir m s Hno) as Hm.
    destruct (listDir _ _ _ _ s) as [[entries [e|]] s1]; simpl in Hl, Hm.
    - pose proof (send_published {| entry := ""; err := Some e; end' := false |}
                    ws s1) as (new & Hn & Hshape & _).
      destruct (send _ ws s1) as [[ok ws1] s2]. simpl in *.
      exists new. split; [done|].
      assert (pubEntries new = []) as ->; [|constructor].
      destruct Hshape as [->|(r' & -> & _ & Hrr)]; [done|].
      unfold pubEntries. rewrite filter_cons_False; [done|].
      simpl in Hrr. by rewrite Hrr.
    - destruct Hl as (_ & Hsorted & Hwf).
      destruct (Nat.eqb_spec (length entries) 0).
      { exists []. simpl. rewrite app_nil_r. split; [done|constructor]. }
      pose proof (search_marker entries markerDir Hsorted) as [_ Hge].
      set (idx := sort_Search _ _) in *.
      destruct (walkEntries_spec Hjoin
                  (λ dir markerArg ws0,
                     treeWalk isLeaf depth bucket dir "" markerArg recursive ws0)
                  prefixDir marker markerDir markerBase recursive Hdir Hsplit
                  (λ dir m0 ws0 s0 Hd,
                     treeWalk_spec isLeaf Hjoin Hlist bucket recursive depth
                                   dir "" m0 ws0 s0 Hd)
                  (drop idx entries) 0
                  (add_count ws (len (drop idx entries))) s1)
        as (new & Hn & _ & Hf).
      + rewrite <- (take_drop idx entries) in Hsorted.
        by apply StronglySorted_app in Hsorted as (_ & _ & ?).
      + rewrite <- (take_drop idx entries) in Hwf.
        by apply Forall_app in Hwf as [_ ?].
      + done.
      + done.
      + exists new. split; [done|].
        eapply Forall_impl; [exact Hf|]. intros p (e & t & Hin & -> & _).
        apply subseteq_drop in Hin. rewrite Forall_forall in Hm.
        apply Hm, HasPrefix_spec in Hin as [t' ->].
        exists (t' +:+ t). by rewrite !str_app_assoc. }
  split; [exact Hwalk|].
  intros prefix marker s. unfold startTreeWalk.
  assert (∃ m d, (if negb (LastIndex prefix slashSeparator =? -1)
                  then (dropStr (Z.to_nat (LastIndex prefix slashSeparator + 1)) prefix,
                        takeStr (Z.to_nat (LastIndex prefix slashSeparator + 1)) prefix)
                  else (prefix, "")) = (m, d) ∧
                 prefix = d +:+ m ∧ dirLike d ∧
                 ∀ k, HasPrefix (dropStr k m) "/" = false) as (m & d & -> & Hpre & Hd & Hno).
  { pose proof (prefix_split prefix) as [Hdir _]. cbv zeta in Hdir.
    unfold LastIndex, slashSeparator in *.
    destruct (lastIndexFrom_last 0 prefix (-1)) as [[Heq Hnone]|(k & Heq & Hk & Hafter)];
      rewrite Heq in *.
    - simpl. exists prefix, "". split; [done|]. split; [by rewrite str_app_nil_l|].
      split; [by left|done].
    - assert (negb (Z.of_nat (0 + k) =? -1) = true) as Hneg
        by (apply negb_true_iff, Z.eqb_neq; lia).
      rewrite Hneg in *. eexists _, _. split; [done|].
      split; [by rewrite take_drop_str|]. split; [done|].
      intros k'. rewrite <- dropStr_add. apply Hafter. lia. }
  destruct (Hwalk d m (TrimPrefix marker d)
              {| count := 0; published := []; walkTimedOut := false |} s Hd Hno)
    as (new & Hpub & Hall).
  rewrite Hpub. simpl. eapply Forall_impl; [exact Hall|].
  intros p [t ->]. apply HasPrefix_spec. exists t. by rewrite Hpre, str_app_assoc.
Qed.
End PrefixFacts.

Lemma startTreeWalk_under_prefix_witness :
  TreeWalk.pathJoin_ok (WalkEnv0 := Demo.demoWalkEnv) ∧
  TreeWalk.listings_ok (WalkEnv0 := Demo.demoWalkEnv) ∧
  TreeWalk.pubEntries (TreeWalk.published
    (TreeWalk.startTreeWalk Demo.demoIsLeaf 5 "bucket" "photos/c" "" true
                            ((), [])).1.2) = ["photos/cat.jpg"] ∧
  Forall (λ p, Strings.HasPrefix p "photos/c" = true)
    (TreeWalk.pubEntries (TreeWalk.published
       (TreeWalk.startTreeWalk Demo.demoIsLeaf 5 "bucket" "photos/c" "" true
                               ((), [])).1.2)).
Proof.
  split; [exact demo_pathJoin_ok|]. split; [exact demo_listings_ok|].
  split; [by vm_compute|].
  destruct (startTreeWalk_under_prefix Demo.demoIsLeaf 5 "bucket" true
              demo_pathJoin_ok demo_listings_ok) as [_ Hstart].
  apply Hstart.
Defined.
